(** * Glossary trainer: scheduler, queue selection and card-set operations

    A shallow embedding of [src/App.tsx]: the Leitner scheduler
    [scheduleNext], the review and learn queues, the handlers that change
    the card set ([rate], [addOne], [importCSV], [resetProgress], the
    delete button), [exportJSON] and [load]; together with the parts of
    the JavaScript host the code relies on.

    Conventions of the model:
    - a string is its sequence of UTF-16 code units;
    - the numbers of the application (buckets, intervals, the session
      size, time values) are integers, with [None] for [NaN];
    - the clock, the random source of [uid] and the answers of the
      dialogs are inputs of the function that reads them;
    - a call that raises returns [None];
    - the time zone of the host is an input as well: the offset of local
      time from UTC as a function of the instant. *)

From Stdlib Require Import ZArith List Bool Ascii String DecimalString Lia
  Permutation Sorted.
From Stdlib Require DecimalFacts DecimalPos.
Import ListNotations.
Local Open Scope Z_scope.

(** ** JavaScript strings *)

(** A JavaScript string is a finite sequence of UTF-16 code units
    (integers in 0..65535). *)
Definition jsstring := list Z.

(** String literals of this file are written as Rocq strings (UTF-8 bytes)
    and decoded to code units; code points above U+FFFF become surrogate
    pairs. *)
Fixpoint utf8_to_utf16 (bs : list Z) : jsstring :=
  match bs with
  | [] => []
  | b :: r =>
      if b <? 128 then b :: utf8_to_utf16 r
      else if b <? 224 then
        match r with
        | b2 :: r2 => ((b mod 32) * 64 + b2 mod 64) :: utf8_to_utf16 r2
        | _ => []
        end
      else if b <? 240 then
        match r with
        | b2 :: b3 :: r3 =>
            ((b mod 16) * 4096 + (b2 mod 64) * 64 + b3 mod 64) :: utf8_to_utf16 r3
        | _ => []
        end
      else
        match r with
        | b2 :: b3 :: b4 :: r4 =>
            let cp := (b mod 8) * 262144 + (b2 mod 64) * 4096
                      + (b3 mod 64) * 64 + b4 mod 64 in
            let v := cp - 65536 in
            (55296 + v / 1024) :: (56320 + v mod 1024) :: utf8_to_utf16 r4
        | _ => []
        end
  end.

Definition str (s : string) : jsstring :=
  utf8_to_utf16 (map (fun a => Z.of_N (N_of_ascii a)) (list_ascii_of_string s)).

(** Comparison of strings by code units, the order of the relational
    operators [<], [<=] on two strings. *)
Fixpoint str_compare (a b : jsstring) : comparison :=
  match a, b with
  | [], [] => Eq
  | [], _ :: _ => Lt
  | _ :: _, [] => Gt
  | x :: a', y :: b' =>
      match x ?= y with
      | Eq => str_compare a' b'
      | c => c
      end
  end.

(** [a <= b] on strings. *)
Definition str_leb (a b : jsstring) : bool :=
  match str_compare a b with Gt => false | _ => true end.

Fixpoint str_eqb (a b : jsstring) : bool :=
  match a, b with
  | [], [] => true
  | x :: a', y :: b' => (x =? y) && str_eqb a' b'
  | _, _ => false
  end.

(** White space and line terminators, the code units [String.prototype.trim]
    strips. *)
Definition is_js_space (c : Z) : bool :=
  ((9 <=? c) && (c <=? 13))
  || (c =? 32) || (c =? 160) || (c =? 5760)
  || ((8192 <=? c) && (c <=? 8202))
  || (c =? 8232) || (c =? 8233) || (c =? 8239) || (c =? 8287)
  || (c =? 12288) || (c =? 65279).

Fixpoint trimStart (s : jsstring) : jsstring :=
  match s with
  | c :: r => if is_js_space c then trimStart r else s
  | [] => []
  end.

Definition trim (s : jsstring) : jsstring :=
  rev (trimStart (rev (trimStart s))).

(** [s.split(sep)] for a separator that matches exactly one code unit
    ([","], [/;|\t/]). The accumulator holds the current piece reversed. *)
Fixpoint split_acc (is_sep : Z -> bool) (acc s : jsstring) : list jsstring :=
  match s with
  | [] => [rev acc]
  | c :: r =>
      if is_sep c then rev acc :: split_acc is_sep [] r
      else split_acc is_sep (c :: acc) r
  end.

Definition split_on (is_sep : Z -> bool) (s : jsstring) : list jsstring :=
  split_acc is_sep [] s.

(** [s.split(/\r?\n/)]: a line feed (10), with the carriage return (13)
    before it when there is one, ends a piece. *)
Fixpoint split_lines_acc (acc s : jsstring) : list jsstring :=
  match s with
  | [] => [rev acc]
  | c :: r =>
      if c =? 10 then rev acc :: split_lines_acc [] r
      else
        match r with
        | c2 :: r2 =>
            if (c =? 13) && (c2 =? 10) then rev acc :: split_lines_acc [] r2
            else split_lines_acc (c :: acc) r
        | [] => split_lines_acc (c :: acc) r
        end
  end.

Definition split_lines (s : jsstring) : list jsstring :=
  split_lines_acc [] s.

(** [Boolean(s)] on a string: the empty string is falsy. *)
Definition nonempty (s : jsstring) : bool :=
  match s with [] => false | _ => true end.

(** [a.slice(0, n)] on an array, for an integral [n]: a negative end
    counts from the end of the array. *)
Definition slice0 {A} (l : list A) (n : Z) : list A :=
  if n <? 0 then firstn (Z.to_nat (Z.max (Z.of_nat (List.length l) + n) 0)) l
  else firstn (Z.to_nat n) l.

(** ** Numbers that may be [NaN] *)

(** The numbers of the scheduler are integers; [None] stands for [NaN]
    (and for [undefined] where it is used as a number). *)
Definition num := option Z.

Definition num_add (a b : num) : num :=
  match a, b with
  | Some x, Some y => Some (x + y)
  | _, _ => None
  end.

(** ** Dates *)

(** A [Date] holds a time value: milliseconds since 1970-01-01T00:00:00Z,
    or [NaN] for an invalid date. *)
Definition Date := option Z.

Definition msPerDay : Z := 86400000.
Definition maxTime : Z := 8640000000000000.

Definition Day (t : Z) : Z := t / msPerDay.
Definition TimeWithinDay (t : Z) : Z := t mod msPerDay.

Definition TimeClip (t : Z) : Date :=
  if Z.abs t <=? maxTime then Some t else None.

(** The proleptic Gregorian calendar, computed by 400-year eras of 146097
    days that start on 1 March. *)
Definition daysPerEra : Z := 146097.
Definition epochShift : Z := 719468.

Definition yearOfEra (doe : Z) : Z :=
  (doe - doe / 1460 + doe / 36524 - doe / 146096) / 365.

Definition dayOfYear (doe : Z) : Z :=
  let yoe := yearOfEra doe in
  doe - (365 * yoe + yoe / 4 - yoe / 100).

Definition monthIndex (doe : Z) : Z := (5 * dayOfYear doe + 2) / 153.

Definition monthOfEraDay (doe : Z) : Z :=
  let mp := monthIndex doe in
  if mp <? 10 then mp + 3 else mp - 9.

Definition dateOfEraDay (doe : Z) : Z :=
  dayOfYear doe - (153 * monthIndex doe + 2) / 5 + 1.

Definition yearShift (doe : Z) : Z :=
  yearOfEra doe + (if monthOfEraDay doe <=? 2 then 1 else 0).

(** Year, month (1..12) and day of the month of a day number. *)
Definition YearFromDay (day : Z) : Z :=
  let z := day + epochShift in
  (z / daysPerEra) * 400 + yearShift (z mod daysPerEra).
Definition MonthFromDay (day : Z) : Z :=
  monthOfEraDay ((day + epochShift) mod daysPerEra).
Definition DateFromDay (day : Z) : Z :=
  dateOfEraDay ((day + epochShift) mod daysPerEra).

(** The day number of year [y], month [m] (1..12) and day [d]; a day
    outside the month carries over, as [MakeDay] does. *)
Definition MakeDay (y m d : Z) : Z :=
  let y' := if m <=? 2 then y - 1 else y in
  let era := y' / 400 in
  let yoe := y' mod 400 in
  let mp := if m <=? 2 then m + 9 else m - 3 in
  let doy := (153 * mp + 2) / 5 + d - 1 in
  era * daysPerEra + (yoe * 365 + yoe / 4 - yoe / 100 + doy) - epochShift.

Definition isLeap (y : Z) : bool :=
  ((y mod 4 =? 0) && negb (y mod 100 =? 0)) || (y mod 400 =? 0).

Definition DaysInMonth (y m : Z) : Z :=
  if m =? 2 then (if isLeap y then 29 else 28)
  else if (m =? 4) || (m =? 6) || (m =? 9) || (m =? 11) then 30
  else 31.

(** Decimal digits: [pad k n] is [n] written with exactly [k] digits. *)
Fixpoint pad (k : nat) (n : Z) : jsstring :=
  match k with
  | O => []
  | S k' => pad k' (n / 10) ++ [48 + n mod 10]
  end.

Definition yearString (y : Z) : jsstring :=
  if (0 <=? y) && (y <=? 9999) then pad 4 y
  else (if y <? 0 then str "-" else str "+") ++ pad 6 (Z.abs y).

(** The date part [YYYY-MM-DD] of a day number. *)
Definition isoDate (day : Z) : jsstring :=
  yearString (YearFromDay day) ++ str "-" ++ pad 2 (MonthFromDay day)
  ++ str "-" ++ pad 2 (DateFromDay day).

(** [YYYY-MM-DDTHH:mm:ss.sssZ] for a time value. *)
Definition ISOString (t : Z) : jsstring :=
  let ms := TimeWithinDay t in
  isoDate (Day t) ++ str "T" ++ pad 2 (ms / 3600000)
  ++ str ":" ++ pad 2 ((ms / 60000) mod 60)
  ++ str ":" ++ pad 2 ((ms / 1000) mod 60)
  ++ str "." ++ pad 3 (ms mod 1000) ++ str "Z".

(** [d.toISOString()]: an invalid date raises [RangeError] ([None]). *)
Definition toISOString (d : Date) : option jsstring :=
  option_map ISOString d.

Definition digit (c : Z) : option Z :=
  if (48 <=? c) && (c <=? 57) then Some (c - 48) else None.

Fixpoint number_of_digits (acc : Z) (s : jsstring) : option Z :=
  match s with
  | [] => Some acc
  | c :: r =>
      match digit c with
      | Some v => number_of_digits (10 * acc + v) r
      | None => None
      end
  end.

(** The calendar date a string [YYYY-MM-DD] denotes, when it is one. *)
Definition calendar_date (s : jsstring) : option (Z * Z * Z) :=
  match s with
  | [y1; y2; y3; y4; 45; m1; m2; 45; d1; d2] =>
      match number_of_digits 0 [y1; y2; y3; y4],
            number_of_digits 0 [m1; m2],
            number_of_digits 0 [d1; d2] with
      | Some y, Some m, Some d =>
          if (1 <=? m) && (m <=? 12) && (1 <=? d) && (d <=? DaysInMonth y m)
          then Some (y, m, d) else None
      | _, _, _ => None
      end
  | _ => None
  end.

(** The year and month of a string [+YYYYYY-MM] or [-YYYYYY-MM] (the
    expanded-year form; year [-000000] is not allowed). *)
Definition expanded_year_month (s : jsstring) : option (Z * Z) :=
  match s with
  | [sg; y1; y2; y3; y4; y5; y6; 45; m1; m2] =>
      match number_of_digits 0 [y1; y2; y3; y4; y5; y6],
            number_of_digits 0 [m1; m2] with
      | Some y, Some m =>
          if negb ((1 <=? m) && (m <=? 12)) then None
          else if sg =? 43 then Some (y, m)
          else if (sg =? 45) && negb (y =? 0) then Some (- y, m)
          else None
      | _, _ => None
      end
  | _ => None
  end.

(** [new Date(s)] for the date-only strings the application builds with
    [toISOString().slice(0, 10)]: both forms denote midnight UTC. Any other
    string is an invalid date here (the fallback formats of [Date.parse]
    are host-defined, and no call of the application reaches them). *)
Definition Date_parse (s : jsstring) : Date :=
  match calendar_date s with
  | Some (y, m, d) => TimeClip (MakeDay y m d * msPerDay)
  | None =>
      match expanded_year_month s with
      | Some (y, m) => TimeClip (MakeDay y m 1 * msPerDay)
      | None => None
      end
  end.

(** The time zone of the host: the offset of local time from UTC in
    milliseconds, at a UTC time value and at a local time value (a local
    time that a change of offset skips or repeats takes the offset from
    before the change). *)
Record TimeZone := mkZone {
  offset_utc : Z -> Z;
  offset_local : Z -> Z
}.

Definition LocalTime (tz : TimeZone) (t : Z) : Z := t + offset_utc tz t.
Definition UTC (tz : TimeZone) (t : Z) : Z := t - offset_local tz t.

(** [d.getDate()] and [d.setDate(dt)] work in local time. *)
Definition getDate (tz : TimeZone) (d : Date) : num :=
  option_map (fun t => DateFromDay (Day (LocalTime tz t))) d.

Definition setDate (tz : TimeZone) (d : Date) (dt : num) : Date :=
  match d, dt with
  | Some t, Some v =>
      let t := LocalTime tz t in
      let newDate := MakeDay (YearFromDay (Day t)) (MonthFromDay (Day t)) v * msPerDay
                     + TimeWithinDay t in
      TimeClip (UTC tz newDate)
  | _, _ => None
  end.

(** A zone with one offset all year, and a zone that has the offset [dst]
    instead of [std] between the UTC instants [start] and [stop]. *)
Definition fixed_zone (c : Z) : TimeZone :=
  {| offset_utc := fun _ => c; offset_local := fun _ => c |}.

Definition dst_zone (std dst start stop : Z) : TimeZone :=
  {| offset_utc := fun t => if (start <=? t) && (t <? stop) then dst else std;
     offset_local := fun t =>
       if (start + dst <=? t) && (t <? stop + dst) then dst else std |}.

(** [toISOString().slice(0, 10)]. *)
Definition slice10 (s : option jsstring) : option jsstring :=
  option_map (firstn 10) s.

(** ** Cards *)

Inductive Rating := again | hard | good | easy.
Inductive Mode := review | learn | browse.

Definition Rating_eqb (a b : Rating) : bool :=
  match a, b with
  | again, again | hard, hard | good, good | easy, easy => true
  | _, _ => false
  end.

Record HistoryEntry := mkEntry { d : jsstring; rating : Rating }.

Record Term := mkTerm {
  id : jsstring;
  term : jsstring;
  definition : jsstring;
  tags : option (list jsstring);
  source : option jsstring;
  bucket : Z;
  due : jsstring;
  history : list HistoryEntry
}.

(** ** The scheduler *)

(** The clock is an input: [now] is the time value [new Date()] reads
    while one handler runs; so is the time zone [tz] of the host. *)
Definition todayISO (now : Z) : jsstring := firstn 10 (ISOString now).

Definition addDays (tz : TimeZone) (iso : jsstring) (days : num) : option jsstring :=
  let d := Date_parse iso in
  let d := setDate tz d (num_add (getDate tz d) days) in
  slice10 (toISOString d).

Definition LEITNER_INTERVALS : list Z := [0; 1; 3; 7; 14; 30].

(** [a[i]] for an integer index: [undefined] outside the array. *)
Definition index {A} (a : list A) (i : Z) : option A :=
  if i <? 0 then None else nth_error a (Z.to_nat i).

(** [scheduleNext]; [None] when the call raises (the [RangeError] of
    [toISOString] on an invalid date). *)
Definition scheduleNext (tz : TimeZone) (now : Z) (t : Term) (rating : Rating)
    : option Term :=
  let bucket := bucket t in
  let bucket := if Rating_eqb rating again then Z.max 1 (bucket - 1) else bucket in
  let bucket := if Rating_eqb rating hard then Z.max 1 bucket else bucket in
  let bucket := if Rating_eqb rating good then Z.min 5 (Z.max 1 (bucket + 1)) else bucket in
  let bucket := if Rating_eqb rating easy then Z.min 5 (Z.max 2 (bucket + 2)) else bucket in
  let interval := index LEITNER_INTERVALS bucket in
  match addDays tz (todayISO now) interval with
  | None => None
  | Some due =>
      Some {| id := id t; term := term t; definition := definition t;
              tags := tags t; source := source t;
              bucket := bucket; due := due;
              history := history t ++ [ {| d := ISOString now; rating := rating |} ] |}
  end.

(** The transition table of the specification, in its own words. *)
Definition clamp (x lo hi : Z) : Z :=
  if x <? lo then lo else if hi <? x then hi else x.

Definition spec_bucket (B : Z) (r : Rating) : Z :=
  match r with
  | again => Z.max 1 (B - 1)
  | hard => Z.max 1 B
  | good => clamp (B + 1) 1 5
  | easy => clamp (B + 2) 2 5
  end.

(** ** Sorting *)

(** [Array.prototype.sort] is a stable sort; with a comparator that is a
    total preorder its result does not depend on the algorithm
    ([sort_unique] below). It is modelled by insertion from the right. *)
Section Sort.
Context {A : Type} (cmp : A -> A -> comparison).

Fixpoint insert_sorted (x : A) (l : list A) : list A :=
  match l with
  | [] => [x]
  | y :: l' =>
      match cmp x y with
      | Gt => y :: insert_sorted x l'
      | _ => x :: l
      end
  end.

Fixpoint sort (l : list A) : list A :=
  match l with
  | [] => []
  | x :: l' => insert_sorted x (sort l')
  end.
End Sort.

(** ** The application state and its handlers *)

Record AppState := mkState {
  mode : Mode;
  all : list Term;
  showBack : bool;
  sessionSize : Z
}.

Definition Mode_eqb (a b : Mode) : bool :=
  match a, b with
  | review, review | learn, learn | browse, browse => true
  | _, _ => false
  end.

Section Queue.
(** [String.prototype.localeCompare] depends on the collation of the
    host's locale; it is a parameter. *)
Variable localeCompare : jsstring -> jsstring -> comparison.

Definition dueToday (now : Z) (all : list Term) : list Term :=
  sort (fun a b => localeCompare (due a) (due b))
       (filter (fun t => (0 <? bucket t) && str_leb (due t) (todayISO now)) all).

Definition newCards (all : list Term) : list Term :=
  filter (fun t => bucket t =? 0) all.

Definition queue (now : Z) (st : AppState) : list Term :=
  if Mode_eqb (mode st) review then slice0 (dueToday now (all st)) (sessionSize st)
  else if Mode_eqb (mode st) learn then slice0 (newCards (all st)) (sessionSize st)
  else [].

Definition current (now : Z) (st : AppState) : option Term :=
  index (queue now st) 0.
End Queue.

(** ** JSON *)

(** JSON values. A number keeps the decimal it was written as:
    [JNumber m e] is [m * 10^e]. *)
#[local] Unset Elimination Schemes.
Inductive JSON :=
| JNull
| JBool (b : bool)
| JNumber (m e : Z)
| JString (s : jsstring)
| JArray (items : list JSON)
| JObject (members : list (jsstring * JSON)).
#[local] Set Elimination Schemes.

(** *** [JSON.parse]

    One pass over the code units, with a lexer state and a stack of the
    open arrays and objects. *)

Inductive NumState := NMinus | NZero | NInt | NDot | NFrac | NExpMark | NExpSign | NExp.

Inductive Lex :=
| LIdle
| LString (acc : jsstring)
| LEscape (acc : jsstring)
| LUnicode (acc : jsstring) (n : nat) (v : Z)
| LNumber (st : NumState) (neg : bool) (mant fracs : Z) (eneg : bool) (ex : Z)
| LLiteral (rest : jsstring) (v : JSON).

Inductive Frame :=
| FArray (items : list JSON)
| FObject (members : list (jsstring * JSON)) (key : option jsstring).

Inductive Expect :=
| EValue | EValueOrClose | EKeyOrClose | EKey | EColon | ECommaOrClose | EDone.

Record Parser := mkParser {
  expect : Expect;
  stack : list Frame;
  result : option JSON
}.

Definition expects_value (e : Expect) : bool :=
  match e with EValue | EValueOrClose => true | _ => false end.

Definition expects_key (e : Expect) : bool :=
  match e with EKey | EKeyOrClose => true | _ => false end.

(** A complete value goes to the innermost open container, or is the
    result. *)
Definition complete (v : JSON) (p : Parser) : option Parser :=
  if expects_value (expect p) then
    match stack p with
    | [] => Some (mkParser EDone [] (Some v))
    | FArray items :: fs => Some (mkParser ECommaOrClose (FArray (v :: items) :: fs) None)
    | FObject members (Some k) :: fs =>
        Some (mkParser ECommaOrClose (FObject ((k, v) :: members) None :: fs) None)
    | FObject _ None :: _ => None
    end
  else None.

Definition complete_string (s : jsstring) (p : Parser) : option Parser :=
  if expects_key (expect p) then
    match stack p with
    | FObject members None :: fs =>
        Some (mkParser EColon (FObject members (Some s) :: fs) None)
    | _ => None
    end
  else complete (JString s) p.

Definition close_array (p : Parser) : option Parser :=
  match expect p, stack p with
  | (EValueOrClose | ECommaOrClose), FArray items :: fs =>
      complete (JArray (rev items)) (mkParser EValue fs None)
  | _, _ => None
  end.

Definition close_object (p : Parser) : option Parser :=
  match expect p, stack p with
  | (EKeyOrClose | ECommaOrClose), FObject members None :: fs =>
      complete (JObject (rev members)) (mkParser EValue fs None)
  | _, _ => None
  end.

Definition is_json_space (c : Z) : bool :=
  (c =? 9) || (c =? 10) || (c =? 13) || (c =? 32).

Definition is_digit (c : Z) : bool := (48 <=? c) && (c <=? 57).

(** A code unit read between tokens. *)
Definition idle_step (c : Z) (p : Parser) : option (Lex * Parser) :=
  if is_json_space c then Some (LIdle, p)
  else if c =? 34 then
    if expects_value (expect p) || expects_key (expect p)
    then Some (LString [], p) else None
  else if c =? 91 then
    if expects_value (expect p)
    then Some (LIdle, mkParser EValueOrClose (FArray [] :: stack p) None) else None
  else if c =? 123 then
    if expects_value (expect p)
    then Some (LIdle, mkParser EKeyOrClose (FObject [] None :: stack p) None) else None
  else if c =? 93 then option_map (pair LIdle) (close_array p)
  else if c =? 125 then option_map (pair LIdle) (close_object p)
  else if c =? 44 then
    match expect p, stack p with
    | ECommaOrClose, FArray _ :: _ => Some (LIdle, mkParser EValue (stack p) None)
    | ECommaOrClose, FObject _ _ :: _ => Some (LIdle, mkParser EKey (stack p) None)
    | _, _ => None
    end
  else if c =? 58 then
    match expect p with
    | EColon => Some (LIdle, mkParser EValue (stack p) None)
    | _ => None
    end
  else if negb (expects_value (expect p)) then None
  else if c =? 45 then Some (LNumber NMinus true 0 0 false 0, p)
  else if c =? 48 then Some (LNumber NZero false 0 0 false 0, p)
  else if is_digit c then Some (LNumber NInt false (c - 48) 0 false 0, p)
  else if c =? 116 then Some (LLiteral (str "rue") (JBool true), p)
  else if c =? 102 then Some (LLiteral (str "alse") (JBool false), p)
  else if c =? 110 then Some (LLiteral (str "ull") JNull, p)
  else None.

Definition number_accepts (st : NumState) : bool :=
  match st with NZero | NInt | NFrac | NExp => true | _ => false end.

Definition number_value (neg : bool) (mant fracs : Z) (eneg : bool) (ex : Z) : JSON :=
  JNumber (if neg then - mant else mant) ((if eneg then - ex else ex) - fracs).

(** The next state of the number lexer on [c], when [c] continues the
    number. *)
Definition number_step (c : Z) (st : NumState) (neg : bool) (mant fracs : Z)
    (eneg : bool) (ex : Z) : option Lex :=
  let dg := is_digit c in
  let v := c - 48 in
  let exp_mark := (c =? 101) || (c =? 69) in
  match st with
  | NMinus =>
      if c =? 48 then Some (LNumber NZero neg 0 0 false 0)
      else if dg then Some (LNumber NInt neg v 0 false 0) else None
  | NZero =>
      if c =? 46 then Some (LNumber NDot neg mant fracs eneg ex)
      else if exp_mark then Some (LNumber NExpMark neg mant fracs eneg ex) else None
  | NInt =>
      if dg then Some (LNumber NInt neg (10 * mant + v) 0 false 0)
      else if c =? 46 then Some (LNumber NDot neg mant fracs eneg ex)
      else if exp_mark then Some (LNumber NExpMark neg mant fracs eneg ex) else None
  | NDot =>
      if dg then Some (LNumber NFrac neg (10 * mant + v) (fracs + 1) false 0) else None
  | NFrac =>
      if dg then Some (LNumber NFrac neg (10 * mant + v) (fracs + 1) false 0)
      else if exp_mark then Some (LNumber NExpMark neg mant fracs eneg ex) else None
  | NExpMark =>
      if c =? 43 then Some (LNumber NExpSign neg mant fracs false 0)
      else if c =? 45 then Some (LNumber NExpSign neg mant fracs true 0)
      else if dg then Some (LNumber NExp neg mant fracs false v) else None
  | NExpSign =>
      if dg then Some (LNumber NExp neg mant fracs eneg v) else None
  | NExp =>
      if dg then Some (LNumber NExp neg mant fracs eneg (10 * ex + v)) else None
  end.

Definition hex_digit (c : Z) : option Z :=
  if (48 <=? c) && (c <=? 57) then Some (c - 48)
  else if (97 <=? c) && (c <=? 102) then Some (c - 87)
  else if (65 <=? c) && (c <=? 70) then Some (c - 55)
  else None.

Definition escape_char (c : Z) : option Z :=
  if (c =? 34) || (c =? 92) || (c =? 47) then Some c
  else if c =? 98 then Some 8
  else if c =? 102 then Some 12
  else if c =? 110 then Some 10
  else if c =? 114 then Some 13
  else if c =? 116 then Some 9
  else None.

Definition parse_step (c : Z) (lp : Lex * Parser) : option (Lex * Parser) :=
  let (lx, p) := lp in
  match lx with
  | LIdle => idle_step c p
  | LString acc =>
      if c =? 34 then option_map (pair LIdle) (complete_string (rev acc) p)
      else if c =? 92 then Some (LEscape acc, p)
      else if c <? 32 then None
      else Some (LString (c :: acc), p)
  | LEscape acc =>
      if c =? 117 then Some (LUnicode acc 0 0, p)
      else option_map (fun e => (LString (e :: acc), p)) (escape_char c)
  | LUnicode acc n v =>
      match hex_digit c with
      | Some h =>
          match n with
          | 3%nat => Some (LString ((16 * v + h) :: acc), p)
          | _ => Some (LUnicode acc (S n) (16 * v + h), p)
          end
      | None => None
      end
  | LNumber st neg mant fracs eneg ex =>
      match number_step c st neg mant fracs eneg ex with
      | Some lx' => Some (lx', p)
      | None =>
          if number_accepts st then
            match complete (number_value neg mant fracs eneg ex) p with
            | Some p' => idle_step c p'
            | None => None
            end
          else None
      end
  | LLiteral rest v =>
      match rest with
      | x :: rest' =>
          if c =? x then
            match rest' with
            | [] => option_map (pair LIdle) (complete v p)
            | _ => Some (LLiteral rest' v, p)
            end
          else None
      | [] => None
      end
  end.

Fixpoint parse_run (s : jsstring) (lp : Lex * Parser) : option (Lex * Parser) :=
  match s with
  | [] => Some lp
  | c :: r =>
      match parse_step c lp with
      | Some lp' => parse_run r lp'
      | None => None
      end
  end.

(** [JSON.parse(s)]; [None] is the [SyntaxError]. *)
Definition JSON_parse (s : jsstring) : option JSON :=
  match parse_run s (LIdle, mkParser EValue [] None) with
  | Some (LIdle, p) => result p
  | Some (LNumber st neg mant fracs eneg ex, p) =>
      if number_accepts st then
        match complete (number_value neg mant fracs eneg ex) p with
        | Some p' => result p'
        | None => None
        end
      else None
  | _ => None
  end.

(** *** Reading a parsed value *)

(** [o[k]] on a parsed object: of two members with the same key the later
    one is the property. *)
Fixpoint get (k : jsstring) (members : list (jsstring * JSON)) : option JSON :=
  match members with
  | [] => None
  | (k', v) :: ms =>
      match get k ms with
      | Some w => Some w
      | None => if str_eqb k k' then Some v else None
      end
  end.

(** Whether the number value of the decimal [m * 10^e] is [0]: the
    decimal is zero or rounds to zero (it is at most [2^-1075]). *)
Definition number_is_zero (m e : Z) : bool :=
  (m =? 0) || ((e <? 0) && (Z.abs m * 2 ^ 1075 <=? 10 ^ (- e))).

(** [Boolean(v)]. *)
Definition truthy (v : JSON) : bool :=
  match v with
  | JNull => false
  | JBool b => b
  | JNumber m e => negb (number_is_zero m e)
  | JString s => nonempty s
  | JArray _ | JObject _ => true
  end.

(** [Boolean(v.length)]; [None] when reading the property raises
    ([TypeError] on [null]). Numbers and booleans have no [length]. *)
Definition length_truthy (v : JSON) : option bool :=
  match v with
  | JNull => None
  | JBool _ | JNumber _ _ => Some false
  | JString s => Some (nonempty s)
  | JArray items => Some (match items with [] => false | _ => true end)
  | JObject members =>
      Some (match get (str "length") members with
            | Some w => truthy w
            | None => false
            end)
  end.

(** The cards a parsed value denotes when it has the shape of the type
    [Term[]]: numbers are read as integers. *)
Definition as_string (v : option JSON) : option jsstring :=
  match v with Some (JString s) => Some s | _ => None end.

Definition as_integer (v : option JSON) : option Z :=
  match v with
  | Some (JNumber m e) =>
      if 0 <=? e then Some (m * 10 ^ e)
      else if m mod 10 ^ (- e) =? 0 then Some (m / 10 ^ (- e)) else None
  | _ => None
  end.

Fixpoint all_some {A} (l : list (option A)) : option (list A) :=
  match l with
  | [] => Some []
  | Some x :: r => option_map (cons x) (all_some r)
  | None :: _ => None
  end.

Definition as_strings (v : JSON) : option (list jsstring) :=
  match v with
  | JArray items => all_some (map (fun x => as_string (Some x)) items)
  | _ => None
  end.

Definition rating_string (r : Rating) : jsstring :=
  match r with
  | again => str "again"
  | hard => str "hard"
  | good => str "good"
  | easy => str "easy"
  end.

Definition as_rating (v : option JSON) : option Rating :=
  match as_string v with
  | Some s =>
      if str_eqb s (str "again") then Some again
      else if str_eqb s (str "hard") then Some hard
      else if str_eqb s (str "good") then Some good
      else if str_eqb s (str "easy") then Some easy
      else None
  | None => None
  end.

Definition as_entry (v : JSON) : option HistoryEntry :=
  match v with
  | JObject ms =>
      match as_string (get (str "d") ms), as_rating (get (str "rating") ms) with
      | Some d, Some r => Some (mkEntry d r)
      | _, _ => None
      end
  | _ => None
  end.

Definition as_optional {A} (f : JSON -> option A) (v : option JSON) : option (option A) :=
  match v with
  | None => Some None
  | Some x => option_map Some (f x)
  end.

Definition as_term (v : JSON) : option Term :=
  match v with
  | JObject ms =>
      match as_string (get (str "id") ms), as_string (get (str "term") ms),
            as_string (get (str "definition") ms),
            as_optional as_strings (get (str "tags") ms),
            as_optional (fun x => as_string (Some x)) (get (str "source") ms),
            as_integer (get (str "bucket") ms), as_string (get (str "due") ms),
            get (str "history") ms with
      | Some i, Some t, Some df, Some tg, Some sr, Some b, Some du, Some (JArray hs) =>
          option_map (mkTerm i t df tg sr b du) (all_some (map as_entry hs))
      | _, _, _, _, _, _, _, _ => None
      end
  | _ => None
  end.

Definition as_terms (v : JSON) : option (list Term) :=
  match v with
  | JArray items => all_some (map as_term items)
  | _ => None
  end.

(** *** [JSON.stringify(all, null, 2)] at the type [Term[]] *)

Definition hex_char (h : Z) : Z := if h <? 10 then 48 + h else 87 + h.

Definition unicode_escape (c : Z) : jsstring :=
  str "\u" ++ [hex_char (c / 4096); hex_char ((c / 256) mod 16);
               hex_char ((c / 16) mod 16); hex_char (c mod 16)].

Definition is_high_surrogate (c : Z) : bool := (55296 <=? c) && (c <=? 56319).
Definition is_low_surrogate (c : Z) : bool := (56320 <=? c) && (c <=? 57343).

Definition quote_unit (c : Z) : jsstring :=
  if c =? 8 then str "\b"
  else if c =? 9 then str "\t"
  else if c =? 10 then str "\n"
  else if c =? 12 then str "\f"
  else if c =? 13 then str "\r"
  else if c =? 34 then [92; 34]
  else if c =? 92 then [92; 92]
  else if (c <? 32) || is_high_surrogate c || is_low_surrogate c then unicode_escape c
  else [c].

(** A surrogate pair is kept; every other code unit is quoted on its own. *)
Fixpoint quote_units (s : jsstring) : jsstring :=
  match s with
  | [] => []
  | c :: r =>
      match r with
      | c2 :: r2 =>
          if is_high_surrogate c && is_low_surrogate c2
          then c :: c2 :: quote_units r2
          else quote_unit c ++ quote_units r
      | [] => quote_unit c
      end
  end.

Definition json_string (s : jsstring) : jsstring := [34] ++ quote_units s ++ [34].

Definition json_number (n : Z) : jsstring :=
  str (NilZero.string_of_int (Z.to_int n)).

Fixpoint join (sep : jsstring) (l : list jsstring) : jsstring :=
  match l with
  | [] => []
  | [x] => x
  | x :: r => x ++ sep ++ join sep r
  end.

Definition gap : jsstring := str "  ".
Definition newline : jsstring := [10].

(** An array or object whose closing bracket is indented by [indent]; the
    items are already rendered. *)
Definition json_array (indent : jsstring) (items : list jsstring) : jsstring :=
  match items with
  | [] => str "[]"
  | _ => str "[" ++ newline ++ indent ++ gap
         ++ join (str "," ++ newline ++ indent ++ gap) items
         ++ newline ++ indent ++ str "]"
  end.

Definition json_object (indent : jsstring) (members : list (string * jsstring)) : jsstring :=
  match members with
  | [] => str "{}"
  | _ => str "{" ++ newline ++ indent ++ gap
         ++ join (str "," ++ newline ++ indent ++ gap)
              (map (fun kv => json_string (str (fst kv)) ++ str ": " ++ snd kv) members)
         ++ newline ++ indent ++ str "}"
  end.

Definition stringify_entry (indent : jsstring) (h : HistoryEntry) : jsstring :=
  json_object indent
    [("d"%string, json_string (d h));
     ("rating"%string, json_string (rating_string (rating h)))].

(** The keys are in the order in which every card of the application is
    built; an absent optional field has no member. *)
Definition stringify_term (indent : jsstring) (t : Term) : jsstring :=
  let inner := indent ++ gap in
  json_object indent
    ([("id"%string, json_string (id t));
      ("term"%string, json_string (term t));
      ("definition"%string, json_string (definition t))]
     ++ match tags t with
        | Some tg => [("tags"%string, json_array inner (map json_string tg))]
        | None => []
        end
     ++ match source t with
        | Some sr => [("source"%string, json_string sr)]
        | None => []
        end
     ++ [("bucket"%string, json_number (bucket t));
         ("due"%string, json_string (due t));
         ("history"%string,
          json_array inner (map (stringify_entry (inner ++ gap)) (history t)))]).

Definition JSON_stringify (all : list Term) : jsstring :=
  json_array [] (map (stringify_term gap) all).

(** ** Handlers that change the card set *)

(** [uid()] draws on a random source and the clock; [uid n] stands for the
    value of the [n]-th call made by the operation at hand. *)
Definition IdSupply := nat -> jsstring.

(** [xs.map(f)] when [f] may raise: the first raise ends the call. *)
Fixpoint map_raise {A B} (f : A -> option B) (l : list A) : option (list B) :=
  match l with
  | [] => Some []
  | x :: r =>
      match f x with
      | None => None
      | Some y => option_map (cons y) (map_raise f r)
      end
  end.

Fixpoint mapi_from {A B} (i : nat) (f : nat -> A -> B) (l : list A) : list B :=
  match l with
  | [] => []
  | x :: r => f i x :: mapi_from (S i) f r
  end.

(** [{ ...t, bucket: b }]. *)
Definition with_bucket (t : Term) (b : Z) : Term :=
  {| id := id t; term := term t; definition := definition t; tags := tags t;
     source := source t; bucket := b; due := due t; history := history t |}.

(** A fresh card: bucket 0, due today, no history. *)
Definition fresh (i tm df : jsstring) (tg : list jsstring) (now : Z) : Term :=
  {| id := i; term := tm; definition := df; tags := Some tg; source := None;
     bucket := 0; due := todayISO now; history := [] |}.

(** [x || ''] for a string that may be [undefined] or [null]. *)
Definition or_empty (x : option jsstring) : jsstring :=
  match x with Some v => v | None => [] end.

Section Handlers.
Variable localeCompare : jsstring -> jsstring -> comparison.
Variable tz : TimeZone.

(** [rate]: [rendered] is the instant at which the queue on screen was
    computed, [now] the instant of the click. [None] when the handler
    raises, which leaves the state as it was. *)
Definition rate (rendered now : Z) (st : AppState) (rating : Rating)
    : option AppState :=
  match current localeCompare rendered st with
  | None => Some st
  | Some cur =>
      match map_raise
              (fun t =>
                 if str_eqb (id t) (id cur)
                 then scheduleNext tz now
                        (with_bucket t (if bucket t =? 0 then 1 else bucket t))
                        rating
                 else Some t)
              (all st) with
      | Some next =>
          Some {| mode := mode st; all := next; showBack := false;
                  sessionSize := sessionSize st |}
      | None => None
      end
  end.
End Handlers.

(** [resetProgress]; [confirmed] is the answer to the dialog. *)
Definition resetProgress (confirmed : bool) (now : Z) (st : AppState) : AppState :=
  if negb confirmed then st
  else
    {| mode := learn;
       all := map (fun t =>
                     {| id := id t; term := term t; definition := definition t;
                        tags := tags t; source := source t;
                        bucket := 0; due := todayISO now; history := [] |})
                  (all st);
       showBack := showBack st; sessionSize := sessionSize st |}.

Definition is_field_sep (c : Z) : bool := (c =? 59) || (c =? 9).
Definition is_comma (c : Z) : bool := c =? 44.

(** The card of one row of the import text. *)
Definition parse_row (uid : IdSupply) (now : Z) (i : nat) (r : jsstring) : Term :=
  let fields := split_on is_field_sep r in
  let term := nth_error fields 0 in
  let definition := nth_error fields 1 in
  let tags := nth_error fields 2 in
  fresh (uid i) (trim (or_empty term)) (trim (or_empty definition))
        (if nonempty (or_empty tags)
         then map trim (split_on is_comma (or_empty tags)) else [])
        now.

Definition importCSV (uid : IdSupply) (now : Z) (st : AppState) (csv : jsstring)
    : AppState :=
  let rows := filter nonempty (map trim (split_lines csv)) in
  let parsed := mapi_from 0 (parse_row uid now) rows in
  match parsed with
  | [] => st
  | _ => {| mode := learn; all := parsed; showBack := showBack st;
            sessionSize := sessionSize st |}
  end.

(** The text [exportJSON] offers for download. *)
Definition exportJSON (st : AppState) : jsstring := JSON_stringify (all st).

(** [addOne]; the arguments are the answers to the three prompts ([None]
    when a prompt is cancelled). *)
Definition addOne (uid : IdSupply) (now : Z) (st : AppState)
    (term definition tags : option jsstring) : AppState :=
  if negb (nonempty (or_empty term)) then st
  else
    let tg := filter nonempty (map trim (split_on is_comma (or_empty tags))) in
    {| mode := mode st;
       all := all st ++ [fresh (uid 0%nat) (or_empty term) (or_empty definition) tg now];
       showBack := showBack st; sessionSize := sessionSize st |}.

(** The delete button of card [t]. *)
Definition deleteTerm (t : Term) (st : AppState) : AppState :=
  {| mode := mode st;
     all := filter (fun x => negb (str_eqb (id x) (id t))) (all st);
     showBack := showBack st; sessionSize := sessionSize st |}.

(** The session-size input: [Math.max(5, Number(value) || 20)] for an
    integral value ([None] when the text is not a number). *)
Definition setSessionSize (value : num) (st : AppState) : AppState :=
  {| mode := mode st; all := all st; showBack := showBack st;
     sessionSize := Z.max 5 (match value with
                             | Some v => if v =? 0 then 20 else v
                             | None => 20
                             end) |}.

(** ** Persistence *)

Definition SEED (uid : IdSupply) (started : Z) : list Term :=
  mapi_from 0
    (fun i x => fresh (uid i) (str (fst (fst x))) (str (snd (fst x))) [str (snd x)] started)
    [("Организационная структура",
      "Совокупность подразделений и связей между ними, определяющих распределение функций, ответственности и полномочий в компании.",
      "управление");
     ("Затраты фиксированные",
      "Издержки, величина которых не зависит от объёма выпуска в краткосрочном периоде (аренда, амортизация).",
      "издержки");
     ("Затраты переменные",
      "Издержки, изменяющиеся пропорционально объёму выпуска (сырьё, сдельная оплата труда).",
      "издержки");
     ("Точка безубыточности",
      "Объём продаж, при котором прибыль равна нулю и выручка покрывает все издержки.",
      "финансы");
     ("Маржинальный доход",
      "Разница между выручкой и переменными затратами; используется для анализа ассортимента и ценообразования.",
      "финансы");
     ("Аутсорсинг",
      "Передача вспомогательных или непрофильных функций внешним исполнителям для повышения эффективности.",
      "организация");
     ("BSC (Сбалансированная система показателей)",
      "Методика стратегического управления, переводящая стратегию в систему целей и KPI по четырём перспективам.",
      "стратегия");
     ("KPI",
      "Ключевые показатели эффективности, отражающие степень достижения целей.",
      "оценка");
     ("Бизнес-процесс",
      "Повторяемая последовательность действий, создающая ценность для внутреннего или внешнего клиента.",
      "процессы");
     ("Реинжиниринг процессов",
      "Фундаментальное переосмысление и радикальное перепроектирование процессов для достижения резких улучшений.",
      "процессы")]%string.

(** What [load] returns: the seed, or the parsed value as it is (the cast
    [as Term[]] checks nothing). *)
Inductive Loaded :=
| Seed (ts : list Term)
| Parsed (v : JSON).

(** [load]; [raw] is [localStorage.getItem(STORAGE_KEY)], [None] for
    [null]. *)
Definition load (uid : IdSupply) (started : Z) (raw : option jsstring) : Loaded :=
  match raw with
  | None => Seed (SEED uid started)
  | Some r =>
      if negb (nonempty r) then Seed (SEED uid started)
      else
        match JSON_parse r with
        | Some parsed =>
            match length_truthy parsed with
            | Some true => Parsed parsed
            | Some false => Seed (SEED uid started)
            | None => Seed (SEED uid started)
            end
        | None => Seed (SEED uid started)
        end
  end.

(** ** Events *)

(** The user actions that reach a handler, with the inputs each one
    reads. *)
Inductive Event :=
| Rate (rendered now : Z) (rating : Rating)
| Add (uid : IdSupply) (now : Z) (term definition tags : option jsstring)
| Import (uid : IdSupply) (now : Z) (csv : jsstring)
| Reset (confirmed : bool) (now : Z)
| Delete (t : Term)
| SetMode (m : Mode)
| Reveal
| SetSessionSize (value : num).

(** The state after an event; a handler that raises changes nothing. *)
Definition handle (localeCompare : jsstring -> jsstring -> comparison)
    (tz : TimeZone) (st : AppState) (e : Event) : AppState :=
  match e with
  | Rate rendered now rating =>
      match rate localeCompare tz rendered now st rating with
      | Some st' => st'
      | None => st
      end
  | Add uid now term definition tags => addOne uid now st term definition tags
  | Import uid now csv => importCSV uid now st csv
  | Reset confirmed now => resetProgress confirmed now st
  | Delete t => deleteTerm t st
  | SetMode m =>
      {| mode := m; all := all st; showBack := showBack st;
         sessionSize := sessionSize st |}
  | Reveal =>
      {| mode := mode st; all := all st; showBack := true;
         sessionSize := sessionSize st |}
  | SetSessionSize value => setSessionSize value st
  end.

(** The state after a sequence of events. *)
Definition run (localeCompare : jsstring -> jsstring -> comparison)
    (tz : TimeZone) (st : AppState) (es : list Event) : AppState :=
  fold_left (handle localeCompare tz) es st.

(** ** Notions of the specification *)

(** The invariant of the data model on one card. *)
Definition card_inv (t : Term) : Prop :=
  0 <= bucket t <= 5 /\ (bucket t = 0 <-> history t = []).

(** A string is a valid calendar date. *)
Definition is_calendar_date (s : jsstring) : Prop :=
  exists y m d, calendar_date s = Some (y, m, d).

(** Day numbers of 0000-01-01 and 9999-12-31. *)
Definition minDay : Z := -719528.
Definition maxDay : Z := 2932896.

(** The clock shows a date in years 0000 to 9999, with a margin of two
    days before it and of 32 days after it (the longest interval and two
    days). *)
Definition clock_ok (now : Z) : Prop :=
  minDay + 2 <= Day now /\ Day now + 32 <= maxDay.

(** The offsets of a time zone are at most a day. *)
Definition zone_ok (tz : TimeZone) : Prop :=
  forall t, Z.abs (offset_utc tz t) <= msPerDay /\ Z.abs (offset_local tz t) <= msPerDay.

(** A comparator is a total preorder. *)
Definition total_preorder {A} (cmp : A -> A -> comparison) : Prop :=
  (forall a b, cmp b a = CompOpp (cmp a b))
  /\ (forall a b c, cmp a b <> Gt -> cmp b c <> Gt -> cmp a c <> Gt).

(** [a] is not after [b] under a comparator. *)
Definition le_by {A} (cmp : A -> A -> comparison) (a b : A) : Prop :=
  cmp a b <> Gt.

(** [y] ties with [x] under a comparator. *)
Definition tie {A} (cmp : A -> A -> comparison) (x y : A) : bool :=
  match cmp x y with Eq => true | _ => false end.

(** The comparator of [dueToday]. *)
Definition by_due (localeCompare : jsstring -> jsstring -> comparison)
    (a b : Term) : comparison :=
  localeCompare (due a) (due b).

(** A parsed value is a non-empty array of cards. *)
Definition card_array (v : JSON) (ts : list Term) : Prop :=
  as_terms v = Some ts /\ ts <> [].

(** Every code unit of a string is white space. *)
Definition blank (s : jsstring) : Prop := Forall (fun c => is_js_space c = true) s.

(** ** Sample data *)

(** 2024-02-27T10:30:00.123Z. *)
Definition sample_now : Z := 1709029800123.

(** The zone of Berlin in 2024: one hour ahead of UTC, two hours from
    2024-03-31T01:00Z to 2024-10-27T01:00Z. *)
Definition berlin : TimeZone :=
  dst_zone 3600000 7200000 1711846800000 1729990800000.

(** The zone of Moscow: three hours ahead of UTC all year. *)
Definition moscow : TimeZone := fixed_zone 10800000.

(** 2024-03-25T12:00:00.000Z. *)
Definition march_25 : Z := 1711368000000.

Definition sample_entry : HistoryEntry :=
  {| d := str "2024-02-20T08:00:00.000Z"; rating := good |}.

(** A card in bucket [b], due on [due], with the history [h]. *)
Definition card (i : string) (b : Z) (due : string) (h : list HistoryEntry) : Term :=
  {| id := str i; term := str "KPI"; definition := str "Key performance indicator";
     tags := Some [str "metrics"]; source := None;
     bucket := b; due := str due; history := h |}.

(** A card set for the examples: due 2024-02-25 (bucket 2), new, due
    2024-02-20 (bucket 1), due 2024-03-01 (bucket 4), due 2024-02-20
    (bucket 3). *)
Definition sample_set : list Term :=
  [card "a" 2 "2024-02-25" [sample_entry];
   card "b" 0 "2024-02-10" [];
   card "c" 1 "2024-02-20" [sample_entry];
   card "d" 4 "2024-03-01" [sample_entry];
   card "e" 3 "2024-02-20" [sample_entry]].

Definition sample_state (m : Mode) (n : Z) : AppState :=
  {| mode := m; all := sample_set; showBack := false; sessionSize := n |}.

(** Two cards agree on the fields the export holds besides the id. *)
Definition same_fields (a b : Term) : Prop :=
  term a = term b /\ definition a = definition b /\ tags a = tags b
  /\ bucket a = bucket b /\ due a = due b /\ history a = history b.

(** A card as the import makes it: new, due today, never rated. *)
Definition reset_card (now : Z) (t : Term) : Prop :=
  bucket t = 0 /\ due t = todayISO now /\ history t = [].

Definition sample_uid : IdSupply := fun n => str "id" ++ pad 2 (Z.of_nat n).

(** ** The rest of the application *)

(** [progress]: the three counters of the dashboard. *)
Record Progress := mkProgress { total : Z; learned : Z; mastered : Z }.

Definition progress (all : list Term) : Progress :=
  {| total := Z.of_nat (List.length all);
     learned := Z.of_nat (List.length (filter (fun t => 0 <? bucket t) all));
     mastered := Z.of_nat (List.length (filter (fun t => 5 <=? bucket t) all)) |}.

(** [s.includes(q)]: [q] occurs in [s]. *)
Fixpoint starts_with (q s : jsstring) : bool :=
  match q, s with
  | [], _ => true
  | x :: q', y :: s' => (x =? y) && starts_with q' s'
  | _ :: _, [] => false
  end.

Fixpoint includes (s q : jsstring) : bool :=
  starts_with q s
  || match s with
     | [] => false
     | _ :: r => includes r q
     end.

Section Browse.
(** [String.prototype.toLowerCase] follows the case mapping of Unicode; it
    is a parameter. *)
Variable toLowerCase : jsstring -> jsstring.

(** [filtered]: the cards of the browse view for the text of the search
    box. *)
Definition filtered (query : jsstring) (all : list Term) : list Term :=
  let q := trim (toLowerCase query) in
  if negb (nonempty q) then all
  else
    filter (fun t =>
              includes (toLowerCase (term t)) q
              || includes (toLowerCase (definition t)) q
              || existsb (fun x => includes (toLowerCase x) q)
                   (match tags t with Some tg => tg | None => [] end))
           all.
End Browse.

(** The state [App] starts in with the cards [loaded]. *)
Definition initial (loaded : list Term) : AppState :=
  {| mode := review; all := loaded; showBack := false; sessionSize := 20 |}.

(** *** [localStorage] and [save] *)

Definition Storage := jsstring -> option jsstring.

Definition getItem (st : Storage) (k : jsstring) : option jsstring := st k.

Definition setItem (st : Storage) (k v : jsstring) : Storage :=
  fun k' => if str_eqb k' k then Some v else st k'.

Definition STORAGE_KEY : jsstring := str "econ-org-glossary-v1".

(** [JSON.stringify(data)] at the type [Term[]]: no gap, so no white space
    between the tokens. *)
Definition compact_array (items : list jsstring) : jsstring :=
  str "[" ++ join (str ",") items ++ str "]".

Definition compact_object (members : list (string * jsstring)) : jsstring :=
  str "{"
  ++ join (str ",") (map (fun kv => json_string (str (fst kv)) ++ str ":" ++ snd kv) members)
  ++ str "}".

Definition compact_entry (h : HistoryEntry) : jsstring :=
  compact_object
    [("d"%string, json_string (d h));
     ("rating"%string, json_string (rating_string (rating h)))].

Definition compact_term (t : Term) : jsstring :=
  compact_object
    ([("id"%string, json_string (id t));
      ("term"%string, json_string (term t));
      ("definition"%string, json_string (definition t))]
     ++ match tags t with
        | Some tg => [("tags"%string, compact_array (map json_string tg))]
        | None => []
        end
     ++ match source t with
        | Some sr => [("source"%string, json_string sr)]
        | None => []
        end
     ++ [("bucket"%string, json_number (bucket t));
         ("due"%string, json_string (due t));
         ("history"%string, compact_array (map compact_entry (history t)))]).

Definition JSON_stringify_compact (all : list Term) : jsstring :=
  compact_array (map compact_term all).

(** [save] and the read of [load]. *)
Definition save (data : list Term) (st : Storage) : Storage :=
  setItem st STORAGE_KEY (JSON_stringify_compact data).

Definition load_from (uid : IdSupply) (started : Z) (st : Storage) : Loaded :=
  load uid started (getItem st STORAGE_KEY).

(** ** Further notions *)

(** The ratings from the worst to the best. *)
Definition rating_rank (r : Rating) : Z :=
  match r with again => 0 | hard => 1 | good => 2 | easy => 3 end.

(** The fields no handler but the import and the prompt of [addOne]
    writes. *)
Definition same_text (a b : Term) : Prop :=
  id a = id b /\ term a = term b /\ definition a = definition b
  /\ tags a = tags b /\ source a = source b.

(** An event that makes no new card. *)
Definition makes_no_card (e : Event) : bool :=
  match e with
  | Add _ _ _ _ _ | Import _ _ _ => false
  | _ => true
  end.

(** A string has no white space at either end. *)
Definition trimmed (s : jsstring) : Prop := trim s = s.

(** Code units, strings of code units, and cards whose strings are such
    and whose bucket is a safe integer. *)
Definition code_unit (c : Z) : Prop := 0 <= c < 65536.
Definition wf_string (s : jsstring) : Prop := Forall code_unit s.

Definition wf_entry (h : HistoryEntry) : Prop := wf_string (d h).

Definition wf_term (t : Term) : Prop :=
  wf_string (id t) /\ wf_string (term t) /\ wf_string (definition t)
  /\ (forall tg, tags t = Some tg -> Forall wf_string tg)
  /\ (forall sr, source t = Some sr -> wf_string sr)
  /\ Z.abs (bucket t) < 2 ^ 53
  /\ wf_string (due t) /\ Forall wf_entry (history t).

(** The value [JSON.parse] gives for the text of a card. *)
Definition entry_json (h : HistoryEntry) : JSON :=
  JObject [(str "d", JString (d h)); (str "rating", JString (rating_string (rating h)))].

Definition term_json (t : Term) : JSON :=
  JObject
    ([(str "id", JString (id t)); (str "term", JString (term t));
      (str "definition", JString (definition t))]
     ++ match tags t with
        | Some tg => [(str "tags", JArray (map JString tg))]
        | None => []
        end
     ++ match source t with
        | Some sr => [(str "source", JString sr)]
        | None => []
        end
     ++ [(str "bucket", JNumber (bucket t) 0); (str "due", JString (due t));
         (str "history", JArray (map entry_json (history t)))]).

(** Texts the import reads: a line holds no line feed and no carriage
    return, a field no semicolon and no tab, a tag no comma either. *)
Definition plain_line (s : jsstring) : Prop := Forall (fun c => c <> 10 /\ c <> 13) s.
Definition plain_field (s : jsstring) : Prop := Forall (fun c => is_field_sep c = false) s.
Definition plain_tag (s : jsstring) : Prop :=
  Forall (fun c => is_field_sep c = false /\ is_comma c = false) s.

(** [q] occurs in [s]. *)
Definition substring (q s : jsstring) : Prop := exists a b, s = a ++ q ++ b.

(** *** The text of a JSON value

    [JSON.stringify(v)] and [JSON.stringify(v, null, 2)] ([pretty]) on a
    value made of strings, arrays, objects and integers that are written
    without an exponent. *)
Definition break (pretty : bool) (indent : jsstring) : jsstring :=
  if pretty then newline ++ indent else [].

Definition colon (pretty : bool) : jsstring := if pretty then str ": " else str ":".

Definition brackets (pretty : bool) (indent : jsstring) (opening closing : Z)
    (items : list jsstring) : jsstring :=
  match items with
  | [] => [opening; closing]
  | _ => opening :: break pretty (indent ++ gap)
         ++ join (str "," ++ break pretty (indent ++ gap)) items
         ++ break pretty indent ++ [closing]
  end.

Fixpoint stringify (pretty : bool) (indent : jsstring) (v : JSON) : jsstring :=
  match v with
  | JNull => str "null"
  | JBool b => if b then str "true" else str "false"
  | JNumber m _ => json_number m
  | JString s => json_string s
  | JArray items =>
      brackets pretty indent 91 93 (map (stringify pretty (indent ++ gap)) items)
  | JObject members =>
      brackets pretty indent 123 125
        (map (fun kv => json_string (fst kv) ++ colon pretty
                        ++ stringify pretty (indent ++ gap) (snd kv))
             members)
  end.

(** The values [stringify] is defined for. *)
Fixpoint plain_json (v : JSON) : Prop :=
  match v with
  | JNull | JBool _ => False
  | JNumber _ e => e = 0
  | JString s => wf_string s
  | JArray items =>
      (fix each (l : list JSON) : Prop :=
         match l with [] => True | x :: r => plain_json x /\ each r end) items
  | JObject members =>
      (fix each (l : list (jsstring * JSON)) : Prop :=
         match l with
         | [] => True
         | kv :: r => wf_string (fst kv) /\ plain_json (snd kv) /\ each r
         end) members
  end.

(** A code unit that can follow a value: comma, closing bracket or brace,
    line feed. *)
Definition ends_token (c : Z) : bool :=
  (c =? 44) || (c =? 93) || (c =? 125) || (c =? 10).

Definition ends_value (rest : jsstring) : Prop :=
  match rest with c :: _ => ends_token c = true | [] => False end.

Definition spaces (s : jsstring) : Prop := Forall (fun c => c = 32) s.

(** The digits of a decimal, the first one first. *)
Fixpoint uint_digits (u : Decimal.uint) : list Z :=
  match u with
  | Decimal.Nil => []
  | Decimal.D0 l => 0 :: uint_digits l
  | Decimal.D1 l => 1 :: uint_digits l
  | Decimal.D2 l => 2 :: uint_digits l
  | Decimal.D3 l => 3 :: uint_digits l
  | Decimal.D4 l => 4 :: uint_digits l
  | Decimal.D5 l => 5 :: uint_digits l
  | Decimal.D6 l => 6 :: uint_digits l
  | Decimal.D7 l => 7 :: uint_digits l
  | Decimal.D8 l => 8 :: uint_digits l
  | Decimal.D9 l => 9 :: uint_digits l
  end.

(** The parser reads the text of [v] as [v], wherever a value is
    expected. *)
Definition parses (v : JSON) : Prop :=
  forall pretty indent p p' rest,
    spaces indent -> plain_json v ->
    expects_value (expect p) = true -> complete v p = Some p' ->
    (forall m e, v = JNumber m e -> ends_value rest) ->
    parse_run (stringify pretty indent v ++ rest) (LIdle, p) = parse_run rest (LIdle, p').

Definition wf_stringb (s : jsstring) : bool :=
  forallb (fun c => (0 <=? c) && (c <? 65536)) s.

(** A card with a quotation mark, a backslash, a line feed, a surrogate
    pair, a lone surrogate, no tags, a source and a negative bucket. *)
Definition odd_card : Term :=
  {| id := str "q"; term := [34; 92; 10; 55357; 56832; 56832; 1050];
     definition := []; tags := None; source := Some (str "a/b");
     bucket := -12; due := str "2024-02-25";
     history := [ {| d := [9]; rating := again |} ] |}.

(** * Properties *)

(** ** The calendar *)

Section Calendar.
Variable doe : Z.
Hypothesis doe_range : 0 <= doe < daysPerEra.

Lemma yearOfEra_range : 0 <= yearOfEra doe <= 399.
Proof.
  unfold daysPerEra in doe_range. unfold yearOfEra.
  Z.div_mod_to_equations. lia.
Qed.

Lemma dayOfYear_range : 0 <= dayOfYear doe <= 365.
Proof.
  unfold daysPerEra in doe_range. unfold dayOfYear, yearOfEra. cbv zeta.
  Z.div_mod_to_equations. lia.
Qed.

(** Day 365 of a year that starts in March is 29 February. *)
Lemma dayOfYear_leap :
  dayOfYear doe = 365 -> isLeap (yearOfEra doe + 1) = true.
Proof.
  unfold daysPerEra in doe_range. unfold dayOfYear, yearOfEra, isLeap. cbv zeta.
  intros H.
  rewrite orb_true_iff, andb_true_iff, negb_true_iff, !Z.eqb_eq, Z.eqb_neq.
  Z.div_mod_to_equations. lia.
Qed.

Lemma monthIndex_range : 0 <= monthIndex doe <= 11.
Proof.
  pose proof dayOfYear_range. unfold monthIndex.
  Z.div_mod_to_equations. lia.
Qed.

Lemma monthOfEraDay_range : 1 <= monthOfEraDay doe <= 12.
Proof.
  pose proof monthIndex_range. unfold monthOfEraDay. cbv zeta.
  destruct (Z.ltb_spec (monthIndex doe) 10); lia.
Qed.

(** The month index back from the month. *)
Lemma monthIndex_of_month :
  (if monthOfEraDay doe <=? 2 then monthOfEraDay doe + 9
   else monthOfEraDay doe - 3) = monthIndex doe.
Proof.
  pose proof monthIndex_range. unfold monthOfEraDay. cbv zeta.
  destruct (Z.ltb_spec (monthIndex doe) 10);
    match goal with |- context [?a <=? 2] => destruct (Z.leb_spec a 2) end; lia.
Qed.

Lemma yearShift_eq :
  yearShift doe = if monthOfEraDay doe <=? 2 then yearOfEra doe + 1 else yearOfEra doe.
Proof. unfold yearShift. destruct (monthOfEraDay doe <=? 2); lia. Qed.

Lemma dateOfEraDay_range :
  1 <= dateOfEraDay doe <= DaysInMonth (yearShift doe) (monthOfEraDay doe).
Proof.
  pose proof dayOfYear_range as Hd. pose proof dayOfYear_leap as Hl.
  pose proof monthIndex_range as Hm.
  rewrite yearShift_eq.
  unfold DaysInMonth, dateOfEraDay, monthOfEraDay. cbv zeta.
  unfold monthIndex in *.
  set (doy := dayOfYear doe) in *. clearbody doy.
  set (mp := (5 * doy + 2) / 153) in *.
  assert (Hmp : 153 * mp <= 5 * doy + 2 < 153 * mp + 153)
    by (subst mp; Z.div_mod_to_equations; lia).
  clearbody mp.
  assert (Hq : 5 * ((153 * mp + 2) / 5) <= 153 * mp + 2 < 5 * ((153 * mp + 2) / 5) + 5)
    by (Z.div_mod_to_equations; lia).
  set (q := (153 * mp + 2) / 5) in *. clearbody q.
  repeat match goal with
         | |- context [Z.ltb ?a ?b] => destruct (Z.ltb_spec a b)
         | |- context [Z.leb ?a ?b] => destruct (Z.leb_spec a b)
         | |- context [Z.eqb ?a ?b] => destruct (Z.eqb_spec a b)
         end; cbn [orb]; try lia.
  destruct (isLeap (yearOfEra doe + 1)); [lia|].
  assert (doy <> 365) by (intros ->; specialize (Hl eq_refl); congruence).
  lia.
Qed.

Lemma eraDay_inverse :
  yearOfEra doe * 365 + yearOfEra doe / 4 - yearOfEra doe / 100
  + ((153 * monthIndex doe + 2) / 5 + dateOfEraDay doe - 1) = doe.
Proof. unfold dateOfEraDay, dayOfYear. cbv zeta. lia. Qed.

Lemma yearShift_range :
  0 <= yearShift doe <= 400
  /\ (doe <= 146036 -> yearShift doe <= 399)
  /\ (146037 <= doe -> yearShift doe = 400).
Proof.
  pose proof monthIndex_range as Hm. rewrite yearShift_eq.
  unfold daysPerEra in doe_range.
  unfold monthOfEraDay. cbv zeta. unfold monthIndex in *. unfold dayOfYear in *.
  unfold yearOfEra in *. cbv zeta in *.
  destruct (Z.ltb_spec ((5 * (doe - (365 * ((doe - doe / 1460 + doe / 36524 - doe / 146096) / 365)
     + (doe - doe / 1460 + doe / 36524 - doe / 146096) / 365 / 4
     - (doe - doe / 1460 + doe / 36524 - doe / 146096) / 365 / 100)) + 2) / 153) 10);
    match goal with |- context [?a <=? 2] => destruct (Z.leb_spec a 2) end;
    Z.div_mod_to_equations; lia.
Qed.
End Calendar.

Lemma eraDay_range (day : Z) : 0 <= (day + epochShift) mod daysPerEra < daysPerEra.
Proof. apply Z.mod_pos_bound. reflexivity. Qed.

Lemma MakeDay_inverse (day : Z) :
  MakeDay (YearFromDay day) (MonthFromDay day) (DateFromDay day) = day.
Proof.
  pose proof (eraDay_range day) as Hr.
  unfold MakeDay, YearFromDay, MonthFromDay, DateFromDay. cbv zeta.
  set (z := day + epochShift) in *.
  set (doe := z mod daysPerEra) in *.
  pose proof (yearOfEra_range doe Hr) as Hy.
  rewrite (monthIndex_of_month doe Hr).
  assert (E : (if monthOfEraDay doe <=? 2
               then z / daysPerEra * 400 + yearShift doe - 1
               else z / daysPerEra * 400 + yearShift doe)
              = yearOfEra doe + (z / daysPerEra) * 400).
  { rewrite (yearShift_eq doe). destruct (monthOfEraDay doe <=? 2); lia. }
  rewrite E.
  rewrite Z.div_add, Z.mod_add by lia.
  rewrite Z.div_small, Z.mod_small by lia.
  rewrite (eraDay_inverse doe).
  pose proof (Z.div_mod z daysPerEra ltac:(unfold daysPerEra; lia)).
  subst doe. unfold z in *. lia.
Qed.

Lemma MakeDay_add (y m dt k : Z) : MakeDay y m (dt + k) = MakeDay y m dt + k.
Proof. unfold MakeDay. cbv zeta. lia. Qed.

Lemma YearFromDay_range (day : Z) :
  minDay <= day <= maxDay -> 0 <= YearFromDay day <= 9999.
Proof.
  intros H. pose proof (eraDay_range day) as Hr.
  pose proof (yearShift_range _ Hr) as (H1 & H2 & H3).
  unfold YearFromDay. cbv zeta.
  set (z := day + epochShift) in *.
  pose proof (Z.div_mod z daysPerEra ltac:(unfold daysPerEra; lia)) as Hz.
  set (doe := z mod daysPerEra) in *. set (era := z / daysPerEra) in *.
  unfold minDay, maxDay, epochShift, daysPerEra in *.
  assert (z = day + 719468) by reflexivity.
  clearbody z doe era. lia.
Qed.

Lemma isLeap_era (era y : Z) : isLeap (era * 400 + y) = isLeap y.
Proof.
  unfold isLeap.
  replace (era * 400 + y) with (y + (era * 100) * 4) at 1 by lia.
  replace (era * 400 + y) with (y + (era * 4) * 100) at 1 by lia.
  replace (era * 400 + y) with (y + era * 400) by lia.
  rewrite !Z.mod_add by lia. reflexivity.
Qed.

Lemma MonthFromDay_range (day : Z) : 1 <= MonthFromDay day <= 12.
Proof. apply monthOfEraDay_range, eraDay_range. Qed.

Lemma DateFromDay_range (day : Z) :
  1 <= DateFromDay day <= DaysInMonth (YearFromDay day) (MonthFromDay day).
Proof.
  pose proof (dateOfEraDay_range _ (eraDay_range day)) as H.
  unfold DateFromDay, YearFromDay, MonthFromDay, DaysInMonth in *. cbv zeta.
  rewrite isLeap_era. exact H.
Qed.

Lemma DaysInMonth_le (y m : Z) : DaysInMonth y m <= 31.
Proof.
  unfold DaysInMonth.
  destruct (m =? 2); [destruct (isLeap y); lia|].
  destruct ((m =? 4) || (m =? 6) || (m =? 9) || (m =? 11)); lia.
Qed.

(** ** Dates as strings *)

Lemma digit_of (a : Z) : 0 <= a <= 9 -> digit (48 + a) = Some a.
Proof.
  intros H. unfold digit.
  destruct (Z.leb_spec 48 (48 + a)); [|lia].
  destruct (Z.leb_spec (48 + a) 57); [|lia].
  cbn [andb]. f_equal. lia.
Qed.

Lemma number_of_pad2 (n : Z) :
  0 <= n <= 99 -> number_of_digits 0 (pad 2 n) = Some n.
Proof.
  intros H. cbn [pad app number_of_digits].
  rewrite !digit_of by (Z.div_mod_to_equations; lia).
  f_equal. Z.div_mod_to_equations. lia.
Qed.

Lemma number_of_pad4 (n : Z) :
  0 <= n <= 9999 -> number_of_digits 0 (pad 4 n) = Some n.
Proof.
  intros H. cbn [pad app number_of_digits].
  rewrite !digit_of by (Z.div_mod_to_equations; lia).
  f_equal. Z.div_mod_to_equations. lia.
Qed.

Lemma pad_length (k : nat) (n : Z) : List.length (pad k n) = k.
Proof.
  revert n; induction k as [|k IH]; intros n; [reflexivity|].
  cbn [pad]. rewrite length_app, IH. cbn. lia.
Qed.

Lemma isoDate_units (day : Z) :
  minDay <= day <= maxDay ->
  isoDate day = pad 4 (YearFromDay day) ++ [45] ++ pad 2 (MonthFromDay day)
                ++ [45] ++ pad 2 (DateFromDay day).
Proof.
  intros H. apply YearFromDay_range in H. unfold isoDate, yearString.
  destruct (Z.leb_spec 0 (YearFromDay day)); [|lia].
  destruct (Z.leb_spec (YearFromDay day) 9999); [|lia].
  reflexivity.
Qed.

Lemma isoDate_length (day : Z) :
  minDay <= day <= maxDay -> List.length (isoDate day) = 10%nat.
Proof.
  intros H. rewrite (isoDate_units day H).
  rewrite !length_app, !pad_length. reflexivity.
Qed.

Lemma calendar_date_units (y m dt : Z) :
  0 <= y <= 9999 -> 1 <= m <= 12 -> 1 <= dt <= DaysInMonth y m ->
  calendar_date (pad 4 y ++ [45] ++ pad 2 m ++ [45] ++ pad 2 dt) = Some (y, m, dt).
Proof.
  intros Hy Hm Hd. pose proof (DaysInMonth_le y m).
  pose proof (number_of_pad4 y Hy) as Ey.
  pose proof (number_of_pad2 m ltac:(lia)) as Em.
  pose proof (number_of_pad2 dt ltac:(lia)) as Ed.
  cbn [pad app] in *. cbv beta iota delta [calendar_date].
  rewrite Ey, Em, Ed.
  destruct (Z.leb_spec 1 m); [|lia]. destruct (Z.leb_spec m 12); [|lia].
  destruct (Z.leb_spec 1 dt); [|lia].
  destruct (Z.leb_spec dt (DaysInMonth y m)); [|lia].
  reflexivity.
Qed.

Lemma calendar_date_isoDate (day : Z) :
  minDay <= day <= maxDay ->
  calendar_date (isoDate day)
  = Some (YearFromDay day, MonthFromDay day, DateFromDay day).
Proof.
  intros H. rewrite (isoDate_units day H).
  apply calendar_date_units.
  - apply YearFromDay_range, H.
  - apply MonthFromDay_range.
  - apply DateFromDay_range.
Qed.

Lemma TimeClip_range (t : Z) :
  minDay <= Day t <= maxDay -> TimeClip t = Some t.
Proof.
  intros H. unfold TimeClip, Day in *.
  destruct (Z.leb_spec (Z.abs t) maxTime); [reflexivity|].
  unfold minDay, maxDay, msPerDay, maxTime in *. Z.div_mod_to_equations. lia.
Qed.

Lemma Day_of_days (day ms : Z) :
  0 <= ms < msPerDay -> Day (day * msPerDay + ms) = day.
Proof.
  intros H. unfold Day.
  rewrite Z.add_comm, Z.div_add by (unfold msPerDay; lia).
  rewrite Z.div_small by exact H. reflexivity.
Qed.

Lemma Day_midnight (day : Z) : Day (day * msPerDay) = day.
Proof.
  pose proof (Day_of_days day 0 ltac:(unfold msPerDay; lia)) as E.
  rewrite Z.add_0_r in E. exact E.
Qed.

Lemma Date_parse_isoDate (day : Z) :
  minDay <= day <= maxDay -> Date_parse (isoDate day) = Some (day * msPerDay).
Proof.
  intros H. unfold Date_parse. rewrite (calendar_date_isoDate day H).
  rewrite MakeDay_inverse. apply TimeClip_range. rewrite Day_midnight. exact H.
Qed.

Lemma firstn_prefix {A} (l r : list A) (n : nat) :
  List.length l = n -> firstn n (l ++ r) = l.
Proof.
  intros <-. induction l as [|x l IH]; cbn; [destruct r; reflexivity|].
  f_equal. exact IH.
Qed.

Lemma firstn10_ISOString (t : Z) :
  minDay <= Day t <= maxDay -> firstn 10 (ISOString t) = isoDate (Day t).
Proof.
  intros H. unfold ISOString. cbv zeta.
  apply firstn_prefix, isoDate_length, H.
Qed.

Lemma todayISO_isoDate (now : Z) :
  minDay <= Day now <= maxDay -> todayISO now = isoDate (Day now).
Proof. apply firstn10_ISOString. Qed.

(** Setting the day of the month [k] days on moves a local time by [k]
    days. *)
Lemma local_days (t k : Z) :
  MakeDay (YearFromDay (Day t)) (MonthFromDay (Day t)) (DateFromDay (Day t) + k) * msPerDay
  + TimeWithinDay t
  = t + k * msPerDay.
Proof.
  rewrite MakeDay_add, MakeDay_inverse. unfold Day, TimeWithinDay, msPerDay.
  Z.div_mod_to_equations. lia.
Qed.

(** [addDays] on a date string: midnight UTC of the date is read as a
    local time, moved by [k] days in local time, and read back in UTC. *)
Lemma addDays_isoDate (tz : TimeZone) (day k : Z) :
  minDay <= day <= maxDay ->
  addDays tz (isoDate day) (Some k)
  = slice10 (toISOString
      (TimeClip (UTC tz (LocalTime tz (day * msPerDay) + k * msPerDay)))).
Proof.
  intros H. unfold addDays. rewrite (Date_parse_isoDate day H).
  cbn [getDate option_map num_add setDate]. cbv zeta.
  rewrite local_days. reflexivity.
Qed.

(** In a zone with one offset the date is [k] days later. *)
Lemma addDays_fixed (c day k : Z) :
  minDay <= day <= maxDay -> minDay <= day + k <= maxDay ->
  addDays (fixed_zone c) (isoDate day) (Some k) = Some (isoDate (day + k)).
Proof.
  intros H Hk. rewrite (addDays_isoDate _ day k H).
  unfold UTC, LocalTime. cbn [offset_utc offset_local fixed_zone].
  replace (day * msPerDay + c + k * msPerDay - c) with ((day + k) * msPerDay) by lia.
  rewrite TimeClip_range by (rewrite Day_midnight; exact Hk).
  cbn [toISOString slice10 option_map]. f_equal.
  rewrite firstn10_ISOString; rewrite Day_midnight; [reflexivity | exact Hk].
Qed.

(** In every zone it is a date at most two days from that. *)
Lemma addDays_zone (tz : TimeZone) (day k : Z) :
  zone_ok tz -> minDay <= day <= maxDay ->
  minDay + 2 <= day + k -> day + k + 2 <= maxDay ->
  exists day', addDays tz (isoDate day) (Some k) = Some (isoDate day')
            /\ day + k - 2 <= day' <= day + k + 2.
Proof.
  intros Hz H Hlo Hhi. rewrite (addDays_isoDate tz day k H).
  unfold UTC, LocalTime.
  set (o1 := offset_utc tz (day * msPerDay)).
  set (o2 := offset_local tz (day * msPerDay + o1 + k * msPerDay)).
  assert (H1 : Z.abs o1 <= msPerDay) by apply Hz.
  assert (H2 : Z.abs o2 <= msPerDay) by apply Hz.
  set (u := day * msPerDay + o1 + k * msPerDay - o2).
  assert (Hu : day + k - 2 <= Day u <= day + k + 2).
  { unfold Day. subst u. clearbody o1 o2. unfold msPerDay in *.
    Z.div_mod_to_equations. lia. }
  exists (Day u). split; [|exact Hu].
  assert (Hr : minDay <= Day u <= maxDay) by lia.
  rewrite (TimeClip_range u Hr). cbn [toISOString slice10 option_map].
  rewrite (firstn10_ISOString u Hr). reflexivity.
Qed.

(** With [undefined] for the number of days the date is invalid and
    [toISOString] raises. *)
Lemma addDays_undefined (tz : TimeZone) (iso : jsstring) : addDays tz iso None = None.
Proof.
  unfold addDays. destruct (Date_parse iso); reflexivity.
Qed.

Lemma clock_ok_range (now k : Z) :
  clock_ok now -> 0 <= k <= 30 ->
  minDay <= Day now <= maxDay /\ minDay + 2 <= Day now + k /\ Day now + k + 2 <= maxDay.
Proof. unfold clock_ok, minDay, maxDay. lia. Qed.

Lemma addDays_today_fixed (c now k : Z) :
  clock_ok now -> 0 <= k <= 30 ->
  addDays (fixed_zone c) (todayISO now) (Some k) = Some (isoDate (Day now + k)).
Proof.
  intros Hc Hk. destruct (clock_ok_range now k Hc Hk) as (H & Hlo & Hhi).
  rewrite (todayISO_isoDate now H). apply addDays_fixed; [exact H | lia].
Qed.

Lemma addDays_today (tz : TimeZone) (now k : Z) :
  zone_ok tz -> clock_ok now -> 0 <= k <= 30 ->
  exists day', addDays tz (todayISO now) (Some k) = Some (isoDate day')
            /\ Day now + k - 2 <= day' <= Day now + k + 2.
Proof.
  intros Hz Hc Hk. destruct (clock_ok_range now k Hc Hk) as (H & Hlo & Hhi).
  rewrite (todayISO_isoDate now H). apply addDays_zone; assumption.
Qed.

Lemma zone_ok_fixed (c : Z) : Z.abs c <= msPerDay -> zone_ok (fixed_zone c).
Proof. intros H t. cbn. auto. Qed.

Lemma zone_ok_moscow : zone_ok moscow.
Proof. apply zone_ok_fixed. unfold msPerDay. lia. Qed.

Lemma zone_ok_berlin : zone_ok berlin.
Proof.
  intros t. unfold berlin, dst_zone, msPerDay. cbn [offset_utc offset_local].
  split; match goal with |- context [if ?b then _ else _] => destruct b end; lia.
Qed.

(** ** The order of dates *)

Lemma MakeDay_next_month (y m : Z) :
  1 <= m <= 11 -> MakeDay y (m + 1) 1 = MakeDay y m 1 + DaysInMonth y m.
Proof.
  intros H.
  assert (C : m = 1 \/ m = 2 \/ m = 3 \/ m = 4 \/ m = 5 \/ m = 6 \/ m = 7 \/ m = 8
              \/ m = 9 \/ m = 10 \/ m = 11) by lia.
  unfold MakeDay, DaysInMonth, isLeap, daysPerEra, epochShift.
  repeat (destruct C as [-> | C]); try subst m;
    cbn [Z.add Z.leb Z.eqb Z.compare Pos.compare Pos.compare_cont Pos.eqb Pos.add Pos.succ orb];
    cbv zeta;
    repeat match goal with |- context [Z.eqb ?a ?b] => destruct (Z.eqb_spec a b) end;
    cbn [andb orb negb]; Z.div_mod_to_equations; lia.
Qed.

Lemma MakeDay_next_year (y : Z) : MakeDay (y + 1) 1 1 = MakeDay y 12 1 + 31.
Proof.
  unfold MakeDay, daysPerEra, epochShift.
  cbn [Z.leb Z.compare Pos.compare Pos.compare_cont]. cbv zeta.
  replace (y + 1 - 1) with y by lia.
  Z.div_mod_to_equations; lia.
Qed.

Lemma DaysInMonth_ge (y m : Z) : 28 <= DaysInMonth y m.
Proof.
  unfold DaysInMonth.
  destruct (m =? 2); [destruct (isLeap y); lia|].
  destruct ((m =? 4) || (m =? 6) || (m =? 9) || (m =? 11)); lia.
Qed.

(** The first day of the month after [y]-[m]. *)
Lemma MakeDay_following (y m y2 m2 : Z) :
  1 <= m <= 12 -> 1 <= m2 <= 12 -> 12 * y2 + m2 = 12 * y + m + 1 ->
  MakeDay y2 m2 1 = MakeDay y m 1 + DaysInMonth y m.
Proof.
  intros Hm Hm2 E. destruct (Z.eq_dec m 12) as [-> | Hne].
  - assert (y2 = y + 1) by lia. assert (m2 = 1) by lia. subst.
    rewrite MakeDay_next_year. reflexivity.
  - assert (y2 = y) by lia. assert (m2 = m + 1) by lia. subst.
    apply MakeDay_next_month. lia.
Qed.

Lemma MakeDay_months (n : nat) (y m y2 m2 : Z) :
  1 <= m <= 12 -> 1 <= m2 <= 12 -> 12 * y2 + m2 = 12 * y + m + Z.of_nat n ->
  MakeDay y m 1 <= MakeDay y2 m2 1.
Proof.
  revert y2 m2. induction n as [|n IH]; intros y2 m2 Hm Hm2 E.
  - assert (y2 = y) by lia. assert (m2 = m) by lia. subst. lia.
  - set (yp := if m2 =? 1 then y2 - 1 else y2).
    set (mp := if m2 =? 1 then 12 else m2 - 1).
    assert (Hp : 1 <= mp <= 12 /\ 12 * y2 + m2 = 12 * yp + mp + 1)
      by (subst yp mp; destruct (Z.eqb_spec m2 1); lia).
    destruct Hp as [Hmp Ep].
    pose proof (IH yp mp Hm Hmp ltac:(lia)) as H.
    rewrite (MakeDay_following yp mp y2 m2 Hmp Hm2 Ep).
    pose proof (DaysInMonth_ge yp mp). lia.
Qed.

(** [MakeDay] is increasing on calendar dates in their order. *)
Lemma MakeDay_increasing (y1 m1 d1 y2 m2 d2 : Z) :
  1 <= m1 <= 12 -> 1 <= d1 <= DaysInMonth y1 m1 ->
  1 <= m2 <= 12 -> 1 <= d2 ->
  y1 < y2 \/ (y1 = y2 /\ (m1 < m2 \/ (m1 = m2 /\ d1 < d2))) ->
  MakeDay y1 m1 d1 < MakeDay y2 m2 d2.
Proof.
  intros Hm1 Hd1 Hm2 Hd2 H.
  pose proof (MakeDay_add y1 m1 1 (d1 - 1)) as E1.
  pose proof (MakeDay_add y2 m2 1 (d2 - 1)) as E2.
  replace (1 + (d1 - 1)) with d1 in E1 by lia.
  replace (1 + (d2 - 1)) with d2 in E2 by lia.
  rewrite E1, E2.
  destruct (Z.eq_dec (12 * y1 + m1) (12 * y2 + m2)) as [E | Hne].
  - assert (y1 = y2) by lia. assert (m1 = m2) by lia. subst. lia.
  - set (yn := if m1 =? 12 then y1 + 1 else y1).
    set (mn := if m1 =? 12 then 1 else m1 + 1).
    assert (Hn : 1 <= mn <= 12 /\ 12 * yn + mn = 12 * y1 + m1 + 1)
      by (subst yn mn; destruct (Z.eqb_spec m1 12); lia).
    destruct Hn as [Hmn En].
    pose proof (MakeDay_following y1 m1 yn mn Hm1 Hmn En) as F.
    pose proof (MakeDay_months (Z.to_nat (12 * y2 + m2 - (12 * yn + mn))) yn mn y2 m2
                  Hmn Hm2 ltac:(lia)) as G.
    lia.
Qed.

Lemma str_compare_app (l1 l2 r1 r2 : jsstring) :
  List.length l1 = List.length l2 ->
  str_compare (l1 ++ r1) (l2 ++ r2)
  = match str_compare l1 l2 with Eq => str_compare r1 r2 | c => c end.
Proof.
  revert l2. induction l1 as [|x l1 IH]; intros [|y l2] H; try discriminate H.
  - reflexivity.
  - cbn. destruct (x ?= y); try reflexivity. apply IH. cbn in H. lia.
Qed.

Lemma str_compare_pad (k : nat) (a b : Z) :
  0 <= a < 10 ^ Z.of_nat k -> 0 <= b < 10 ^ Z.of_nat k ->
  str_compare (pad k a) (pad k b) = (a ?= b).
Proof.
  revert a b. induction k as [|k IH]; intros a b Ha Hb.
  - cbn in *. assert (a = 0) by lia. assert (b = 0) by lia. subst. reflexivity.
  - rewrite Nat2Z.inj_succ, Z.pow_succ_r in Ha, Hb by lia.
    cbn [pad]. rewrite str_compare_app by (rewrite !pad_length; reflexivity).
    rewrite IH by (Z.div_mod_to_equations; lia).
    cbn [str_compare].
    destruct (Z.compare_spec (a / 10) (b / 10)) as [E | E | E];
      [| symmetry; apply Z.compare_lt_iff; Z.div_mod_to_equations; lia
       | symmetry; apply Z.compare_gt_iff; Z.div_mod_to_equations; lia].
    rewrite Z.add_compare_mono_l.
    destruct (Z.compare_spec (a mod 10) (b mod 10)) as [F | F | F]; symmetry.
    + apply Z.compare_eq_iff. Z.div_mod_to_equations; lia.
    + apply Z.compare_lt_iff. Z.div_mod_to_equations; lia.
    + apply Z.compare_gt_iff. Z.div_mod_to_equations; lia.
Qed.

(** On dates with four-digit years the order of the strings is the order
    of the days. *)
Lemma str_compare_isoDate (a b : Z) :
  minDay <= a <= maxDay -> minDay <= b <= maxDay ->
  str_compare (isoDate a) (isoDate b) = (a ?= b).
Proof.
  intros Ha Hb.
  rewrite (isoDate_units a Ha), (isoDate_units b Hb).
  pose proof (YearFromDay_range a Ha). pose proof (YearFromDay_range b Hb).
  pose proof (MonthFromDay_range a). pose proof (MonthFromDay_range b).
  pose proof (DateFromDay_range a) as Hda. pose proof (DateFromDay_range b) as Hdb.
  pose proof (DaysInMonth_le (YearFromDay a) (MonthFromDay a)).
  pose proof (DaysInMonth_le (YearFromDay b) (MonthFromDay b)).
  pose proof (MakeDay_inverse a) as Ea. pose proof (MakeDay_inverse b) as Eb.
  set (ya := YearFromDay a) in *. set (ma := MonthFromDay a) in *.
  set (da := DateFromDay a) in *. set (yb := YearFromDay b) in *.
  set (mb := MonthFromDay b) in *. set (db := DateFromDay b) in *.
  clearbody ya ma da yb mb db.
  rewrite str_compare_app by (rewrite !pad_length; reflexivity).
  rewrite (str_compare_pad 4) by (cbn; lia).
  assert (L : forall y1 m1 d1 y2 m2 d2 x1 x2,
             MakeDay y1 m1 d1 = x1 -> MakeDay y2 m2 d2 = x2 ->
             1 <= m1 <= 12 -> 1 <= d1 <= DaysInMonth y1 m1 ->
             1 <= m2 <= 12 -> 1 <= d2 ->
             y1 < y2 \/ (y1 = y2 /\ (m1 < m2 \/ (m1 = m2 /\ d1 < d2))) -> x1 < x2).
  { intros. subst. apply MakeDay_increasing; assumption. }
  destruct (Z.compare_spec ya yb) as [Ey | Ey | Ey].
  - cbn [app str_compare]. rewrite Z.compare_refl.
    rewrite str_compare_app by (rewrite !pad_length; reflexivity).
    rewrite (str_compare_pad 2) by (cbn; lia).
    destruct (Z.compare_spec ma mb) as [Em | Em | Em].
    + cbn [app str_compare]. rewrite Z.compare_refl.
      rewrite (str_compare_pad 2) by (cbn; lia).
      destruct (Z.compare_spec da db) as [Ed | Ed | Ed]; symmetry.
      * apply Z.compare_eq_iff. congruence.
      * apply Z.compare_lt_iff. apply (L ya ma da yb mb db); auto; lia.
      * apply Z.compare_gt_iff. apply (L yb mb db ya ma da); auto; lia.
    + symmetry. apply Z.compare_lt_iff. apply (L ya ma da yb mb db); auto; lia.
    + symmetry. apply Z.compare_gt_iff. apply (L yb mb db ya ma da); auto; lia.
  - symmetry. apply Z.compare_lt_iff. apply (L ya ma da yb mb db); auto; lia.
  - symmetry. apply Z.compare_gt_iff. apply (L yb mb db ya ma da); auto; lia.
Qed.

Lemma str_leb_today (dd now : Z) :
  minDay <= dd <= maxDay -> clock_ok now ->
  str_leb (isoDate dd) (todayISO now) = (dd <=? Day now).
Proof.
  intros Hd [H1 H2].
  assert (Hn : minDay <= Day now <= maxDay) by (unfold minDay, maxDay in *; lia).
  rewrite (todayISO_isoDate now Hn). unfold str_leb.
  rewrite (str_compare_isoDate dd (Day now) Hd Hn).
  unfold Z.leb. reflexivity.
Qed.

(** ** The scheduler *)

Lemma clamp_min_max (x lo hi : Z) : lo <= hi -> Z.min hi (Z.max lo x) = clamp x lo hi.
Proof.
  intros H. unfold clamp.
  destruct (Z.ltb_spec x lo); [lia|]. destruct (Z.ltb_spec hi x); lia.
Qed.

(** [scheduleNext] in one step: the bucket of the table, then the date. *)
Lemma scheduleNext_eq (tz : TimeZone) (now : Z) (t : Term) (r : Rating) :
  scheduleNext tz now t r =
  match addDays tz (todayISO now)
          (index LEITNER_INTERVALS (spec_bucket (bucket t) r)) with
  | None => None
  | Some due' =>
      Some {| id := id t; term := term t; definition := definition t;
              tags := tags t; source := source t;
              bucket := spec_bucket (bucket t) r; due := due';
              history := history t ++ [ {| d := ISOString now; rating := r |} ] |}
  end.
Proof.
  unfold scheduleNext, spec_bucket.
  destruct r; cbn [Rating_eqb]; rewrite <- ?clamp_min_max by lia; reflexivity.
Qed.

Lemma index_intervals (b : Z) :
  0 <= b <= 5 -> exists k, index LEITNER_INTERVALS b = Some k /\ 0 <= k <= 30.
Proof.
  intros H.
  assert (C : b = 0 \/ b = 1 \/ b = 2 \/ b = 3 \/ b = 4 \/ b = 5) by lia.
  repeat (destruct C as [-> | C]); try subst b; cbn; eexists; (split; [reflexivity | lia]).
Qed.

Lemma index_intervals_inv (b k : Z) :
  index LEITNER_INTERVALS b = Some k -> 0 <= b <= 5 /\ 0 <= k <= 30.
Proof.
  unfold index. destruct (Z.ltb_spec b 0); [discriminate|].
  intros E.
  assert (Hn : (Z.to_nat b < List.length LEITNER_INTERVALS)%nat)
    by (apply nth_error_Some; congruence).
  cbn in Hn. split; [lia|].
  assert (C : (Z.to_nat b = 0 \/ Z.to_nat b = 1 \/ Z.to_nat b = 2 \/ Z.to_nat b = 3
               \/ Z.to_nat b = 4 \/ Z.to_nat b = 5)%nat) by lia.
  repeat (destruct C as [C | C]); rewrite C in E; cbn in E; inversion E; lia.
Qed.

Lemma spec_bucket_range (B : Z) (r : Rating) :
  0 <= B <= 5 -> 1 <= spec_bucket B r <= 5.
Proof.
  intros H. destruct r; unfold spec_bucket, clamp;
    repeat match goal with |- context [Z.ltb ?a ?b] => destruct (Z.ltb_spec a b) end; lia.
Qed.

Lemma spec_bucket_ge (B : Z) (r : Rating) : 1 <= spec_bucket B r.
Proof.
  destruct r; unfold spec_bucket, clamp;
    repeat match goal with |- context [Z.ltb ?a ?b] => destruct (Z.ltb_spec a b) end; lia.
Qed.

(** The scheduler returns a card when the new bucket is at most 5; its
    due date is a date at most two days from today plus the interval. *)
Lemma scheduleNext_returns (tz : TimeZone) (now : Z) (t : Term) (r : Rating) :
  zone_ok tz -> clock_ok now -> spec_bucket (bucket t) r <= 5 ->
  exists t' k day',
    scheduleNext tz now t r = Some t'
    /\ bucket t' = spec_bucket (bucket t) r
    /\ index LEITNER_INTERVALS (bucket t') = Some k
    /\ due t' = isoDate day' /\ Day now + k - 2 <= day' <= Day now + k + 2
    /\ history t' = history t ++ [ {| d := ISOString now; rating := r |} ].
Proof.
  intros Hz Hc Hb. rewrite scheduleNext_eq.
  pose proof (spec_bucket_ge (bucket t) r) as Hs.
  destruct (index_intervals (spec_bucket (bucket t) r) ltac:(lia))
    as (k & Ek & Hk).
  destruct (addDays_today tz now k Hz Hc Hk) as (day' & Ea & Hd).
  rewrite Ek, Ea.
  eexists _, k, day'. cbn. repeat split; try reflexivity; try exact Ek; apply Hd.
Qed.

(** In a zone with one offset the due date is today plus the interval. *)
Lemma scheduleNext_returns_fixed (c now : Z) (t : Term) (r : Rating) :
  clock_ok now -> spec_bucket (bucket t) r <= 5 ->
  exists t' k,
    scheduleNext (fixed_zone c) now t r = Some t'
    /\ bucket t' = spec_bucket (bucket t) r
    /\ index LEITNER_INTERVALS (bucket t') = Some k
    /\ due t' = isoDate (Day now + k).
Proof.
  intros Hc Hb. rewrite scheduleNext_eq.
  pose proof (spec_bucket_ge (bucket t) r) as Hs.
  destruct (index_intervals (spec_bucket (bucket t) r) ltac:(lia))
    as (k & Ek & Hk).
  rewrite Ek, (addDays_today_fixed c now k Hc Hk).
  eexists _, k. cbn. repeat split; try reflexivity. exact Ek.
Qed.

(** It raises when the new bucket is above 5. *)
Lemma scheduleNext_raises (tz : TimeZone) (now : Z) (t : Term) (r : Rating) :
  5 < spec_bucket (bucket t) r -> scheduleNext tz now t r = None.
Proof.
  intros Hb. rewrite scheduleNext_eq.
  destruct (index LEITNER_INTERVALS (spec_bucket (bucket t) r)) as [k|] eqn:E.
  - apply index_intervals_inv in E. lia.
  - rewrite addDays_undefined. reflexivity.
Qed.

Lemma scheduleNext_inv (tz : TimeZone) (now : Z) (t : Term) (r : Rating) (t' : Term) :
  scheduleNext tz now t r = Some t' ->
  bucket t' = spec_bucket (bucket t) r
  /\ addDays tz (todayISO now) (index LEITNER_INTERVALS (bucket t')) = Some (due t')
  /\ history t' = history t ++ [ {| d := ISOString now; rating := r |} ].
Proof.
  rewrite scheduleNext_eq.
  destruct (addDays _ _ _) as [due'|] eqn:E; [|discriminate].
  intros [= <-]. cbn. auto.
Qed.

Lemma clock_ok_sample : clock_ok sample_now.
Proof. vm_compute. split; discriminate. Qed.

(** C1: for a card whose bucket B is in 1..5 and for every rating, the card
    [scheduleNext] returns has the bucket of the transition table: [again]
    gives max(1, B-1), [hard] max(1, B), [good] clamp(B+1, 1, 5) and [easy]
    clamp(B+2, 2, 5); and the call does return a card. *)
Theorem scheduleNext_bucket_table (tz : TimeZone) (now : Z) (t : Term) (r : Rating) :
  1 <= bucket t <= 5 ->
  (forall t', scheduleNext tz now t r = Some t' ->
     bucket t' = match r with
                 | again => Z.max 1 (bucket t - 1)
                 | hard => Z.max 1 (bucket t)
                 | good => clamp (bucket t + 1) 1 5
                 | easy => clamp (bucket t + 2) 2 5
                 end)
  /\ (zone_ok tz -> clock_ok now ->
      exists t', scheduleNext tz now t r = Some t'
              /\ bucket t' = spec_bucket (bucket t) r).
Proof.
  intros Hb. split.
  - intros t' H. apply scheduleNext_inv in H as (H & _). rewrite H.
    destruct r; reflexivity.
  - intros Hz Hc.
    pose proof (spec_bucket_range (bucket t) r ltac:(lia)) as Hs.
    destruct (scheduleNext_returns tz now t r Hz Hc ltac:(lia))
      as (t' & k & day' & H1 & H2 & _).
    exists t'. auto.
Qed.

Lemma scheduleNext_bucket_table_witness :
  exists t', scheduleNext moscow sample_now (card "c1" 3 "2024-02-27" [sample_entry]) good
             = Some t'
          /\ bucket t' = 4.
Proof.
  destruct (scheduleNext_bucket_table moscow sample_now
              (card "c1" 3 "2024-02-27" [sample_entry]) good) as [_ H].
  - cbn. lia.
  - destruct (H zone_ok_moscow clock_ok_sample) as (t' & H1 & H2).
    exists t'. split; [exact H1|]. rewrite H2. reflexivity.
Defined.

(** In a zone with one offset all year the due date of the returned card
    is today plus the entry of the table [0,1,3,7,14,30] at the new
    bucket; from bucket 3, [good] gives bucket 4 and today+14; from bucket
    1, [easy] gives bucket 3 and today+7. *)
Lemma scheduleNext_due_fixed (c now : Z) (t : Term) (r : Rating) :
  clock_ok now ->
  todayISO now = isoDate (Day now)
  /\ (forall t', scheduleNext (fixed_zone c) now t r = Some t' ->
        exists k, index LEITNER_INTERVALS (bucket t') = Some k
               /\ nth_error [0; 1; 3; 7; 14; 30] (Z.to_nat (bucket t')) = Some k
               /\ due t' = isoDate (Day now + k))
  /\ (0 <= bucket t <= 5 -> exists t', scheduleNext (fixed_zone c) now t r = Some t')
  /\ (bucket t = 3 ->
        exists t', scheduleNext (fixed_zone c) now t good = Some t'
                /\ bucket t' = 4 /\ due t' = isoDate (Day now + 14))
  /\ (bucket t = 1 ->
        exists t', scheduleNext (fixed_zone c) now t easy = Some t'
                /\ bucket t' = 3 /\ due t' = isoDate (Day now + 7)).
Proof.
  intros Hc. split; [|split; [|split; [|split]]].
  - apply todayISO_isoDate. destruct Hc. unfold minDay, maxDay in *. lia.
  - intros t' H. apply scheduleNext_inv in H as (_ & H & _).
    destruct (index LEITNER_INTERVALS (bucket t')) as [k|] eqn:E.
    + exists k. destruct (index_intervals_inv _ _ E) as [Hb Hk].
      rewrite (addDays_today_fixed c now k Hc Hk) in H. injection H as H.
      repeat split; [|auto].
      unfold index in E. destruct (Z.ltb_spec (bucket t') 0); [lia|exact E].
    + rewrite addDays_undefined in H. discriminate.
  - intros Hb. pose proof (spec_bucket_range (bucket t) r Hb) as Hs.
    destruct (scheduleNext_returns_fixed c now t r Hc ltac:(lia)) as (t' & k & H & _).
    eauto.
  - intros Hb.
    destruct (scheduleNext_returns_fixed c now t good Hc ltac:(rewrite Hb; cbn; lia))
      as (t' & k & H1 & H2 & H3 & H4).
    exists t'. rewrite Hb in H2. cbn in H2. rewrite H2 in H3. cbn in H3.
    injection H3 as <-. auto.
  - intros Hb.
    destruct (scheduleNext_returns_fixed c now t easy Hc ltac:(rewrite Hb; cbn; lia))
      as (t' & k & H1 & H2 & H3 & H4).
    exists t'. rewrite Hb in H2. cbn in H2. rewrite H2 in H3. cbn in H3.
    injection H3 as <-. auto.
Qed.

(** In Moscow on 2024-02-27, [good] on a card in bucket 3: bucket 4, due
    2024-03-12. *)
Example scheduleNext_due_moscow :
  exists t', scheduleNext moscow sample_now (card "c2" 3 "2024-02-27" [sample_entry]) good
             = Some t'
          /\ bucket t' = 4 /\ due t' = str "2024-03-12".
Proof. eexists. split; [vm_compute; reflexivity|]. split; reflexivity. Qed.

(** C2, the code at a failing input: in Berlin on 2024-03-25 (12:00 UTC),
    [good] on a card in bucket 2 gives bucket 3, whose interval is 7 days,
    but the due date is 2024-03-31, six days after today, not 2024-04-01:
    midnight UTC of today is 01:00 local time, seven local days later it
    is 01:00 of 1 April in summer time, which is 23:00 UTC of 31 March. *)
Theorem scheduleNext_due_daylight_saving :
  zone_ok berlin /\ clock_ok march_25
  /\ todayISO march_25 = str "2024-03-25"
  /\ isoDate (Day march_25 + 7) = str "2024-04-01"
  /\ exists t',
       scheduleNext berlin march_25 (card "c2" 2 "2024-03-25" [sample_entry]) good = Some t'
       /\ bucket t' = 3
       /\ index LEITNER_INTERVALS (bucket t') = Some 7
       /\ due t' = str "2024-03-31"
       /\ due t' <> isoDate (Day march_25 + 7).
Proof.
  split; [exact zone_ok_berlin|].
  split; [vm_compute; split; discriminate|].
  split; [vm_compute; reflexivity|]. split; [vm_compute; reflexivity|].
  eexists. split; [vm_compute; reflexivity|].
  split; [reflexivity|]. split; [reflexivity|]. split; [reflexivity|].
  vm_compute. discriminate.
Qed.

Lemma In_insert_sorted {A} (cmp : A -> A -> comparison) (x y : A) (l : list A) :
  In y (insert_sorted cmp x l) -> y = x \/ In y l.
Proof.
  induction l as [|z l IH]; cbn.
  - intros [<- | []]. auto.
  - destruct (cmp x z); cbn; intuition auto.
Qed.

Lemma In_sort {A} (cmp : A -> A -> comparison) (y : A) (l : list A) :
  In y (sort cmp l) -> In y l.
Proof.
  induction l as [|x l IH]; cbn; [auto|].
  intros H. apply In_insert_sorted in H as [-> | H]; auto.
Qed.

Lemma In_firstn {A} (y : A) (n : nat) (l : list A) : In y (firstn n l) -> In y l.
Proof.
  revert l; induction n as [|n IH]; intros [|x l]; cbn; try tauto.
  intros [-> | H]; auto.
Qed.

Lemma In_slice0 {A} (y : A) (l : list A) (n : Z) : In y (slice0 l n) -> In y l.
Proof.
  unfold slice0. destruct (n <? 0); apply In_firstn.
Qed.

Lemma In_queue lc (now : Z) (st : AppState) (c : Term) :
  In c (queue lc now st) -> In c (all st).
Proof.
  unfold queue, dueToday, newCards.
  destruct (Mode_eqb (mode st) review).
  - intros H. apply In_slice0, In_sort, filter_In in H. tauto.
  - destruct (Mode_eqb (mode st) learn); [|intros []].
    intros H. apply In_slice0, filter_In in H. tauto.
Qed.

(** C5: the history of the card [scheduleNext] returns is the history of
    the input with one entry (the time stamp and the rating) appended:
    one longer, every earlier entry in its place; and the queue selection,
    the other operation of the scheduler, hands out cards of the set as
    they are. *)
Theorem scheduleNext_history (tz : TimeZone) (now : Z) (t : Term) (r : Rating) (t' : Term) :
  scheduleNext tz now t r = Some t' ->
  history t' = history t ++ [ {| d := ISOString now; rating := r |} ]
  /\ List.length (history t') = S (List.length (history t))
  /\ (forall i, (i < List.length (history t))%nat ->
        nth_error (history t') i = nth_error (history t) i)
  /\ (forall lc now' st c, In c (queue lc now' st) -> In c (all st)).
Proof.
  intros H. apply scheduleNext_inv in H as (_ & _ & H). rewrite H.
  repeat split.
  - rewrite length_app. cbn. lia.
  - intros i Hi. apply nth_error_app1. exact Hi.
  - apply In_queue.
Qed.

Lemma scheduleNext_history_witness :
  exists t', scheduleNext moscow sample_now (card "c5" 2 "2024-02-27" [sample_entry]) hard
             = Some t'
          /\ history t' = [sample_entry; {| d := ISOString sample_now; rating := hard |}].
Proof.
  destruct (scheduleNext moscow sample_now (card "c5" 2 "2024-02-27" [sample_entry]) hard)
    as [t'|] eqn:E; [|vm_compute in E; discriminate E].
  exists t'. split; [reflexivity|].
  exact (proj1 (scheduleNext_history _ _ _ _ _ E)).
Defined.




(** ** Sorting *)

Section SortFacts.
Context {A : Type} (cmp : A -> A -> comparison).
Hypothesis cmp_total : total_preorder cmp.

Local Abbreviation le := (le_by cmp).

Lemma insert_sorted_perm (x : A) (l : list A) :
  Permutation (insert_sorted cmp x l) (x :: l).
Proof.
  induction l as [|y l IH]; cbn; [reflexivity|].
  destruct (cmp x y); try reflexivity.
  rewrite IH. apply perm_swap.
Qed.

Lemma sort_perm (l : list A) : Permutation (sort cmp l) l.
Proof.
  induction l as [|x l IH]; cbn; [reflexivity|].
  rewrite insert_sorted_perm. apply perm_skip, IH.
Qed.

Lemma le_of_Gt (x y : A) : cmp x y = Gt -> le y x.
Proof.
  intros H. unfold le. rewrite (proj1 cmp_total x y), H. discriminate.
Qed.

Lemma insert_sorted_sorted (x : A) (l : list A) :
  StronglySorted le l -> StronglySorted le (insert_sorted cmp x l).
Proof.
  induction 1 as [|y l Hs IH Hy]; cbn.
  - repeat constructor.
  - destruct (cmp x y) eqn:E.
    + constructor; [constructor; assumption|].
      assert (Hxy : le x y) by (unfold le; rewrite E; discriminate).
      constructor; [exact Hxy|].
      eapply Forall_impl; [|exact Hy]. intros z Hz.
      exact (proj2 cmp_total x y z Hxy Hz).
    + constructor; [constructor; assumption|].
      assert (Hxy : le x y) by (unfold le; rewrite E; discriminate).
      constructor; [exact Hxy|].
      eapply Forall_impl; [|exact Hy]. intros z Hz.
      exact (proj2 cmp_total x y z Hxy Hz).
    + constructor; [exact IH|].
      apply (Permutation_Forall (Permutation_sym (insert_sorted_perm x l))).
      constructor; [apply le_of_Gt, E | exact Hy].
Qed.

Lemma sort_sorted (l : list A) : StronglySorted le (sort cmp l).
Proof.
  induction l as [|x l IH]; cbn; [constructor|].
  apply insert_sorted_sorted, IH.
Qed.

Lemma tie_not_Gt (k x y : A) :
  tie cmp k x = true -> tie cmp k y = true -> cmp x y <> Gt.
Proof.
  unfold tie. intros Hx Hy.
  apply (proj2 cmp_total x k y).
  - rewrite (proj1 cmp_total k x). destruct (cmp k x); discriminate.
  - destruct (cmp k y); discriminate.
Qed.

Lemma insert_sorted_stable (k x : A) (l : list A) :
  filter (tie cmp k) (insert_sorted cmp x l) = filter (tie cmp k) (x :: l).
Proof.
  induction l as [|y l IH]; [reflexivity|].
  cbn [insert_sorted]. destruct (cmp x y) eqn:E; try reflexivity.
  cbn [filter] in *. rewrite IH.
  destruct (tie cmp k x) eqn:Ex, (tie cmp k y) eqn:Ey; try reflexivity.
  destruct (tie_not_Gt k x y Ex Ey E).
Qed.

Lemma sort_stable (k : A) (l : list A) :
  filter (tie cmp k) (sort cmp l) = filter (tie cmp k) l.
Proof.
  induction l as [|x l IH]; [reflexivity|].
  cbn [sort]. rewrite insert_sorted_stable. cbn [filter]. rewrite IH. reflexivity.
Qed.

Lemma le_refl (x : A) : le x x.
Proof.
  unfold le. pose proof (proj1 cmp_total x x) as H.
  destruct (cmp x x); cbn in H; congruence.
Qed.

Lemma tie_of_le (x y : A) : le x y -> le y x -> tie cmp x y = true.
Proof.
  unfold le, tie. intros H1 H2. rewrite (proj1 cmp_total y x) in *.
  destruct (cmp y x); cbn in *; congruence.
Qed.

(** Two sorted lists with the same elements and the same order among
    ties are equal: every stable sort gives the list [sort] gives. *)
Lemma stable_sorted_unique (l1 l2 : list A) :
  StronglySorted le l1 -> StronglySorted le l2 -> Permutation l1 l2 ->
  (forall k, filter (tie cmp k) l1 = filter (tie cmp k) l2) ->
  l1 = l2.
Proof.
  intros S1. revert l2. induction S1 as [|x l1 S1 IH Hx]; intros l2 S2 P F.
  - apply Permutation_nil in P. auto.
  - destruct S2 as [|y l2 S2 Hy].
    + apply Permutation_sym, Permutation_nil in P. discriminate P.
    + assert (Lxy : le x y).
      { assert (Hin : In y (x :: l1))
          by (apply (Permutation_in y (Permutation_sym P)); left; reflexivity).
        destruct Hin as [<- | Hin]; [apply le_refl|].
        exact (proj1 (Forall_forall _ _) Hx y Hin). }
      assert (Lyx : le y x).
      { assert (Hin : In x (y :: l2)) by (apply (Permutation_in x P); left; reflexivity).
        destruct Hin as [<- | Hin]; [apply le_refl|].
        exact (proj1 (Forall_forall _ _) Hy x Hin). }
      pose proof (F x) as Fx. cbn [filter] in Fx.
      rewrite (tie_of_le x x (le_refl x) (le_refl x)), (tie_of_le x y Lxy Lyx) in Fx.
      injection Fx as <- _. f_equal.
      apply IH; [exact S2 | exact (Permutation_cons_inv P) |].
      intros k. specialize (F k). cbn [filter] in F.
      destruct (tie cmp k x); [injection F as F|]; exact F.
Qed.

(** [sort] gives the one stable sorted arrangement of the list. *)
Lemma sort_unique (l s : list A) :
  StronglySorted le s -> Permutation s l ->
  (forall k, filter (tie cmp k) s = filter (tie cmp k) l) ->
  s = sort cmp l.
Proof.
  intros Hs Hp Hf. apply stable_sorted_unique.
  - exact Hs.
  - apply sort_sorted.
  - rewrite Hp. symmetry. apply sort_perm.
  - intros k. rewrite Hf, sort_stable. reflexivity.
Qed.
End SortFacts.

Lemma StronglySorted_firstn {A} (R : A -> A -> Prop) (n : nat) (l : list A) :
  StronglySorted R l -> StronglySorted R (firstn n l).
Proof.
  intros H. revert n. induction H as [|x l Hs IH Hx]; intros [|n]; cbn; try constructor.
  - apply IH.
  - apply Forall_forall. intros y Hy.
    apply (proj1 (Forall_forall _ _) Hx), (In_firstn _ n), Hy.
Qed.

Lemma slice0_firstn {A} (l : list A) (n : Z) :
  0 <= n -> slice0 l n = firstn (Z.to_nat n) l.
Proof. intros H. unfold slice0. destruct (Z.ltb_spec n 0); [lia|reflexivity]. Qed.

Lemma total_preorder_by_due lc : total_preorder lc -> total_preorder (by_due lc).
Proof.
  intros [H1 H2]. split; unfold by_due.
  - intros a b. apply H1.
  - intros a b c. apply H2.
Qed.

Lemma str_compare_opp (a b : jsstring) : str_compare b a = CompOpp (str_compare a b).
Proof.
  revert b; induction a as [|x a IH]; intros [|y b]; cbn; try reflexivity.
  rewrite (Z.compare_antisym x y).
  destruct (x ?= y); cbn; auto.
Qed.

Lemma str_compare_trans (a b c : jsstring) :
  str_compare a b <> Gt -> str_compare b c <> Gt -> str_compare a c <> Gt.
Proof.
  revert b c; induction a as [|x a IH]; intros [|y b] [|z c]; cbn;
    try congruence; try discriminate.
  destruct (Z.compare_spec x y), (Z.compare_spec y z), (Z.compare_spec x z);
    try congruence; try lia; try discriminate.
  apply IH.
Qed.

Lemma total_preorder_str_compare : total_preorder str_compare.
Proof.
  split; [intros a b; apply str_compare_opp | apply str_compare_trans].
Qed.

(** ** The queues *)



(** The review queue of the sample set on 2024-02-27 with limit 2: the two
    cards due 2024-02-20, in the order of the set. *)
Example review_queue_sample :
  map id (queue str_compare sample_now (sample_state review 2)) = [str "c"; str "e"]
  /\ map id (queue str_compare sample_now (sample_state review 20))
     = [str "c"; str "e"; str "a"].
Proof. split; vm_compute; reflexivity. Qed.

(** C4: in learn mode the queue is the first [limit] of the cards with
    bucket 0, in the order of the set; it holds no card with bucket > 0
    and has at most [limit] elements. *)
Theorem learn_queue (lc : jsstring -> jsstring -> comparison) (now : Z) (st : AppState) :
  mode st = learn -> 0 <= sessionSize st ->
  queue lc now st
  = firstn (Z.to_nat (sessionSize st)) (filter (fun t => bucket t =? 0) (all st))
  /\ (forall t, In t (queue lc now st) -> In t (all st) /\ bucket t = 0)
  /\ Z.of_nat (List.length (queue lc now st)) <= sessionSize st.
Proof.
  intros Hm Hn.
  assert (Eq : queue lc now st
               = firstn (Z.to_nat (sessionSize st)) (filter (fun t => bucket t =? 0) (all st))).
  { unfold queue. rewrite Hm. cbn [Mode_eqb]. apply slice0_firstn, Hn. }
  split; [exact Eq|]. split.
  - intros t Ht. rewrite Eq in Ht.
    apply In_firstn, filter_In in Ht as [Hin Ht]. apply Z.eqb_eq in Ht. auto.
  - rewrite Eq, length_firstn. lia.
Qed.

Lemma learn_queue_witness :
  queue str_compare sample_now (sample_state learn 5) = [card "b" 0 "2024-02-10" []].
Proof.
  rewrite (proj1 (learn_queue str_compare sample_now (sample_state learn 5)
                    eq_refl ltac:(cbn; lia))).
  reflexivity.
Defined.

(** ** The invariant of the data model *)

Lemma card_inv_fresh (i tm df : jsstring) (tg : list jsstring) (now : Z) :
  card_inv (fresh i tm df tg now).
Proof. unfold card_inv. cbn. split; [lia|tauto]. Qed.

Lemma card_inv_rated (tz : TimeZone) (now : Z) (t : Term) (r : Rating) (t' : Term) :
  card_inv t ->
  scheduleNext tz now (with_bucket t (if bucket t =? 0 then 1 else bucket t)) r = Some t' ->
  card_inv t' /\ 1 <= bucket t'.
Proof.
  intros [Hb _] H. apply scheduleNext_inv in H as (Eb & _ & Eh).
  cbn [bucket with_bucket history] in Eb, Eh.
  assert (Hs : 1 <= bucket t' <= 5).
  { rewrite Eb. apply spec_bucket_range. destruct (Z.eqb_spec (bucket t) 0); lia. }
  split; [|lia]. split; [lia|]. rewrite Eh. split; [lia|].
  intros E. destruct (history t); discriminate E.
Qed.

Lemma Forall_map_raise {A} (P : A -> Prop) (f : A -> option A) (l l' : list A) :
  (forall x y, P x -> f x = Some y -> P y) ->
  map_raise f l = Some l' -> Forall P l -> Forall P l'.
Proof.
  intros Hf. revert l'. induction l as [|x l IH]; cbn; intros l' E H.
  - injection E as <-. constructor.
  - inversion H as [|? ? Hx Hl]; subst.
    destruct (f x) as [y|] eqn:Ey; [|discriminate].
    destruct (map_raise f l) as [ys|]; [|discriminate].
    injection E as <-. constructor; [exact (Hf x y Hx Ey) | apply IH; auto].
Qed.

Lemma Forall_mapi_from {A B} (P : B -> Prop) (f : nat -> A -> B) (i : nat) (l : list A) :
  (forall j x, P (f j x)) -> Forall P (mapi_from i f l).
Proof.
  intros Hf. revert i. induction l as [|x l IH]; intros i; cbn; constructor; auto.
Qed.

Lemma Forall_filter {A} (P : A -> Prop) (f : A -> bool) (l : list A) :
  Forall P l -> Forall P (filter f l).
Proof.
  intros H. apply Forall_forall. intros x Hx. apply filter_In in Hx as [Hx _].
  exact (proj1 (Forall_forall P l) H x Hx).
Qed.

Lemma rate_inv lc tz (rendered now : Z) (st st' : AppState) (r : Rating) :
  rate lc tz rendered now st r = Some st' ->
  Forall card_inv (all st) -> Forall card_inv (all st').
Proof.
  unfold rate. destruct (current lc rendered st) as [cur|].
  - destruct (map_raise _ (all st)) as [next|] eqn:E; [|discriminate].
    intros [= <-] H. cbn [all].
    refine (Forall_map_raise card_inv _ _ _ _ E H).
    intros x y Hx. destruct (str_eqb (id x) (id cur)).
    + intros Hy. exact (proj1 (card_inv_rated tz now x r y Hx Hy)).
    + intros [= <-]. exact Hx.
  - intros [= <-]. auto.
Qed.

Lemma importCSV_all (uid : IdSupply) (now : Z) (st : AppState) (csv : jsstring) :
  all (importCSV uid now st csv) = all st
  \/ all (importCSV uid now st csv)
     = mapi_from 0 (parse_row uid now) (filter nonempty (map trim (split_lines csv))).
Proof.
  unfold importCSV. cbv zeta.
  destruct (mapi_from 0 (parse_row uid now) _); [left|right]; reflexivity.
Qed.

Lemma SEED_inv (uid : IdSupply) (started : Z) : Forall card_inv (SEED uid started).
Proof. apply Forall_mapi_from. intros. apply card_inv_fresh. Qed.

Lemma sample_set_inv : Forall card_inv sample_set.
Proof.
  repeat constructor; cbn; try lia; try discriminate; intros; try lia; try reflexivity.
Qed.

Lemma handle_inv (lc : jsstring -> jsstring -> comparison) (tz : TimeZone)
    (st : AppState) (e : Event) :
  Forall card_inv (all st) -> Forall card_inv (all (handle lc tz st e)).
Proof.
  intros H.
  destruct e as [rendered now r | uid now tm df tg | uid now csv | confirmed now
                | t | m | | value]; cbn [handle].
  - destruct (rate lc tz rendered now st r) as [st'|] eqn:E; [|exact H].
    exact (rate_inv lc tz rendered now st st' r E H).
  - unfold addOne. destruct (negb (nonempty (or_empty tm))); [exact H|].
    cbn [all]. apply Forall_app. split; [exact H|].
    constructor; [apply card_inv_fresh | constructor].
  - destruct (importCSV_all uid now st csv) as [-> | ->]; [exact H|].
    apply Forall_mapi_from. intros. apply card_inv_fresh.
  - unfold resetProgress. destruct (negb confirmed); [exact H|].
    cbn [all]. apply Forall_forall. intros x Hx.
    apply in_map_iff in Hx as (y & <- & _).
    unfold card_inv. cbn. split; [lia|tauto].
  - cbn [deleteTerm all]. apply Forall_filter, H.
  - exact H.
  - exact H.
  - exact H.
Qed.

(** C6: every handler that changes the card set (rating, which raises
    bucket 0 to 1 before it calls the scheduler; adding; importing;
    resetting; deleting) keeps, for every card of the set, the bucket in
    0..5 and bucket = 0 exactly when the history is empty; so does every
    sequence of events. *)
Theorem handlers_keep_invariant (lc : jsstring -> jsstring -> comparison)
    (tz : TimeZone) (st : AppState) :
  Forall card_inv (all st) ->
  (forall rendered now r st',
     rate lc tz rendered now st r = Some st' -> Forall card_inv (all st'))
  /\ (forall uid now tm df tg, Forall card_inv (all (addOne uid now st tm df tg)))
  /\ (forall uid now csv, Forall card_inv (all (importCSV uid now st csv)))
  /\ (forall confirmed now, Forall card_inv (all (resetProgress confirmed now st)))
  /\ (forall t, Forall card_inv (all (deleteTerm t st)))
  /\ (forall es, Forall card_inv (all (run lc tz st es))).
Proof.
  intros H. repeat split.
  - intros rendered now r st' E. exact (rate_inv lc tz rendered now st st' r E H).
  - intros uid now tm df tg. exact (handle_inv lc tz st (Add uid now tm df tg) H).
  - intros uid now csv. exact (handle_inv lc tz st (Import uid now csv) H).
  - intros confirmed now. exact (handle_inv lc tz st (Reset confirmed now) H).
  - intros t. exact (handle_inv lc tz st (Delete t) H).
  - intros es. revert st H. unfold run.
    induction es as [|e es IH]; intros st H; cbn [fold_left]; [exact H|].
    apply IH, handle_inv, H.
Qed.

Lemma handlers_keep_invariant_witness :
  Forall card_inv
    (all (run str_compare moscow (sample_state review 20)
            [Rate sample_now sample_now good; Delete (card "a" 0 "" []);
             Rate sample_now sample_now again; Reset true sample_now])).
Proof.
  apply (handlers_keep_invariant str_compare moscow (sample_state review 20)).
  exact sample_set_inv.
Defined.

(** Rating the head of the sample review queue [good]: card [c] goes from
    bucket 1 to bucket 2, due in 3 days, and the new card [b], rated in learn
    mode, goes from bucket 0 to bucket 2. *)
Example rate_sample :
  map (fun t => (id t, bucket t, due t))
      (all (handle str_compare moscow (sample_state review 20)
              (Rate sample_now sample_now good)))
  = [(str "a", 2, str "2024-02-25"); (str "b", 0, str "2024-02-10");
     (str "c", 2, str "2024-03-01"); (str "d", 4, str "2024-03-01");
     (str "e", 3, str "2024-02-20")]
  /\ map (fun t => (id t, bucket t, List.length (history t)))
         (all (handle str_compare moscow (sample_state learn 20)
                 (Rate sample_now sample_now good)))
     = [(str "a", 2, 1%nat); (str "b", 2, 1%nat); (str "c", 1, 1%nat);
        (str "d", 4, 1%nat); (str "e", 3, 1%nat)].
Proof. split; vm_compute; reflexivity. Qed.

(** ** Import and export *)

Lemma trimStart_blank (s : jsstring) : blank s -> trimStart s = [].
Proof.
  induction 1 as [|c s Hc _ IH]; [reflexivity|].
  cbn. rewrite Hc. exact IH.
Qed.

Lemma trim_blank (s : jsstring) : blank s -> trim s = [].
Proof. intros H. unfold trim. rewrite (trimStart_blank s H). reflexivity. Qed.

Lemma rows_blank (lines : list jsstring) :
  Forall blank lines -> filter nonempty (map trim lines) = [].
Proof.
  induction 1 as [|l lines Hl _ IH]; [reflexivity|].
  cbn. rewrite (trim_blank l Hl). exact IH.
Qed.

(** C10: an import text whose lines are all empty or white space leaves
    the state, and so the card set, as it was. *)
Theorem importCSV_blank (uid : IdSupply) (now : Z) (st : AppState) (csv : jsstring) :
  Forall blank (split_lines csv) ->
  importCSV uid now st csv = st /\ all (importCSV uid now st csv) = all st.
Proof.
  intros H. unfold importCSV. cbv zeta. rewrite (rows_blank _ H). cbn. auto.
Qed.

Lemma importCSV_blank_witness :
  all (importCSV sample_uid sample_now (sample_state review 20)
         (10 :: 32 :: 9 :: 13 :: 10 :: str "  "))
  = sample_set.
Proof.
  refine (proj2 (importCSV_blank sample_uid sample_now (sample_state review 20)
                   (10 :: 32 :: 9 :: 13 :: 10 :: str "  ") _)).
  vm_compute. repeat constructor.
Defined.

Lemma split_lines_acc_head (s acc : jsstring) :
  exists suffix rest, split_lines_acc acc s = (rev acc ++ suffix) :: rest.
Proof.
  revert acc. induction s as [|c r IH]; intros acc.
  - exists [], []. cbn. rewrite app_nil_r. reflexivity.
  - cbn [split_lines_acc]. destruct (c =? 10).
    + exists [], (split_lines_acc [] r). rewrite app_nil_r. reflexivity.
    + destruct (IH (c :: acc)) as (suffix & rest & E).
      assert (G : exists suffix' rest', split_lines_acc (c :: acc) r
                                        = (rev acc ++ suffix') :: rest').
      { exists (c :: suffix), rest. rewrite E. cbn [rev]. rewrite <- app_assoc. reflexivity. }
      destruct r as [|c2 r2]; [exact G|].
      destruct ((c =? 13) && (c2 =? 10)); [|exact G].
      exists [], (split_lines_acc [] r2). rewrite app_nil_r. reflexivity.
Qed.

Lemma trimStart_ends_nonspace (l : jsstring) (c : Z) :
  is_js_space c = false -> trimStart (l ++ [c]) <> [].
Proof.
  intros Hc. induction l as [|x l IH]; cbn.
  - rewrite Hc. discriminate.
  - destruct (is_js_space x); [exact IH | discriminate].
Qed.

Lemma trim_starts_nonspace (c : Z) (s : jsstring) :
  is_js_space c = false -> trim (c :: s) <> [].
Proof.
  intros Hc. unfold trim. cbn [trimStart]. rewrite Hc. cbn [rev].
  intros E. apply (f_equal (@rev Z)) in E. rewrite rev_involutive in E.
  exact (trimStart_ends_nonspace (rev s) c Hc E).
Qed.

(** A text that starts with a code unit other than white space has a
    row. *)
Lemma rows_of_text (c : Z) (s : jsstring) :
  is_js_space c = false ->
  filter nonempty (map trim (split_lines (c :: s))) <> [].
Proof.
  intros Hc. unfold split_lines.
  assert (E : exists suffix rest, split_lines_acc [] (c :: s) = (c :: suffix) :: rest).
  { cbn [split_lines_acc].
    assert (H10 : (c =? 10) = false)
      by (destruct (Z.eqb_spec c 10) as [->|]; [discriminate Hc | reflexivity]).
    assert (H13 : (c =? 13) = false)
      by (destruct (Z.eqb_spec c 13) as [->|]; [discriminate Hc | reflexivity]).
    rewrite H10, H13. cbn [andb].
    destruct (split_lines_acc_head s [c]) as (suffix & rest & E).
    exists suffix, rest. destruct s; exact E. }
  destruct E as (suffix & rest & ->). cbn [map filter].
  pose proof (trim_starts_nonspace c suffix Hc) as Ht.
  destruct (trim (c :: suffix)); [congruence | cbn; discriminate].
Qed.

Lemma JSON_stringify_head (ts : list Term) : exists s, JSON_stringify ts = 91 :: s.
Proof.
  unfold JSON_stringify, json_array.
  destruct (map (stringify_term gap) ts); eexists; reflexivity.
Qed.

Lemma reset_card_fresh (i tm df : jsstring) (tg : list jsstring) (now : Z) :
  reset_card now (fresh i tm df tg now).
Proof. unfold reset_card. cbn. auto. Qed.

Lemma mapi_from_nil {A B} (f : nat -> A -> B) (i : nat) (l : list A) :
  mapi_from i f l = [] -> l = [].
Proof. destruct l; [reflexivity | discriminate]. Qed.

(** A text with a row replaces the card set by the cards of its rows. *)
Lemma importCSV_rows (uid : IdSupply) (now : Z) (st : AppState) (csv : jsstring) :
  filter nonempty (map trim (split_lines csv)) <> [] ->
  importCSV uid now st csv
  = {| mode := learn;
       all := mapi_from 0 (parse_row uid now) (filter nonempty (map trim (split_lines csv)));
       showBack := showBack st; sessionSize := sessionSize st |}.
Proof.
  intros H. unfold importCSV. cbv zeta.
  destruct (mapi_from 0 (parse_row uid now) _) eqn:E; [|reflexivity].
  apply mapi_from_nil in E. contradiction.
Qed.

(** Every import makes new cards only. *)
Lemma importCSV_resets (uid : IdSupply) (now : Z) (csv : jsstring) :
  Forall (reset_card now)
    (mapi_from 0 (parse_row uid now) (filter nonempty (map trim (split_lines csv)))).
Proof. apply Forall_mapi_from. intros. apply reset_card_fresh. Qed.



(** ** Loading *)

Lemma all_some_nil {A} (l : list (option A)) : all_some l = Some [] -> l = [].
Proof.
  destruct l as [|[x|] l]; cbn; [reflexivity | | discriminate].
  destruct (all_some l); discriminate.
Qed.

Lemma card_array_length (v : JSON) (ts : list Term) :
  card_array v ts -> length_truthy v = Some true.
Proof.
  intros [E Hne]. destruct v; try discriminate E.
  cbn in *. destruct items; [|reflexivity].
  cbn in E. injection E as <-. contradiction.
Qed.

Lemma load_parsed (uid : IdSupply) (started : Z) (r : jsstring) (v : JSON) :
  JSON_parse r = Some v -> length_truthy v = Some true ->
  load uid started (Some r) = Parsed v.
Proof.
  intros Ep El. unfold load.
  destruct r; [discriminate Ep|]. cbn [nonempty negb].
  rewrite Ep, El. reflexivity.
Qed.

(** C9, the claim as stated fails: the text [[1]] parses as an array that
    is not an array of cards, and a JSON string parses as a string; [load]
    returns both as they are, not the seed. *)
Lemma load_keeps_other_values :
  JSON_parse (str "[1]") = Some (JArray [JNumber 1 0])
  /\ as_terms (JArray [JNumber 1 0]) = None
  /\ load sample_uid sample_now (Some (str "[1]")) = Parsed (JArray [JNumber 1 0])
  /\ load sample_uid sample_now (Some ([34] ++ str "abc" ++ [34])) = Parsed (JString (str "abc"))
  /\ load sample_uid sample_now (Some (str "[1]")) <> Seed (SEED sample_uid sample_now).
Proof.
  split; [vm_compute; reflexivity|]. split; [vm_compute; reflexivity|].
  split; [vm_compute; reflexivity|]. split; [vm_compute; reflexivity|].
  replace (load sample_uid sample_now (Some (str "[1]")))
    with (Parsed (JArray [JNumber 1 0])) by (vm_compute; reflexivity).
  discriminate.
Qed.

(** C9, amended: [load] returns the parsed value as it is whenever the
    text is not empty, parses as JSON and the value has a truthy [length]
    (every non-empty array of cards is such a value); it returns the seed
    when the key is missing, the text is empty or is not JSON, the value
    is [null], or its [length] is missing or falsy. It never raises, and
    what it returns is the seed or the whole parsed value. *)
Theorem load_cases (uid : IdSupply) (started : Z) (raw : option jsstring) :
  (forall r v ts, raw = Some r -> JSON_parse r = Some v -> card_array v ts ->
     load uid started raw = Parsed v)
  /\ (forall r v, raw = Some r -> JSON_parse r = Some v -> length_truthy v = Some true ->
        load uid started raw = Parsed v)
  /\ (raw = None \/ raw = Some []
      \/ (exists r, raw = Some r
          /\ (JSON_parse r = None
              \/ exists v, JSON_parse r = Some v /\ length_truthy v <> Some true)) ->
      load uid started raw = Seed (SEED uid started))
  /\ (load uid started raw = Seed (SEED uid started)
      \/ exists r v, raw = Some r /\ JSON_parse r = Some v
                     /\ load uid started raw = Parsed v).
Proof.
  split; [|split; [|split]].
  - intros r v ts -> Ep Hc. apply load_parsed; [exact Ep|].
    exact (card_array_length v ts Hc).
  - intros r v -> Ep El. apply load_parsed; assumption.
  - intros [-> | [-> | (r & -> & H)]]; [reflexivity | reflexivity |].
    unfold load. destruct (negb (nonempty r)); [reflexivity|].
    destruct H as [-> | (v & -> & H)]; [reflexivity|].
    destruct (length_truthy v) as [[|]|]; [contradiction | reflexivity | reflexivity].
  - unfold load. destruct raw as [r|]; [|left; reflexivity].
    destruct (negb (nonempty r)); [left; reflexivity|].
    destruct (JSON_parse r) as [v|] eqn:Ep; [|left; reflexivity].
    destruct (length_truthy v) as [[|]|]; [|left; reflexivity | left; reflexivity].
    right. exists r, v. auto.
Qed.

(** The text [save] would write for the sample set loads as that set. *)
Example load_sample :
  exists v, load sample_uid sample_now (Some (JSON_stringify sample_set)) = Parsed v
            /\ card_array v sample_set.
Proof.
  eexists. split; [vm_compute; reflexivity|].
  split; [vm_compute; reflexivity | discriminate].
Qed.

(** So does the text written for the seed, with its Cyrillic terms. *)
Example load_saved_seed :
  exists v, load sample_uid sample_now (Some (JSON_stringify (SEED sample_uid sample_now)))
            = Parsed v
            /\ card_array v (SEED sample_uid sample_now).
Proof.
  eexists. split; [vm_compute; reflexivity|].
  split; [vm_compute; reflexivity | discriminate].
Qed.

(** Texts that fall back to the seed. *)
Example load_fallback :
  load sample_uid sample_now None = Seed (SEED sample_uid sample_now)
  /\ load sample_uid sample_now (Some (str "[]")) = Seed (SEED sample_uid sample_now)
  /\ load sample_uid sample_now (Some (str "null")) = Seed (SEED sample_uid sample_now)
  /\ load sample_uid sample_now (Some (str "[{")) = Seed (SEED sample_uid sample_now)
  /\ load sample_uid sample_now (Some (str "{}")) = Seed (SEED sample_uid sample_now)
  /\ load sample_uid sample_now (Some (str "7")) = Seed (SEED sample_uid sample_now).
Proof. repeat split; vm_compute; reflexivity. Qed.

(** * Further properties *)

(** ** Lists *)

Lemma map_raise_Forall2 {A B} (f : A -> option B) (l : list A) (l' : list B) :
  map_raise f l = Some l' -> Forall2 (fun x y => f x = Some y) l l'.
Proof.
  revert l'. induction l as [|x l IH]; cbn; intros l' E.
  - injection E as <-. constructor.
  - destruct (f x) as [y|] eqn:Ey; [|discriminate].
    destruct (map_raise f l) as [ys|]; [|discriminate].
    injection E as <-. constructor; [exact Ey | apply IH; reflexivity].
Qed.

Lemma map_raise_total {A B} (f : A -> option B) (l : list A) :
  Forall (fun x => exists y, f x = Some y) l -> exists l', map_raise f l = Some l'.
Proof.
  induction 1 as [|x l [y Ey] _ [ys Eys]]; cbn.
  - eauto.
  - rewrite Ey, Eys. cbn. eauto.
Qed.

Lemma Forall2_In_r {A B} (R : A -> B -> Prop) (l : list A) (l' : list B) (y : B) :
  Forall2 R l l' -> In y l' -> exists x, In x l /\ R x y.
Proof.
  induction 1 as [|x y' l l' Hxy _ IH]; cbn; [intros []|].
  intros [<- | H]; [eauto|]. destruct (IH H) as (x' & Hin & Hr). eauto.
Qed.

Lemma Forall2_impl {A B} (R S : A -> B -> Prop) (l : list A) (l' : list B) :
  (forall x y, R x y -> S x y) -> Forall2 R l l' -> Forall2 S l l'.
Proof. intros H. induction 1; constructor; auto. Qed.

(** Where every element of a list either stops satisfying [P] (when [Q]
    holds of it) or stays as it is, fewer elements satisfy [P], and
    strictly fewer when [P] and [Q] held of one. *)
Lemma filter_length_Forall2 {A} (P Q : A -> bool) (l l' : list A) :
  Forall2 (fun x y => (Q x = true /\ P y = false) \/ (Q x = false /\ y = x)) l l' ->
  (List.length (filter P l') <= List.length (filter P l))%nat
  /\ ((exists x, In x l /\ Q x = true /\ P x = true) ->
      (List.length (filter P l') < List.length (filter P l))%nat).
Proof.
  induction 1 as [|x y l l' Hxy _ [IH1 IH2]]; cbn.
  - split; [lia|]. intros (x & [] & _).
  - destruct Hxy as [[Hq Hp] | [Hq ->]].
    + rewrite Hp. destruct (P x) eqn:Ex; cbn.
      * split; [lia|]. intros _. lia.
      * split; [lia|]. intros (z & [<- | Hz] & Hqz & Hpz); [congruence|].
        apply IH2. eauto.
    + destruct (P x) eqn:Ex; cbn.
      * split; [lia|]. intros (z & [<- | Hz] & Hqz & Hpz); [congruence|].
        apply -> Nat.succ_lt_mono. apply IH2. eauto.
      * split; [lia|]. intros (z & [<- | Hz] & Hqz & Hpz); [congruence|].
        apply IH2. eauto.
Qed.

Lemma str_eqb_refl (s : jsstring) : str_eqb s s = true.
Proof. induction s as [|c s IH]; cbn; [reflexivity|]. rewrite Z.eqb_refl. exact IH. Qed.

Lemma str_eqb_eq (a b : jsstring) : str_eqb a b = true -> a = b.
Proof.
  revert b. induction a as [|x a IH]; intros [|y b]; cbn; try discriminate; [reflexivity|].
  intros H. apply andb_true_iff in H as [H1 H2].
  apply Z.eqb_eq in H1. f_equal; auto.
Qed.

(** ** Rating *)

Lemma scheduleNext_text (tz : TimeZone) (now : Z) (t : Term) (r : Rating) (t' : Term) :
  scheduleNext tz now t r = Some t' -> same_text t t'.
Proof.
  rewrite scheduleNext_eq. destruct (addDays _ _ _); [|discriminate].
  intros [= <-]. unfold same_text. cbn. auto.
Qed.

Lemma spec_bucket_le (B : Z) (r : Rating) : B <= 5 -> spec_bucket B r <= 5.
Proof.
  intros H. destruct r; unfold spec_bucket, clamp;
    repeat match goal with |- context [Z.ltb ?a ?b] => destruct (Z.ltb_spec a b) end; lia.
Qed.

(** What a call of [rate] that returns has done. *)
Lemma rate_cases lc (tz : TimeZone) (rendered now : Z) (st st' : AppState) (r : Rating) :
  rate lc tz rendered now st r = Some st' ->
  (current lc rendered st = None /\ st' = st)
  \/ exists cur,
       current lc rendered st = Some cur
       /\ mode st' = mode st /\ sessionSize st' = sessionSize st /\ showBack st' = false
       /\ Forall2
            (fun x y =>
               (str_eqb (id x) (id cur) = true
                /\ scheduleNext tz now
                     (with_bucket x (if bucket x =? 0 then 1 else bucket x)) r = Some y)
               \/ (str_eqb (id x) (id cur) = false /\ y = x))
            (all st) (all st').
Proof.
  unfold rate. destruct (current lc rendered st) as [cur|]; [|intros [= <-]; auto].
  destruct (map_raise _ (all st)) as [next|] eqn:E; [|discriminate].
  intros [= <-]. right. exists cur. cbn. repeat split.
  apply map_raise_Forall2 in E. eapply Forall2_impl; [|exact E].
  cbn. intros x y. destruct (str_eqb (id x) (id cur)); [auto|].
  intros [= <-]. auto.
Qed.

Lemma current_In lc (now : Z) (st : AppState) (cur : Term) :
  current lc now st = Some cur -> In cur (queue lc now st).
Proof.
  unfold current, index. cbn. destruct (queue lc now st); [discriminate|].
  cbn. intros [= <-]. auto.
Qed.

(** X1: a call of [rate] that returns keeps the mode, the session size,
    the number and order of the cards and, on every card, the id, term,
    definition, tags and source; a card whose id is that of the current
    card gets the bucket of the table (from 1 when it was 0) and one more
    history entry; every other card stays as it is; with no current card
    the state stays as it is. *)
Theorem rate_touches_only_current lc (tz : TimeZone) (rendered now : Z)
    (st st' : AppState) (r : Rating) :
  rate lc tz rendered now st r = Some st' ->
  mode st' = mode st /\ sessionSize st' = sessionSize st
  /\ Forall2 same_text (all st) (all st')
  /\ (forall cur, current lc rendered st = Some cur ->
        In cur (all st)
        /\ Forall2
             (fun x y =>
                if str_eqb (id x) (id cur)
                then bucket y = spec_bucket (if bucket x =? 0 then 1 else bucket x) r
                     /\ history y = history x ++ [ {| d := ISOString now; rating := r |} ]
                else y = x)
             (all st) (all st'))
  /\ (current lc rendered st = None -> st' = st).
Proof.
  intros H. destruct (rate_cases _ _ _ _ _ _ _ H) as [[E ->] | (cur & E & Hm & Hs & _ & F)].
  - split; [reflexivity|]. split; [reflexivity|]. split; [|split].
    + induction (all st); constructor; [unfold same_text; auto | assumption].
    + intros cur E'. congruence.
    + reflexivity.
  - split; [exact Hm|]. split; [exact Hs|]. split; [|split].
    + eapply Forall2_impl; [|exact F]. cbn.
      intros x y [[_ Hy] | [_ ->]]; [|unfold same_text; auto].
      apply scheduleNext_text in Hy. exact Hy.
    + intros cur' E'. assert (cur' = cur) by congruence. subst cur'. split.
      * apply current_In, In_queue in E. exact E.
      * eapply Forall2_impl; [|exact F]. cbn.
        intros x y [[Hq Hy] | [Hq ->]]; rewrite Hq; [|reflexivity].
        apply scheduleNext_inv in Hy as (Hb & _ & Hh). auto.
    + intros E'. congruence.
Qed.

Lemma rate_touches_only_current_witness :
  exists st', rate str_compare moscow sample_now sample_now (sample_state review 20) easy
              = Some st'
           /\ Forall2 same_text sample_set (all st').
Proof.
  destruct (rate str_compare moscow sample_now sample_now (sample_state review 20) easy)
    as [st'|] eqn:E; [|vm_compute in E; discriminate E].
  exists st'. split; [reflexivity|].
  exact (proj1 (proj2 (proj2 (rate_touches_only_current _ _ _ _ _ _ _ E)))).
Defined.



(** ** A session makes progress *)

Lemma rated_bucket (tz : TimeZone) (now : Z) (x : Term) (r : Rating) (y : Term) :
  scheduleNext tz now (with_bucket x (if bucket x =? 0 then 1 else bucket x)) r = Some y ->
  1 <= bucket y.
Proof.
  intros H. apply scheduleNext_inv in H as (H & _). rewrite H. apply spec_bucket_ge.
Qed.

(** X3: in learn mode a call of [rate] that returns takes the current
    card out of the new cards: the current card was new, strictly fewer
    cards are new afterwards, and the cards that are still new are cards
    that were new before, as they were, with another id. *)
Theorem rate_learn_progress lc (tz : TimeZone) (rendered now : Z) (st st' : AppState)
    (r : Rating) (cur : Term) :
  mode st = learn -> current lc rendered st = Some cur ->
  rate lc tz rendered now st r = Some st' ->
  bucket cur = 0
  /\ (List.length (newCards (all st')) < List.length (newCards (all st)))%nat
  /\ (forall t, In t (newCards (all st')) ->
        In t (newCards (all st)) /\ str_eqb (id t) (id cur) = false).
Proof.
  intros Hm Ec H.
  assert (Hcur : In cur (all st) /\ bucket cur = 0).
  { apply current_In in Ec. unfold queue in Ec. rewrite Hm in Ec. cbn [Mode_eqb] in Ec.
    apply In_slice0, filter_In in Ec as [Hin Hb]. apply Z.eqb_eq in Hb. auto. }
  destruct Hcur as [Hin Hb0].
  destruct (rate_cases _ _ _ _ _ _ _ H) as [[E _] | (cur' & E & _ & _ & _ & F)];
    [congruence|].
  assert (cur' = cur) by congruence. subst cur'.
  assert (F' : Forall2
                 (fun x y => (str_eqb (id x) (id cur) = true /\ (bucket y =? 0) = false)
                             \/ (str_eqb (id x) (id cur) = false /\ y = x))
                 (all st) (all st')).
  { eapply Forall2_impl; [|exact F]. cbn. intros x y [[Hq Hy] | Hn]; [left | auto].
    split; [exact Hq|]. apply rated_bucket in Hy. apply Z.eqb_neq. lia. }
  split; [exact Hb0|]. split.
  - apply (proj2 (filter_length_Forall2 (fun t => bucket t =? 0)
                    (fun x => str_eqb (id x) (id cur)) _ _ F')).
    exists cur. repeat split; [exact Hin | apply str_eqb_refl | apply Z.eqb_eq, Hb0].
  - intros t Ht. unfold newCards in *. apply filter_In in Ht as [Ht Hb].
    destruct (Forall2_In_r _ _ _ _ F' Ht) as (x & Hx & [[_ Hy] | [Hq ->]]); [congruence|].
    split; [apply filter_In; auto | exact Hq].
Qed.

Lemma rate_learn_progress_witness :
  exists st', rate str_compare moscow sample_now sample_now (sample_state learn 20) good
              = Some st'
           /\ newCards (all st') = [].
Proof.
  destruct (rate str_compare moscow sample_now sample_now (sample_state learn 20) good)
    as [st'|] eqn:E; [|vm_compute in E; discriminate E].
  exists st'. split; [reflexivity|].
  destruct (rate_learn_progress str_compare moscow sample_now sample_now
              (sample_state learn 20) st' good (card "b" 0 "2024-02-10" [])
              eq_refl eq_refl E) as (_ & Hlt & _).
  change (newCards (all (sample_state learn 20))) with [card "b" 0 "2024-02-10" []] in Hlt.
  destruct (newCards (all st')); [reflexivity | cbn in Hlt; lia].
Defined.

Lemma index_intervals_pos (b k : Z) :
  index LEITNER_INTERVALS b = Some k -> 1 <= b -> 1 <= k.
Proof.
  intros E Hb. destruct (index_intervals_inv b k E) as [Hr _].
  assert (C : b = 1 \/ b = 2 \/ b = 3 \/ b = 4 \/ b = 5) by lia.
  repeat (destruct C as [-> | C]); try subst b; cbn in E; injection E as <-; lia.
Qed.

(** In a zone with one offset a card that has just been rated is not due
    on the same day. *)
Lemma rated_not_due (c now : Z) (x : Term) (r : Rating) (y : Term) :
  clock_ok now ->
  scheduleNext (fixed_zone c) now
    (with_bucket x (if bucket x =? 0 then 1 else bucket x)) r = Some y ->
  (0 <? bucket y) && str_leb (due y) (todayISO now) = false.
Proof.
  intros Hc H. pose proof (rated_bucket _ _ _ _ _ H) as Hb.
  destruct (proj1 (proj2 (scheduleNext_due_fixed c now _ r Hc)) y H) as (k & Ek & _ & Ed).
  pose proof (index_intervals_pos _ _ Ek Hb) as Hk.
  destruct (index_intervals_inv _ _ Ek) as [_ Hk'].
  destruct (clock_ok_range now k Hc Hk') as (_ & Hlo & Hhi).
  rewrite Ed, (str_leb_today (Day now + k) now ltac:(unfold minDay, maxDay in *; lia) Hc).
  destruct (Z.leb_spec (Day now + k) (Day now)); [lia|]. apply andb_false_r.
Qed.



(** X5: a better rating never gives a lower bucket: for two calls of
    [scheduleNext] on one card that return, the call with the rating later
    in again, hard, good, easy gives a bucket at least as high, and in a
    zone with one offset a due date at least as late. *)
Theorem scheduleNext_ratings_ordered (tz : TimeZone) (now : Z) (t : Term)
    (r1 r2 : Rating) (t1 t2 : Term) :
  rating_rank r1 <= rating_rank r2 ->
  scheduleNext tz now t r1 = Some t1 -> scheduleNext tz now t r2 = Some t2 ->
  bucket t1 <= bucket t2
  /\ (forall c, tz = fixed_zone c -> clock_ok now ->
        str_compare (due t1) (due t2) <> Gt).
Proof.
  intros Hr H1 H2.
  assert (Hb : bucket t1 <= bucket t2).
  { pose proof (scheduleNext_inv _ _ _ _ _ H1) as (E1 & A1 & _).
    pose proof (scheduleNext_inv _ _ _ _ _ H2) as (E2 & A2 & _).
    assert (B1 : bucket t1 <= 5).
    { destruct (index LEITNER_INTERVALS (bucket t1)) as [k|] eqn:E.
      - apply index_intervals_inv in E. lia.
      - rewrite addDays_undefined in A1. discriminate. }
    assert (B2 : bucket t2 <= 5).
    { destruct (index LEITNER_INTERVALS (bucket t2)) as [k|] eqn:E.
      - apply index_intervals_inv in E. lia.
      - rewrite addDays_undefined in A2. discriminate. }
    rewrite E1, E2 in *. clear - Hr B1 B2.
    destruct r1, r2; cbn in Hr; try lia; unfold spec_bucket, clamp in *;
      repeat match goal with
             | |- context [Z.ltb ?a ?b] => destruct (Z.ltb_spec a b)
             | H : context [Z.ltb ?a ?b] |- _ => destruct (Z.ltb_spec a b)
             end; lia. }
  split; [exact Hb|]. intros c -> Hc.
  destruct (proj1 (proj2 (scheduleNext_due_fixed c now t r1 Hc)) t1 H1) as (k1 & I1 & N1 & D1).
  destruct (proj1 (proj2 (scheduleNext_due_fixed c now t r2 Hc)) t2 H2) as (k2 & I2 & N2 & D2).
  assert (Hk : k1 <= k2).
  { destruct (index_intervals_inv _ _ I1) as [R1 _].
    destruct (index_intervals_inv _ _ I2) as [R2 _].
    assert (C1 : bucket t1 = 0 \/ bucket t1 = 1 \/ bucket t1 = 2 \/ bucket t1 = 3
                 \/ bucket t1 = 4 \/ bucket t1 = 5) by lia.
    assert (C2 : bucket t2 = 0 \/ bucket t2 = 1 \/ bucket t2 = 2 \/ bucket t2 = 3
                 \/ bucket t2 = 4 \/ bucket t2 = 5) by lia.
    repeat (destruct C1 as [C1 | C1]); rewrite C1 in *; cbn in I1; injection I1 as <-;
      repeat (destruct C2 as [C2 | C2]); rewrite C2 in *; cbn in I2; injection I2 as <-;
      lia. }
  destruct (index_intervals_inv _ _ I1) as [_ K1].
  destruct (index_intervals_inv _ _ I2) as [_ K2].
  destruct (clock_ok_range now k1 Hc K1) as (_ & L1 & U1).
  destruct (clock_ok_range now k2 Hc K2) as (_ & L2 & U2).
  rewrite D1, D2, str_compare_isoDate by (unfold minDay, maxDay in *; lia).
  apply Z.compare_le_iff. lia.
Qed.

Lemma scheduleNext_ratings_ordered_witness :
  exists t1 t2,
    scheduleNext berlin march_25 (card "x5" 2 "2024-03-25" [sample_entry]) again = Some t1
    /\ scheduleNext berlin march_25 (card "x5" 2 "2024-03-25" [sample_entry]) easy = Some t2
    /\ bucket t1 <= bucket t2.
Proof.
  destruct (scheduleNext berlin march_25 (card "x5" 2 "2024-03-25" [sample_entry]) again)
    as [t1|] eqn:E1; [|vm_compute in E1; discriminate E1].
  destruct (scheduleNext berlin march_25 (card "x5" 2 "2024-03-25" [sample_entry]) easy)
    as [t2|] eqn:E2; [|vm_compute in E2; discriminate E2].
  exists t1, t2. split; [reflexivity|]. split; [reflexivity|].
  exact (proj1 (scheduleNext_ratings_ordered berlin march_25 _ again easy t1 t2
                  ltac:(cbn; lia) E1 E2)).
Defined.

(** ** Reset, delete, session size, counters *)

Lemma same_text_refl (t : Term) : same_text t t.
Proof. unfold same_text. auto. Qed.

(** X6: [resetProgress] without the confirmation changes nothing; with
    it, every card keeps its place, id, term, definition, tags and source
    and becomes new (bucket 0, due today, no history), the mode is learn,
    every card is a new card, no card is due at any time, and a second
    reset at the same instant changes nothing more. *)
Theorem resetProgress_effect lc (now : Z) (st : AppState) :
  resetProgress false now st = st
  /\ (let st' := resetProgress true now st in
      mode st' = learn /\ sessionSize st' = sessionSize st
      /\ Forall2 same_text (all st) (all st')
      /\ Forall (reset_card now) (all st')
      /\ newCards (all st') = all st'
      /\ (forall now', dueToday lc now' (all st') = [])
      /\ resetProgress true now st' = st').
Proof.
  split; [reflexivity|]. cbv zeta. unfold resetProgress. cbn [negb mode all sessionSize showBack].
  split; [reflexivity|]. split; [reflexivity|].
  split; [|split; [|split; [|split]]].
  - induction (all st) as [|x l IH]; cbn; constructor; [unfold same_text; cbn; auto | exact IH].
  - apply Forall_forall. intros y Hy. apply in_map_iff in Hy as (x & <- & _).
    unfold reset_card. cbn. auto.
  - unfold newCards. induction (all st) as [|x l IH]; cbn; [reflexivity|]. f_equal. exact IH.
  - intros now'. unfold dueToday.
    replace (filter _ (map _ (all st))) with (@nil Term); [reflexivity|].
    induction (all st) as [|x l IH]; cbn; [reflexivity | exact IH].
  - f_equal. rewrite map_map. cbn. reflexivity.
Qed.

Lemma Forall2_same_text_ids (P : jsstring -> Prop) (l l' : list Term) :
  Forall2 same_text l l' -> Forall (fun x => P (id x)) l -> Forall (fun x => P (id x)) l'.
Proof.
  induction 1 as [|x y l l' Hxy _ IH]; intros H; [constructor|].
  inversion H as [|? ? Hx Hl]; subst. constructor; [|auto].
  destruct Hxy as (E & _). rewrite <- E. exact Hx.
Qed.

Lemma rate_same_text lc (tz : TimeZone) (rendered now : Z) (st st' : AppState) (r : Rating) :
  rate lc tz rendered now st r = Some st' -> Forall2 same_text (all st) (all st').
Proof.
  intros H. destruct (rate_cases _ _ _ _ _ _ _ H) as [[_ ->] | (cur & _ & _ & _ & _ & F)].
  - induction (all st); constructor; [apply same_text_refl | assumption].
  - eapply Forall2_impl; [|exact F]. cbn.
    intros x y [[_ Hy] | [_ ->]]; [|apply same_text_refl].
    exact (scheduleNext_text _ _ _ _ _ Hy).
Qed.

(** An event that makes no card brings no id into the set. *)
Lemma handle_keeps_ids_out lc (tz : TimeZone) (st : AppState) (e : Event)
    (P : jsstring -> Prop) :
  makes_no_card e = true ->
  Forall (fun x => P (id x)) (all st) -> Forall (fun x => P (id x)) (all (handle lc tz st e)).
Proof.
  intros He H.
  destruct e as [rendered now r | uid now tm df tg | uid now csv | confirmed now
                | t | m | | value]; cbn [handle]; try discriminate He; try exact H.
  - destruct (rate lc tz rendered now st r) as [st'|] eqn:E; [|exact H].
    exact (Forall2_same_text_ids P _ _ (rate_same_text _ _ _ _ _ _ _ E) H).
  - unfold resetProgress. destruct (negb confirmed); [exact H|]. cbn [all].
    apply Forall_forall. intros y Hy. apply in_map_iff in Hy as (x & <- & Hx). cbn.
    exact (proj1 (Forall_forall _ _) H x Hx).
  - cbn [deleteTerm all]. apply Forall_filter, H.
Qed.

(** X7: the delete button removes exactly the cards with the id of the
    card, keeps the others in their order, and the id stays away: after
    any further events other than adding and importing, no card of the
    set and no card of a queue has it. *)
Theorem deleted_card_stays_away lc (tz : TimeZone) (t : Term) (st : AppState)
    (es : list Event) :
  forallb makes_no_card es = true ->
  all (deleteTerm t st) = filter (fun x => negb (str_eqb (id x) (id t))) (all st)
  /\ (forall x, In x (all (run lc tz (deleteTerm t st) es)) ->
        str_eqb (id x) (id t) = false)
  /\ (forall now x, In x (queue lc now (run lc tz (deleteTerm t st) es)) ->
        str_eqb (id x) (id t) = false).
Proof.
  intros Hes. split; [reflexivity|].
  assert (H : Forall (fun x => str_eqb (id x) (id t) = false)
                (all (run lc tz (deleteTerm t st) es))).
  { assert (H0 : Forall (fun x => str_eqb (id x) (id t) = false) (all (deleteTerm t st))).
    { cbn [deleteTerm all]. apply Forall_forall. intros x Hx.
      apply filter_In in Hx as [_ Hx]. apply negb_true_iff in Hx. exact Hx. }
    revert H0 Hes. generalize (deleteTerm t st). unfold run.
    induction es as [|e es IH]; intros s0 H0 Hes; cbn [fold_left]; [exact H0|].
    cbn [forallb] in Hes. apply andb_true_iff in Hes as [He Hes].
    apply IH; [|exact Hes].
    exact (handle_keeps_ids_out lc tz s0 e (fun i => str_eqb i (id t) = false) He H0). }
  split.
  - intros x Hx. exact (proj1 (Forall_forall _ _) H x Hx).
  - intros now x Hx. apply In_queue in Hx. exact (proj1 (Forall_forall _ _) H x Hx).
Qed.

Lemma deleted_card_stays_away_witness :
  map id (all (run str_compare moscow
                 (deleteTerm (card "c" 0 "" []) (sample_state review 20))
                 [Rate sample_now sample_now good; Reset true sample_now; SetMode learn]))
  = [str "a"; str "b"; str "d"; str "e"]
  /\ forall x,
       In x (all (run str_compare moscow
                    (deleteTerm (card "c" 0 "" []) (sample_state review 20))
                    [Rate sample_now sample_now good; Reset true sample_now; SetMode learn])) ->
       str_eqb (id x) (str "c") = false.
Proof.
  split; [vm_compute; reflexivity|].
  exact (proj1 (proj2 (deleted_card_stays_away str_compare moscow (card "c" 0 "" [])
                         (sample_state review 20)
                         [Rate sample_now sample_now good; Reset true sample_now; SetMode learn]
                         eq_refl))).
Defined.

Lemma handle_session_size lc (tz : TimeZone) (st : AppState) (e : Event) :
  5 <= sessionSize st -> 5 <= sessionSize (handle lc tz st e).
Proof.
  intros H.
  destruct e as [rendered now r | uid now tm df tg | uid now csv | confirmed now
                | t | m | | value]; cbn [handle]; try exact H.
  - destruct (rate lc tz rendered now st r) as [st'|] eqn:E; [|exact H].
    destruct (rate_cases _ _ _ _ _ _ _ E) as [[_ ->] | (cur & _ & _ & Hs & _)]; [exact H|].
    rewrite Hs. exact H.
  - unfold addOne. destruct (negb _); exact H.
  - unfold importCSV. cbv zeta. destruct (mapi_from _ _ _); exact H.
  - unfold resetProgress. destruct (negb confirmed); exact H.
  - cbn. lia.
Qed.

(** X8: the session size starts at 20 and no event brings it below 5, so
    in every state the application reaches the queue holds at most that
    many cards: the first ones of the cards due today, or of the new
    cards. *)
Theorem session_size_at_least_5 lc (tz : TimeZone) (loaded : list Term)
    (es : list Event) (now : Z) :
  let st := run lc tz (initial loaded) es in
  5 <= sessionSize st
  /\ Z.of_nat (List.length (queue lc now st)) <= sessionSize st
  /\ queue lc now st
     = match mode st with
       | review => firstn (Z.to_nat (sessionSize st)) (dueToday lc now (all st))
       | learn => firstn (Z.to_nat (sessionSize st)) (newCards (all st))
       | browse => []
       end.
Proof.
  cbv zeta.
  assert (H : 5 <= sessionSize (run lc tz (initial loaded) es)).
  { assert (H0 : 5 <= sessionSize (initial loaded)) by (cbn; lia).
    revert H0. generalize (initial loaded). unfold run.
    induction es as [|e es IH]; intros s0 H0; cbn [fold_left]; [exact H0|].
    apply IH, handle_session_size, H0. }
  set (st := run lc tz (initial loaded) es) in *. clearbody st.
  assert (E : queue lc now st
              = match mode st with
                | review => firstn (Z.to_nat (sessionSize st)) (dueToday lc now (all st))
                | learn => firstn (Z.to_nat (sessionSize st)) (newCards (all st))
                | browse => []
                end).
  { unfold queue. destruct (mode st); cbn [Mode_eqb];
      rewrite ?slice0_firstn by lia; reflexivity. }
  split; [exact H|]. split; [|exact E].
  rewrite E. destruct (mode st); rewrite ?length_firstn; cbn [List.length]; lia.
Qed.

(** X9: the counters of the dashboard: mastered <= learned <= total; when
    no bucket is negative, total = learned + the number of new cards; and
    after a confirmed reset nothing is learned. *)
Theorem progress_counts (l : list Term) :
  0 <= mastered (progress l) <= learned (progress l)
  /\ learned (progress l) <= total (progress l)
  /\ (Forall (fun t => 0 <= bucket t) l ->
        total (progress l) = learned (progress l) + Z.of_nat (List.length (newCards l)))
  /\ (forall now st, learned (progress (all (resetProgress true now st))) = 0).
Proof.
  unfold progress, newCards. cbn [total learned mastered].
  split; [|split; [|split]].
  - split; [lia|]. apply inj_le.
    induction l as [|x l IH]; cbn; [lia|].
    destruct (Z.leb_spec 5 (bucket x)), (Z.ltb_spec 0 (bucket x)); cbn; lia.
  - apply inj_le, filter_length_le.
  - intros H. rewrite <- Nat2Z.inj_add. f_equal.
    induction H as [|x l Hx _ IH]; cbn; [reflexivity|].
    destruct (Z.ltb_spec 0 (bucket x)), (Z.eqb_spec (bucket x) 0); cbn; lia.
  - intros now st. cbn [resetProgress negb all].
    replace (filter _ (map _ (all st))) with (@nil Term); [reflexivity|].
    induction (all st) as [|x l' IH]; cbn; [reflexivity | exact IH].
Qed.

Lemma firstn_firstn_le {A} (n m : nat) (l : list A) :
  (n <= m)%nat -> firstn n (firstn m l) = firstn n l.
Proof. intros H. rewrite firstn_firstn. f_equal. lia. Qed.

(** X10: a larger session size only adds cards at the end of the queue:
    for sizes 5 <= v1 <= v2 typed into the box, the queue for v1 is the
    first v1 cards of the queue for v2. *)
Theorem queue_grows_with_session_size lc (now v1 v2 : Z) (st : AppState) :
  5 <= v1 <= v2 ->
  queue lc now (setSessionSize (Some v1) st)
  = firstn (Z.to_nat v1) (queue lc now (setSessionSize (Some v2) st)).
Proof.
  intros H. unfold queue, setSessionSize. cbn [mode all sessionSize].
  destruct (Z.eqb_spec v1 0); [lia|]. destruct (Z.eqb_spec v2 0); [lia|].
  rewrite !Z.max_r by lia.
  destruct (Mode_eqb (mode st) review); [|destruct (Mode_eqb (mode st) learn)];
    rewrite ?slice0_firstn by lia; [| |destruct (Z.to_nat v1); reflexivity];
    symmetry; apply firstn_firstn_le; lia.
Qed.

Lemma queue_grows_with_session_size_witness :
  queue str_compare sample_now (setSessionSize (Some 5) (sample_state review 20))
  = firstn 5 (queue str_compare sample_now (setSessionSize (Some 8) (sample_state review 20))).
Proof.
  apply (queue_grows_with_session_size str_compare sample_now 5 8 (sample_state review 20)).
  lia.
Defined.



(** ** Trimming and splitting *)

Lemma trimStart_head (s : jsstring) :
  trimStart s = [] \/ exists c r, trimStart s = c :: r /\ is_js_space c = false.
Proof.
  induction s as [|c r IH]; [left; reflexivity|].
  cbn. destruct (is_js_space c) eqn:E; [exact IH|].
  right. exists c, r. auto.
Qed.

Lemma trimStart_idem (s : jsstring) : trimStart (trimStart s) = trimStart s.
Proof.
  destruct (trimStart_head s) as [-> | (c & r & -> & H)]; [reflexivity|].
  cbn. rewrite H. reflexivity.
Qed.

Lemma trimStart_suffix (s : jsstring) : exists p, s = p ++ trimStart s.
Proof.
  induction s as [|c r (p & IH)]; [exists []; reflexivity|].
  cbn. destruct (is_js_space c); [|exists []; reflexivity].
  exists (c :: p). cbn. f_equal. exact IH.
Qed.

Lemma trim_idem (s : jsstring) : trim (trim s) = trim s.
Proof.
  unfold trim.
  set (u := trimStart s).
  destruct (trimStart (rev u)) as [|c v] eqn:Ev; [reflexivity|].
  assert (H : trimStart (rev (c :: v)) = rev (c :: v)).
  { destruct (trimStart_suffix (rev u)) as (p & Hp). rewrite Ev in Hp.
    apply (f_equal (@rev Z)) in Hp. rewrite rev_involutive, rev_app_distr in Hp.
    destruct (rev (c :: v)) as [|x w] eqn:Ew.
    - apply (f_equal (@List.length Z)) in Ew. rewrite length_rev in Ew. discriminate Ew.
    - destruct (trimStart_head s) as [E | (y & r & E & Hy)]; fold u in E; rewrite E in Hp.
      + discriminate Hp.
      + cbn in Hp. injection Hp as -> _. cbn. rewrite Hy. reflexivity. }
  rewrite H, rev_involutive, <- Ev, trimStart_idem. reflexivity.
Qed.

Lemma split_acc_piece (is_sep : Z -> bool) (p acc : jsstring) :
  Forall (fun c => is_sep c = false) p ->
  split_acc is_sep acc p = [rev acc ++ p]
  /\ forall c r, is_sep c = true ->
       split_acc is_sep acc (p ++ c :: r) = (rev acc ++ p) :: split_acc is_sep [] r.
Proof.
  intros H. revert acc. induction H as [|x p Hx _ IH]; intros acc.
  - cbn. rewrite app_nil_r. split; [reflexivity|]. intros c r ->. reflexivity.
  - cbn. rewrite Hx. destruct (IH (x :: acc)) as [E1 E2]. cbn [rev] in E1, E2.
    rewrite <- app_assoc in E1, E2. cbn in E1, E2. split; [exact E1 | exact E2].
Qed.

Lemma split_on_join (is_sep : Z -> bool) (c : Z) (pieces : list jsstring) :
  is_sep c = true -> Forall (Forall (fun x => is_sep x = false)) pieces -> pieces <> [] ->
  split_on is_sep (join [c] pieces) = pieces.
Proof.
  intros Hc H. unfold split_on. induction H as [|x l Hx Hl IH]; intros Hne; [exfalso; apply Hne; reflexivity|].
  destruct l as [|y l].
  - cbn [join]. exact (proj1 (split_acc_piece is_sep x [] Hx)).
  - change (join [c] (x :: y :: l)) with (x ++ c :: join [c] (y :: l)).
    rewrite (proj2 (split_acc_piece is_sep x [] Hx) c _ Hc). cbn [rev app].
    f_equal. apply IH. discriminate.
Qed.

Lemma split_lines_acc_piece (p acc : jsstring) :
  plain_line p ->
  split_lines_acc acc p = [rev acc ++ p]
  /\ (forall r, split_lines_acc acc (p ++ 10 :: r) = (rev acc ++ p) :: split_lines_acc [] r)
  /\ (forall r, split_lines_acc acc (p ++ 13 :: 10 :: r)
                = (rev acc ++ p) :: split_lines_acc [] r).
Proof.
  intros H. revert acc. induction H as [|x p [H10 H13] _ IH]; intros acc.
  - cbn. rewrite app_nil_r. auto.
  - apply Z.eqb_neq in H10, H13.
    destruct (IH (x :: acc)) as (E1 & E2 & E3). cbn [rev] in E1, E2, E3.
    rewrite <- app_assoc in E1, E2, E3. cbn [app] in E1, E2, E3.
    split; [|split].
    + cbn [split_lines_acc]. rewrite H10, H13. cbn [andb]. destruct p; exact E1.
    + intros r. cbn [split_lines_acc app]. rewrite H10, H13. cbn [andb].
      destruct (p ++ 10 :: r) eqn:E; [destruct p; discriminate E|]. rewrite <- E. apply E2.
    + intros r. cbn [split_lines_acc app]. rewrite H10, H13. cbn [andb].
      destruct (p ++ 13 :: 10 :: r) eqn:E; [destruct p; discriminate E|]. rewrite <- E. apply E3.
Qed.

Lemma split_lines_join (sep : jsstring) (lines : list jsstring) :
  sep = [10] \/ sep = [13; 10] -> Forall plain_line lines -> lines <> [] ->
  split_lines (join sep lines) = lines.
Proof.
  intros Hsep H. unfold split_lines. induction H as [|x l Hx Hl IH]; intros Hne; [exfalso; apply Hne; reflexivity|].
  destruct l as [|y l].
  - cbn [join]. exact (proj1 (split_lines_acc_piece x [] Hx)).
  - change (join sep (x :: y :: l)) with (x ++ sep ++ join sep (y :: l)).
    destruct (split_lines_acc_piece x [] Hx) as (_ & E2 & E3).
    destruct Hsep as [-> | ->]; cbn [app]; rewrite ?E2, ?E3; cbn [rev app];
      f_equal; apply IH; discriminate.
Qed.

Lemma mapi_from_ids (uid : IdSupply) (now : Z) (rows : list jsstring) (i : nat) :
  map id (mapi_from i (parse_row uid now) rows) = map uid (seq i (List.length rows)).
Proof.
  revert i. induction rows as [|r rows IH]; intros i; [reflexivity|].
  cbn. f_equal. apply IH.
Qed.

(** ** Adding and importing cards *)

(** X12: [addOne] leaves the state as it was when the first prompt is
    cancelled or left empty; else it puts one new card after the cards
    there are, with the term and the definition as typed, and with the
    pieces of the tag text between commas, trimmed, that are not empty:
    no tag of the card is empty or has white space at an end. *)
Theorem addOne_effect (uid : IdSupply) (now : Z) (st : AppState)
    (term definition tags : option jsstring) :
  (term = None \/ term = Some [] -> addOne uid now st term definition tags = st)
  /\ (forall c s, term = Some (c :: s) ->
      exists tg,
        addOne uid now st term definition tags
        = {| mode := mode st;
             all := all st ++ [fresh (uid 0%nat) (c :: s) (or_empty definition) tg now];
             showBack := showBack st; sessionSize := sessionSize st |}
        /\ tg = filter nonempty (map trim (split_on is_comma (or_empty tags)))
        /\ Forall (fun g => g <> [] /\ trimmed g) tg).
Proof.
  split.
  - intros [-> | ->]; reflexivity.
  - intros c s ->. eexists. split; [reflexivity|]. split; [reflexivity|].
    apply Forall_forall. intros g Hg. apply filter_In in Hg as [Hg Hne].
    apply in_map_iff in Hg as (p & <- & _). split.
    + intros E. rewrite E in Hne. discriminate Hne.
    + apply trim_idem.
Qed.

(** X13: the import reads lines that end in a line feed or in a carriage
    return and a line feed alike: for lines without these two code units,
    of which one at least is not blank, the new card set has one card per
    line that is not blank, in the order of the lines, made from the
    trimmed line, with the ids in the order in which they are drawn. *)
Theorem importCSV_lines (uid : IdSupply) (now : Z) (st : AppState)
    (sep : jsstring) (lines : list jsstring) :
  sep = [10] \/ sep = [13; 10] ->
  Forall plain_line lines ->
  filter nonempty (map trim lines) <> [] ->
  let st' := importCSV uid now st (join sep lines) in
  mode st' = learn
  /\ all st' = mapi_from 0 (parse_row uid now) (filter nonempty (map trim lines))
  /\ map id (all st')
     = map uid (seq 0 (List.length (filter nonempty (map trim lines)))).
Proof.
  intros Hsep Hl Hne. cbv zeta.
  assert (Hlines : lines <> []) by (intros ->; apply Hne; reflexivity).
  assert (E : split_lines (join sep lines) = lines) by (apply split_lines_join; assumption).
  rewrite importCSV_rows by (rewrite E; exact Hne).
  cbn [mode all]. rewrite E. split; [reflexivity|]. split; [reflexivity|].
  apply mapi_from_ids.
Qed.

Lemma importCSV_lines_witness :
  all (importCSV sample_uid sample_now (sample_state review 20)
         (str "a;b" ++ [13; 10] ++ str "  " ++ [13; 10] ++ 32 :: str "c" ++ 9 :: str "d;x, y"))
  = [fresh (str "id00") (str "a") (str "b") [] sample_now;
     fresh (str "id01") (str "c") (str "d") [str "x"; str "y"] sample_now].
Proof.
  destruct (importCSV_lines sample_uid sample_now (sample_state review 20) [13; 10]
              [str "a;b"; str "  "; 32 :: str "c" ++ 9 :: str "d;x, y"])
    as (_ & E & _).
  - right. reflexivity.
  - repeat constructor; discriminate.
  - vm_compute. discriminate.
  - etransitivity; [exact E|]. vm_compute. reflexivity.
Defined.

Lemma plain_tags_field (gs : list jsstring) :
  Forall plain_tag gs -> plain_field (join [44] gs).
Proof.
  unfold plain_field. induction 1 as [|g l Hg Hl IH]; [constructor|].
  assert (Hg' : Forall (fun c => is_field_sep c = false) g)
    by (eapply Forall_impl; [|exact Hg]; cbn; tauto).
  destruct l as [|y l]; [exact Hg'|].
  change (join [44] (g :: y :: l)) with (g ++ 44 :: join [44] (y :: l)).
  apply Forall_app. split; [exact Hg'|]. constructor; [reflexivity | exact IH].
Qed.



(** ** [JSON.parse] reads what [JSON.stringify] writes *)

Lemma JSON_induction (P : JSON -> Prop) :
  P JNull -> (forall b, P (JBool b)) -> (forall m e, P (JNumber m e)) ->
  (forall s, P (JString s)) ->
  (forall items, Forall P items -> P (JArray items)) ->
  (forall members, Forall (fun kv => P (snd kv)) members -> P (JObject members)) ->
  forall v, P v.
Proof.
  intros H1 H2 H3 H4 H5 H6. fix IH 1. intros [ | b | m e | s | items | members].
  - exact H1.
  - apply H2.
  - apply H3.
  - apply H4.
  - apply H5. induction items as [|x r IHr]; constructor; [apply IH | exact IHr].
  - apply H6. induction members as [|kv r IHr]; constructor; [apply IH | exact IHr].
Qed.

Ltac decide_order :=
  repeat match goal with
         | |- context [?a <=? ?b] => destruct (Z.leb_spec a b); try lia
         | |- context [?a <? ?b] => destruct (Z.ltb_spec a b); try lia
         | |- context [?a =? ?b] => destruct (Z.eqb_spec a b); try lia
         end.

Lemma hex_digit_hex_char (h : Z) : 0 <= h < 16 -> hex_digit (hex_char h) = Some h.
Proof.
  intros H. unfold hex_digit, hex_char.
  destruct (Z.ltb_spec h 10); decide_order; cbn [andb]; f_equal; lia.
Qed.

Lemma step_hex (h v : Z) (n : nat) (acc : jsstring) (p : Parser) :
  0 <= h < 16 ->
  parse_step (hex_char h) (LUnicode acc n v, p)
  = Some (match n with
          | 3%nat => (LString ((16 * v + h) :: acc), p)
          | _ => (LUnicode acc (S n) (16 * v + h), p)
          end).
Proof.
  intros H. unfold parse_step. rewrite (hex_digit_hex_char h H).
  destruct n as [|[|[|[|n]]]]; reflexivity.
Qed.

Lemma parse_run_cons (c : Z) (r : jsstring) (lp lp' : Lex * Parser) :
  parse_step c lp = Some lp' -> parse_run (c :: r) lp = parse_run r lp'.
Proof. intros H. cbn [parse_run]. rewrite H. reflexivity. Qed.

Lemma parse_unicode_escape (c : Z) (acc rest : jsstring) (p : Parser) :
  code_unit c ->
  parse_run (unicode_escape c ++ rest) (LString acc, p)
  = parse_run rest (LString (c :: acc), p).
Proof.
  intros H. unfold code_unit in H. unfold unicode_escape.
  change (str "\u") with [92; 117]. cbn [app].
  assert (H1 : 0 <= c / 4096 < 16)
    by (split; [apply Z.div_pos | apply Z.div_lt_upper_bound]; lia).
  assert (H2 : 0 <= (c / 256) mod 16 < 16) by (apply Z.mod_pos_bound; lia).
  assert (H3 : 0 <= (c / 16) mod 16 < 16) by (apply Z.mod_pos_bound; lia).
  assert (H4 : 0 <= c mod 16 < 16) by (apply Z.mod_pos_bound; lia).
  rewrite (parse_run_cons 92 _ (LString acc, p) (LEscape acc, p) eq_refl).
  rewrite (parse_run_cons 117 _ (LEscape acc, p) (LUnicode acc 0 0, p) eq_refl).
  rewrite (parse_run_cons _ _ _ _ (step_hex _ 0 0 acc p H1)).
  rewrite (parse_run_cons _ _ _ _ (step_hex _ _ 1 acc p H2)).
  rewrite (parse_run_cons _ _ _ _ (step_hex _ _ 2 acc p H3)).
  rewrite (parse_run_cons _ _ _ _ (step_hex _ _ 3 acc p H4)).
  do 4 f_equal. clear H1 H2 H3 H4. Z.div_mod_to_equations. lia.
Qed.

Lemma step_raw (c : Z) (acc : jsstring) (p : Parser) :
  c <> 34 -> c <> 92 -> 32 <= c ->
  parse_step c (LString acc, p) = Some (LString (c :: acc), p).
Proof. intros. unfold parse_step. decide_order. reflexivity. Qed.

Lemma parse_quote_unit (c : Z) (acc rest : jsstring) (p : Parser) :
  code_unit c ->
  parse_run (quote_unit c ++ rest) (LString acc, p)
  = parse_run rest (LString (c :: acc), p).
Proof.
  intros H. unfold quote_unit.
  destruct (Z.eqb_spec c 8) as [->|]; [reflexivity|].
  destruct (Z.eqb_spec c 9) as [->|]; [reflexivity|].
  destruct (Z.eqb_spec c 10) as [->|]; [reflexivity|].
  destruct (Z.eqb_spec c 12) as [->|]; [reflexivity|].
  destruct (Z.eqb_spec c 13) as [->|]; [reflexivity|].
  destruct (Z.eqb_spec c 34) as [->|]; [reflexivity|].
  destruct (Z.eqb_spec c 92) as [->|]; [reflexivity|].
  destruct ((c <? 32) || is_high_surrogate c || is_low_surrogate c) eqn:E.
  - apply parse_unicode_escape, H.
  - apply orb_false_iff in E as [E _]. apply orb_false_iff in E as [E _].
    apply Z.ltb_ge in E. cbn [app].
    apply parse_run_cons, step_raw; assumption.
Qed.

Lemma parse_quote_units (s : jsstring) :
  wf_string s ->
  forall acc rest p,
    parse_run (quote_units s ++ rest) (LString acc, p)
    = parse_run rest (LString (rev s ++ acc), p).
Proof.
  intros H.
  enough (G : (forall acc rest p,
                 parse_run (quote_units s ++ rest) (LString acc, p)
                 = parse_run rest (LString (rev s ++ acc), p))
              /\ forall c, code_unit c -> forall acc rest p,
                 parse_run (quote_units (c :: s) ++ rest) (LString acc, p)
                 = parse_run rest (LString (rev (c :: s) ++ acc), p))
    by exact (proj1 G).
  induction H as [|x s Hx Hs [IH1 IH2]].
  - split; [reflexivity|]. intros c Hc acc rest p. cbn [quote_units rev app].
    apply parse_quote_unit, Hc.
  - split; [exact (IH2 x Hx)|]. intros c Hc acc rest p.
    change (quote_units (c :: x :: s))
      with (if is_high_surrogate c && is_low_surrogate x
            then c :: x :: quote_units s
            else quote_unit c ++ quote_units (x :: s)).
    destruct (is_high_surrogate c && is_low_surrogate x) eqn:E.
    + apply andb_true_iff in E as [E1 E2].
      unfold is_high_surrogate in E1. unfold is_low_surrogate in E2.
      apply andb_true_iff in E1 as [E1 _]. apply andb_true_iff in E2 as [E2 _].
      apply Z.leb_le in E1, E2.
      cbn [app].
      rewrite (parse_run_cons c _ _ _ (step_raw c acc p ltac:(lia) ltac:(lia) ltac:(lia))).
      rewrite (parse_run_cons x _ _ _ (step_raw x (c :: acc) p ltac:(lia) ltac:(lia) ltac:(lia))).
      rewrite IH1.
      cbn [rev]. rewrite <- !app_assoc. reflexivity.
    + rewrite <- app_assoc, parse_quote_unit by exact Hc. rewrite (IH2 x Hx).
      cbn [rev]. rewrite <- !app_assoc. reflexivity.
Qed.

Lemma parse_json_string (s rest : jsstring) (p p' : Parser) :
  wf_string s ->
  expects_value (expect p) || expects_key (expect p) = true ->
  complete_string s p = Some p' ->
  parse_run (json_string s ++ rest) (LIdle, p) = parse_run rest (LIdle, p').
Proof.
  intros Hs He Hc. unfold json_string. cbn [app].
  assert (S1 : parse_step 34 (LIdle, p) = Some (LString [], p)).
  { change (parse_step 34 (LIdle, p))
      with (if expects_value (expect p) || expects_key (expect p)
            then Some (LString [], p) else None).
    rewrite He. reflexivity. }
  rewrite (parse_run_cons _ _ _ _ S1), <- app_assoc, (parse_quote_units s Hs).
  cbn [app parse_run].
  change (parse_step 34 (LString (rev s ++ []), p))
    with (option_map (pair LIdle) (complete_string (rev (rev s ++ [])) p)).
  rewrite app_nil_r, rev_involutive, Hc. reflexivity.
Qed.

(** *** Numbers *)

Lemma str_string_of_uint (u : Decimal.uint) :
  str (NilEmpty.string_of_uint u) = map (Z.add 48) (uint_digits u).
Proof.
  induction u as [|u IH|u IH|u IH|u IH|u IH|u IH|u IH|u IH|u IH|u IH];
    [reflexivity|..];
    cbn [NilEmpty.string_of_uint uint_digits map]; rewrite <- IH; reflexivity.
Qed.

Lemma uint_digits_range (u : Decimal.uint) : Forall (fun k => 0 <= k <= 9) (uint_digits u).
Proof. induction u; cbn; constructor; try lia; assumption. Qed.

Lemma of_uint_acc_value (u : Decimal.uint) (acc : positive) :
  Z.pos (Pos.of_uint_acc u acc)
  = fold_left (fun a k => 10 * a + k) (uint_digits u) (Z.pos acc).
Proof.
  revert acc. induction u; intros acc; cbn [Pos.of_uint_acc uint_digits fold_left];
    [reflexivity|..]; rewrite IHu; f_equal; lia.
Qed.

(** The decimal of a positive number starts with a digit other than 0. *)
Lemma to_uint_digits (p : positive) :
  exists k l, uint_digits (Pos.to_uint p) = k :: l /\ 1 <= k <= 9
              /\ Forall (fun k => 0 <= k <= 9) l
              /\ fold_left (fun a k => 10 * a + k) l k = Z.pos p.
Proof.
  pose proof (DecimalPos.Unsigned.of_to p) as Hof.
  pose proof (DecimalPos.Unsigned.to_of (Pos.to_uint p)) as Hto.
  rewrite Hof in Hto. cbn [N.to_uint] in Hto.
  pose proof (DecimalPos.Unsigned.to_uint_nonzero p) as Hnz.
  pose proof (DecimalFacts.nzhead_nonzero (Pos.to_uint p)) as Hhead.
  assert (Hn : Pos.to_uint p = Decimal.nzhead (Pos.to_uint p)).
  { rewrite Hto at 1. unfold Decimal.unorm.
    destruct (Decimal.nzhead (Pos.to_uint p)) eqn:E; try reflexivity.
    exfalso. apply Hnz. rewrite Hto. unfold Decimal.unorm. rewrite E. reflexivity. }
  pose proof (uint_digits_range (Pos.to_uint p)) as Hr.
  destruct (Pos.to_uint p) as [|u|u|u|u|u|u|u|u|u|u] eqn:E.
  - cbn in Hof. discriminate Hof.
  - exfalso. exact (Hhead u (eq_sym Hn)).
  - exists 1, (uint_digits u). cbn [uint_digits] in *. inversion Hr; subst.
    cbn [Pos.of_uint] in Hof. injection Hof as <-.
    repeat split; try lia; try assumption. symmetry. apply of_uint_acc_value.
  - exists 2, (uint_digits u). cbn [uint_digits] in *. inversion Hr; subst.
    cbn [Pos.of_uint] in Hof. injection Hof as <-.
    repeat split; try lia; try assumption. symmetry. apply of_uint_acc_value.
  - exists 3, (uint_digits u). cbn [uint_digits] in *. inversion Hr; subst.
    cbn [Pos.of_uint] in Hof. injection Hof as <-.
    repeat split; try lia; try assumption. symmetry. apply of_uint_acc_value.
  - exists 4, (uint_digits u). cbn [uint_digits] in *. inversion Hr; subst.
    cbn [Pos.of_uint] in Hof. injection Hof as <-.
    repeat split; try lia; try assumption. symmetry. apply of_uint_acc_value.
  - exists 5, (uint_digits u). cbn [uint_digits] in *. inversion Hr; subst.
    cbn [Pos.of_uint] in Hof. injection Hof as <-.
    repeat split; try lia; try assumption. symmetry. apply of_uint_acc_value.
  - exists 6, (uint_digits u). cbn [uint_digits] in *. inversion Hr; subst.
    cbn [Pos.of_uint] in Hof. injection Hof as <-.
    repeat split; try lia; try assumption. symmetry. apply of_uint_acc_value.
  - exists 7, (uint_digits u). cbn [uint_digits] in *. inversion Hr; subst.
    cbn [Pos.of_uint] in Hof. injection Hof as <-.
    repeat split; try lia; try assumption. symmetry. apply of_uint_acc_value.
  - exists 8, (uint_digits u). cbn [uint_digits] in *. inversion Hr; subst.
    cbn [Pos.of_uint] in Hof. injection Hof as <-.
    repeat split; try lia; try assumption. symmetry. apply of_uint_acc_value.
  - exists 9, (uint_digits u). cbn [uint_digits] in *. inversion Hr; subst.
    cbn [Pos.of_uint] in Hof. injection Hof as <-.
    repeat split; try lia; try assumption. symmetry. apply of_uint_acc_value.
Qed.

Lemma json_number_pos (p : positive) :
  json_number (Z.pos p) = map (Z.add 48) (uint_digits (Pos.to_uint p)).
Proof.
  unfold json_number. cbn [Z.to_int NilZero.string_of_int]. unfold NilZero.string_of_uint.
  pose proof (DecimalPos.Unsigned.to_uint_nonnil p) as H.
  destruct (Pos.to_uint p) eqn:E; [congruence|..]; rewrite <- E; apply str_string_of_uint.
Qed.

Lemma json_number_neg (p : positive) :
  json_number (Z.neg p) = 45 :: map (Z.add 48) (uint_digits (Pos.to_uint p)).
Proof.
  unfold json_number. cbn [Z.to_int NilZero.string_of_int]. unfold NilZero.string_of_uint.
  pose proof (DecimalPos.Unsigned.to_uint_nonnil p) as H.
  destruct (Pos.to_uint p) eqn:E; [congruence|..]; rewrite <- E;
    change (str (String "-" ?s)) with (45 :: str s);
    rewrite str_string_of_uint; reflexivity.
Qed.

Lemma step_digit (k m : Z) (neg : bool) (p : Parser) :
  0 <= k <= 9 ->
  parse_step (48 + k) (LNumber NInt neg m 0 false 0, p)
  = Some (LNumber NInt neg (10 * m + k) 0 false 0, p).
Proof.
  intros H. unfold parse_step, number_step, is_digit. cbv zeta.
  decide_order. cbn [andb]. do 3 f_equal. lia.
Qed.

Lemma parse_digits (ds : list Z) :
  Forall (fun k => 0 <= k <= 9) ds ->
  forall m neg p rest,
    parse_run (map (Z.add 48) ds ++ rest) (LNumber NInt neg m 0 false 0, p)
    = parse_run rest (LNumber NInt neg (fold_left (fun a k => 10 * a + k) ds m) 0 false 0, p).
Proof.
  induction 1 as [|k ds Hk _ IH]; intros m neg p rest; [reflexivity|].
  cbn [map app fold_left]. rewrite (parse_run_cons _ _ _ _ (step_digit k m neg p Hk)).
  apply IH.
Qed.

Lemma step_first_digit (k : Z) (p : Parser) :
  1 <= k <= 9 -> expects_value (expect p) = true ->
  parse_step (48 + k) (LIdle, p) = Some (LNumber NInt false k 0 false 0, p).
Proof.
  intros H He. unfold parse_step, idle_step, is_json_space, is_digit.
  decide_order. cbn [orb andb]. rewrite He. cbn [negb]. do 3 f_equal. lia.
Qed.

Lemma step_minus_digit (k : Z) (p : Parser) :
  1 <= k <= 9 ->
  parse_step (48 + k) (LNumber NMinus true 0 0 false 0, p)
  = Some (LNumber NInt true k 0 false 0, p).
Proof.
  intros H. unfold parse_step, number_step, is_digit. cbv zeta.
  decide_order. cbn [andb]. do 3 f_equal. lia.
Qed.

(** A number ends at a comma, a closing bracket or brace, or a line feed. *)
Lemma parse_number_end (st : NumState) (neg : bool) (m : Z) (p p' : Parser)
    (rest : jsstring) :
  st = NZero \/ st = NInt ->
  complete (JNumber (if neg then - m else m) 0) p = Some p' ->
  ends_value rest ->
  parse_run rest (LNumber st neg m 0 false 0, p) = parse_run rest (LIdle, p').
Proof.
  intros Hst Hc Hr. destruct rest as [|c r]; [contradiction|].
  unfold ends_value, ends_token in Hr.
  assert (E : parse_step c (LNumber st neg m 0 false 0, p) = parse_step c (LIdle, p')).
  { assert (Hcs : c = 44 \/ c = 93 \/ c = 125 \/ c = 10).
    { repeat (apply orb_true_iff in Hr as [Hr | Hr]); apply Z.eqb_eq in Hr; auto. }
    destruct Hst as [-> | ->], Hcs as [-> | [-> | [-> | ->]]];
      match goal with
      | |- parse_step ?x (LNumber ?s _ _ _ _ _, _) = _ =>
          change (parse_step x (LNumber s neg m 0 false 0, p))
            with (match complete (JNumber (if neg then - m else m) 0) p with
                  | Some q => idle_step x q
                  | None => None
                  end)
      end; rewrite Hc; reflexivity. }
  cbn [parse_run]. rewrite E. reflexivity.
Qed.

Lemma parse_json_number (n : Z) (rest : jsstring) (p p' : Parser) :
  expects_value (expect p) = true ->
  complete (JNumber n 0) p = Some p' ->
  ends_value rest ->
  parse_run (json_number n ++ rest) (LIdle, p) = parse_run rest (LIdle, p').
Proof.
  intros He Hc Hr. destruct n as [|q|q].
  - change (json_number 0) with [48]. cbn [app].
    assert (S1 : parse_step 48 (LIdle, p) = Some (LNumber NZero false 0 0 false 0, p)).
    { change (parse_step 48 (LIdle, p))
        with (if negb (expects_value (expect p)) then None
              else Some (LNumber NZero false 0 0 false 0, p)).
      rewrite He. reflexivity. }
    rewrite (parse_run_cons _ _ _ _ S1).
    apply parse_number_end; [left; reflexivity | exact Hc | exact Hr].
  - rewrite json_number_pos.
    destruct (to_uint_digits q) as (k & l & -> & Hk & Hl & Hv).
    cbn [map app]. rewrite (parse_run_cons _ _ _ _ (step_first_digit k p Hk He)).
    rewrite (parse_digits l Hl), Hv.
    apply parse_number_end; [right; reflexivity | exact Hc | exact Hr].
  - rewrite json_number_neg.
    destruct (to_uint_digits q) as (k & l & -> & Hk & Hl & Hv).
    cbn [map app].
    assert (S1 : parse_step 45 (LIdle, p) = Some (LNumber NMinus true 0 0 false 0, p)).
    { change (parse_step 45 (LIdle, p))
        with (if negb (expects_value (expect p)) then None
              else Some (LNumber NMinus true 0 0 false 0, p)).
      rewrite He. reflexivity. }
    rewrite (parse_run_cons _ _ _ _ S1).
    rewrite (parse_run_cons _ _ _ _ (step_minus_digit k p Hk)).
    rewrite (parse_digits l Hl), Hv.
    apply parse_number_end; [right; reflexivity | exact Hc | exact Hr].
Qed.

(** *** Arrays and objects *)

Lemma parse_spaces (s rest : jsstring) (p : Parser) :
  spaces s -> parse_run (s ++ rest) (LIdle, p) = parse_run rest (LIdle, p).
Proof. induction 1 as [|c s -> _ IH]; [reflexivity | exact IH]. Qed.

Lemma parse_break (pretty : bool) (indent rest : jsstring) (p : Parser) :
  spaces indent ->
  parse_run (break pretty indent ++ rest) (LIdle, p) = parse_run rest (LIdle, p).
Proof.
  intros H. destruct pretty; [|reflexivity].
  exact (parse_spaces indent rest p H).
Qed.

Lemma spaces_gap (indent : jsstring) : spaces indent -> spaces (indent ++ gap).
Proof. intros H. apply Forall_app. split; [exact H | repeat constructor]. Qed.

Lemma ends_value_break (pretty : bool) (indent : jsstring) (c : Z) (rest : jsstring) :
  ends_token c = true -> ends_value (break pretty indent ++ c :: rest).
Proof. intros H. destruct pretty; [reflexivity | exact H]. Qed.

Lemma plain_array (items : list JSON) :
  plain_json (JArray items) <-> Forall plain_json items.
Proof.
  induction items as [|x r IH]; [split; [constructor | exact (fun _ => I)]|].
  split.
  - intros [Hx Hr]. constructor; [exact Hx | apply IH, Hr].
  - intros H. inversion H as [|? ? Hx Hr]; subst. split; [exact Hx | apply IH, Hr].
Qed.

Lemma plain_object (members : list (jsstring * JSON)) :
  plain_json (JObject members)
  <-> Forall (fun kv => wf_string (fst kv) /\ plain_json (snd kv)) members.
Proof.
  induction members as [|x r IH]; [split; [constructor | exact (fun _ => I)]|].
  split.
  - intros (Hk & Hx & Hr). constructor; [split; assumption | apply IH, Hr].
  - intros H. inversion H as [|? ? [Hk Hx] Hr]; subst.
    split; [exact Hk | split; [exact Hx | apply IH, Hr]].
Qed.

Lemma complete_frame (v : JSON) (p : Parser) :
  expects_value (expect p) = true ->
  complete v (mkParser EValue (stack p) None) = complete v p.
Proof. intros H. unfold complete. cbn [expect stack expects_value]. rewrite H. reflexivity. Qed.

Lemma parse_items (pretty : bool) (indent outer : jsstring) (items : list JSON) :
  Forall parses items -> Forall plain_json items -> spaces indent -> spaces outer ->
  items <> [] ->
  forall acc e fs rest,
    expects_value e = true ->
    parse_run (join (str "," ++ break pretty indent) (map (stringify pretty indent) items)
               ++ break pretty outer ++ 93 :: rest)
      (LIdle, mkParser e (FArray acc :: fs) None)
    = parse_run (93 :: rest)
        (LIdle, mkParser ECommaOrClose (FArray (rev items ++ acc) :: fs) None).
Proof.
  intros Hall Hplain Hi Ho. induction Hall as [|x l Hx Hl IH]; intros Hne acc e fs rest He;
    [exfalso; apply Hne; reflexivity|].
  inversion Hplain as [|? ? Px Pl]; subst.
  assert (Hc : complete x (mkParser e (FArray acc :: fs) None)
               = Some (mkParser ECommaOrClose (FArray (x :: acc) :: fs) None)).
  { unfold complete. cbn [expect stack]. rewrite He. reflexivity. }
  destruct l as [|y l].
  - cbn [map join rev app].
    rewrite (Hx pretty indent (mkParser e (FArray acc :: fs) None) _ _ Hi Px He Hc);
      [|intros; apply ends_value_break; reflexivity].
    apply parse_break, Ho.
  - change (join (str "," ++ break pretty indent)
              (map (stringify pretty indent) (x :: y :: l)))
      with (stringify pretty indent x
            ++ (str "," ++ break pretty indent)
            ++ join (str "," ++ break pretty indent)
                 (map (stringify pretty indent) (y :: l))).
    rewrite <- !app_assoc.
    rewrite (Hx pretty indent (mkParser e (FArray acc :: fs) None) _ _ Hi Px He Hc);
      [|intros; reflexivity].
    change (str "," ++ ?a) with (44 :: a).
    rewrite (parse_run_cons 44 _
               (LIdle, mkParser ECommaOrClose (FArray (x :: acc) :: fs) None)
               (LIdle, mkParser EValue (FArray (x :: acc) :: fs) None) eq_refl).
    change (44 :: break pretty indent) with (str "," ++ break pretty indent).
    rewrite (parse_break pretty indent _ _ Hi).
    rewrite (IH Pl ltac:(discriminate) (x :: acc) EValue fs rest eq_refl).
    cbn [rev]. rewrite <- !app_assoc. reflexivity.
Qed.

Lemma parse_members (pretty : bool) (indent outer : jsstring)
    (members : list (jsstring * JSON)) :
  Forall (fun kv => parses (snd kv)) members ->
  Forall (fun kv => wf_string (fst kv) /\ plain_json (snd kv)) members ->
  spaces indent -> spaces outer -> members <> [] ->
  forall acc e fs rest,
    expects_key e = true ->
    parse_run (join (str "," ++ break pretty indent)
                 (map (fun kv => json_string (fst kv) ++ colon pretty
                                 ++ stringify pretty indent (snd kv)) members)
               ++ break pretty outer ++ 125 :: rest)
      (LIdle, mkParser e (FObject acc None :: fs) None)
    = parse_run (125 :: rest)
        (LIdle, mkParser ECommaOrClose (FObject (rev members ++ acc) None :: fs) None).
Proof.
  intros Hall Hplain Hi Ho. induction Hall as [|[k x] l Hx Hl IH];
    intros Hne acc e fs rest He; [exfalso; apply Hne; reflexivity|].
  inversion Hplain as [|? ? [Pk Px] Pl]; subst. cbn [fst snd] in Hx, Pk, Px.
  assert (Hk : complete_string k (mkParser e (FObject acc None :: fs) None)
               = Some (mkParser EColon (FObject acc (Some k) :: fs) None)).
  { unfold complete_string. cbn [expect stack]. rewrite He. reflexivity. }
  assert (He' : expects_value (expect (mkParser e (FObject acc None :: fs) None))
                || expects_key (expect (mkParser e (FObject acc None :: fs) None)) = true).
  { cbn [expect]. rewrite He. apply orb_true_r. }
  assert (Hcolon : forall r,
             parse_run (colon pretty ++ r)
               (LIdle, mkParser EColon (FObject acc (Some k) :: fs) None)
             = parse_run r (LIdle, mkParser EValue (FObject acc (Some k) :: fs) None)).
  { intros r. destruct pretty; reflexivity. }
  assert (Hc : complete x (mkParser EValue (FObject acc (Some k) :: fs) None)
               = Some (mkParser ECommaOrClose (FObject ((k, x) :: acc) None :: fs) None))
    by reflexivity.
  destruct l as [|y l].
  - cbn [map join rev app fst snd]. rewrite <- !app_assoc.
    rewrite (parse_json_string k _ (mkParser e (FObject acc None :: fs) None) _ Pk He' Hk), Hcolon.
    rewrite (Hx pretty indent (mkParser EValue (FObject acc (Some k) :: fs) None)
               _ _ Hi Px eq_refl Hc);
      [|intros; apply ends_value_break; reflexivity].
    apply parse_break, Ho.
  - change (join (str "," ++ break pretty indent)
              (map (fun kv => json_string (fst kv) ++ colon pretty
                              ++ stringify pretty indent (snd kv)) ((k, x) :: y :: l)))
      with ((json_string k ++ colon pretty ++ stringify pretty indent x)
            ++ (str "," ++ break pretty indent)
            ++ join (str "," ++ break pretty indent)
                 (map (fun kv => json_string (fst kv) ++ colon pretty
                                 ++ stringify pretty indent (snd kv)) (y :: l))).
    rewrite <- !app_assoc.
    rewrite (parse_json_string k _ (mkParser e (FObject acc None :: fs) None) _ Pk He' Hk), Hcolon.
    rewrite (Hx pretty indent (mkParser EValue (FObject acc (Some k) :: fs) None)
               _ _ Hi Px eq_refl Hc);
      [|intros; reflexivity].
    change (str "," ++ ?a) with (44 :: a).
    rewrite (parse_run_cons 44 _
               (LIdle, mkParser ECommaOrClose (FObject ((k, x) :: acc) None :: fs) None)
               (LIdle, mkParser EKey (FObject ((k, x) :: acc) None :: fs) None) eq_refl).
    change (44 :: break pretty indent) with (str "," ++ break pretty indent).
    rewrite (parse_break pretty indent _ _ Hi).
    rewrite (IH Pl ltac:(discriminate) ((k, x) :: acc) EKey fs rest eq_refl).
    cbn [rev]. rewrite <- !app_assoc. reflexivity.
Qed.

Lemma step_open (c : Z) (p : Parser) :
  expects_value (expect p) = true ->
  parse_step 91 (LIdle, p) = Some (LIdle, mkParser EValueOrClose (FArray [] :: stack p) None)
  /\ parse_step 123 (LIdle, p)
     = Some (LIdle, mkParser EKeyOrClose (FObject [] None :: stack p) None).
Proof.
  intros He. split.
  - change (parse_step 91 (LIdle, p))
      with (if expects_value (expect p)
            then Some (LIdle, mkParser EValueOrClose (FArray [] :: stack p) None) else None).
    rewrite He. reflexivity.
  - change (parse_step 123 (LIdle, p))
      with (if expects_value (expect p)
            then Some (LIdle, mkParser EKeyOrClose (FObject [] None :: stack p) None)
            else None).
    rewrite He. reflexivity.
Qed.

Lemma step_close_array (e : Expect) (items : list JSON) (p p' : Parser) :
  e = EValueOrClose \/ e = ECommaOrClose ->
  expects_value (expect p) = true -> complete (JArray (rev items)) p = Some p' ->
  parse_step 93 (LIdle, mkParser e (FArray items :: stack p) None) = Some (LIdle, p').
Proof.
  intros He Hp Hc.
  change (parse_step 93 (LIdle, mkParser e (FArray items :: stack p) None))
    with (option_map (pair LIdle) (close_array (mkParser e (FArray items :: stack p) None))).
  unfold close_array. cbn [expect stack].
  destruct He as [-> | ->]; rewrite (complete_frame _ p Hp), Hc; reflexivity.
Qed.

Lemma step_close_object (e : Expect) (members : list (jsstring * JSON)) (p p' : Parser) :
  e = EKeyOrClose \/ e = ECommaOrClose ->
  expects_value (expect p) = true -> complete (JObject (rev members)) p = Some p' ->
  parse_step 125 (LIdle, mkParser e (FObject members None :: stack p) None)
  = Some (LIdle, p').
Proof.
  intros He Hp Hc.
  change (parse_step 125 (LIdle, mkParser e (FObject members None :: stack p) None))
    with (option_map (pair LIdle)
            (close_object (mkParser e (FObject members None :: stack p) None))).
  unfold close_object. cbn [expect stack].
  destruct He as [-> | ->]; rewrite (complete_frame _ p Hp), Hc; reflexivity.
Qed.

(** The parser reads the text of every plain value as that value. *)
Lemma parse_stringify (v : JSON) : parses v.
Proof.
  induction v as [ | b | m e | s | items IH | members IH] using JSON_induction;
    intros pretty indent p p' rest Hi Hv He Hc Hn.
  - contradiction.
  - contradiction.
  - cbn in Hv. subst e. cbn [stringify].
    apply parse_json_number; [exact He | exact Hc | exact (Hn m 0 eq_refl)].
  - cbn [stringify]. apply parse_json_string; [exact Hv | rewrite He; reflexivity |].
    unfold complete_string. destruct (expect p); try discriminate He; exact Hc.
  - apply plain_array in Hv. cbn [stringify].
    destruct (step_open 0 p He) as [S1 _].
    destruct items as [|x l].
    + cbn [map brackets app]. rewrite (parse_run_cons _ _ _ _ S1).
      apply parse_run_cons.
      apply (step_close_array EValueOrClose [] p p'); [left; reflexivity | exact He | exact Hc].
    + unfold brackets.
      change (map (stringify pretty (indent ++ gap)) (x :: l))
        with (stringify pretty (indent ++ gap) x
              :: map (stringify pretty (indent ++ gap)) l).
      cbv iota.
      change (stringify pretty (indent ++ gap) x
              :: map (stringify pretty (indent ++ gap)) l)
        with (map (stringify pretty (indent ++ gap)) (x :: l)).
      cbn [app]. rewrite (parse_run_cons _ _ _ _ S1). rewrite <- !app_assoc.
      rewrite (parse_break pretty _ _ _ (spaces_gap indent Hi)). cbn [app].
      rewrite (parse_items pretty (indent ++ gap) indent (x :: l) IH Hv
                 (spaces_gap indent Hi) Hi ltac:(discriminate) [] EValueOrClose
                 (stack p) rest eq_refl).
      apply parse_run_cons. rewrite app_nil_r.
      apply (step_close_array ECommaOrClose (rev (x :: l)) p p');
        [right; reflexivity | exact He | rewrite rev_involutive; exact Hc].
  - apply plain_object in Hv. cbn [stringify].
    destruct (step_open 0 p He) as [_ S1].
    destruct members as [|x l].
    + cbn [map brackets app]. rewrite (parse_run_cons _ _ _ _ S1).
      apply parse_run_cons.
      apply (step_close_object EKeyOrClose [] p p'); [left; reflexivity | exact He | exact Hc].
    + unfold brackets.
      set (f := fun kv : jsstring * JSON =>
                  json_string (fst kv) ++ colon pretty
                  ++ stringify pretty (indent ++ gap) (snd kv)).
      change (map f (x :: l)) with (f x :: map f l). cbv iota.
      change (f x :: map f l) with (map f (x :: l)). subst f.
      cbn [app]. rewrite (parse_run_cons _ _ _ _ S1). rewrite <- !app_assoc.
      rewrite (parse_break pretty _ _ _ (spaces_gap indent Hi)). cbn [app].
      rewrite (parse_members pretty (indent ++ gap) indent (x :: l) IH Hv
                 (spaces_gap indent Hi) Hi ltac:(discriminate) [] EKeyOrClose
                 (stack p) rest eq_refl).
      apply parse_run_cons. rewrite app_nil_r.
      apply (step_close_object ECommaOrClose (rev (x :: l)) p p');
        [right; reflexivity | exact He | rewrite rev_involutive; exact Hc].
Qed.

Lemma JSON_parse_stringify (pretty : bool) (items : list JSON) :
  Forall plain_json items ->
  JSON_parse (stringify pretty [] (JArray items)) = Some (JArray items).
Proof.
  intros H. unfold JSON_parse.
  rewrite <- (app_nil_r (stringify pretty [] (JArray items))).
  rewrite (parse_stringify (JArray items) pretty [] (mkParser EValue [] None)
             (mkParser EDone [] (Some (JArray items))) []
             ltac:(constructor) (proj2 (plain_array items) H) eq_refl eq_refl
             ltac:(discriminate)).
  reflexivity.
Qed.

(** *** The texts of the application *)

Lemma json_array_brackets (indent : jsstring) (items : list jsstring) :
  json_array indent items = brackets true indent 91 93 items.
Proof.
  destruct items as [|x l]; [reflexivity|].
  unfold json_array, brackets, break, newline.
  change (str "[") with [91]. change (str "]") with [93]. change (str ",") with [44].
  cbn [app]. rewrite <- !app_assoc. reflexivity.
Qed.

Lemma json_object_brackets (indent : jsstring) (members : list (string * jsstring)) :
  json_object indent members
  = brackets true indent 123 125
      (map (fun kv => json_string (str (fst kv)) ++ colon true ++ snd kv) members).
Proof.
  destruct members as [|x l]; [reflexivity|].
  unfold json_object, brackets, break, newline, colon.
  change (str "{") with [123]. change (str "}") with [125]. change (str ",") with [44].
  cbn [app map]. rewrite <- !app_assoc. reflexivity.
Qed.

Lemma compact_array_brackets (indent : jsstring) (items : list jsstring) :
  compact_array items = brackets false indent 91 93 items.
Proof. destruct items; reflexivity. Qed.

Lemma compact_object_brackets (indent : jsstring) (members : list (string * jsstring)) :
  compact_object members
  = brackets false indent 123 125
      (map (fun kv => json_string (str (fst kv)) ++ colon false ++ snd kv) members).
Proof. destruct members; reflexivity. Qed.

Lemma stringify_strings (pretty : bool) (indent : jsstring) (l : list jsstring) :
  map (stringify pretty indent) (map JString l) = map json_string l.
Proof. rewrite map_map. reflexivity. Qed.

Lemma stringify_entry_json (indent : jsstring) (h : HistoryEntry) :
  stringify true indent (entry_json h) = stringify_entry indent h.
Proof.
  unfold stringify_entry. rewrite json_object_brackets. reflexivity.
Qed.

Lemma compact_entry_json (indent : jsstring) (h : HistoryEntry) :
  stringify false indent (entry_json h) = compact_entry h.
Proof.
  unfold compact_entry. rewrite (compact_object_brackets indent). reflexivity.
Qed.

Lemma stringify_term_json (indent : jsstring) (t : Term) :
  stringify true indent (term_json t) = stringify_term indent t.
Proof.
  unfold stringify_term. cbv zeta. rewrite json_object_brackets.
  rewrite !json_array_brackets.
  assert (Eh : map (stringify_entry ((indent ++ gap) ++ gap)) (history t)
               = map (stringify true ((indent ++ gap) ++ gap)) (map entry_json (history t))).
  { rewrite map_map. apply map_ext. intros h. symmetry. apply stringify_entry_json. }
  rewrite Eh. unfold term_json.
  destruct (tags t) as [tg|], (source t) as [sr|];
    cbn [stringify map app fst snd]; rewrite ?stringify_strings, ?json_array_brackets;
    reflexivity.
Qed.

Lemma compact_term_json (indent : jsstring) (t : Term) :
  stringify false indent (term_json t) = compact_term t.
Proof.
  unfold compact_term. rewrite (compact_object_brackets indent).
  rewrite !(compact_array_brackets (indent ++ gap)).
  assert (Eh : map compact_entry (history t)
               = map (stringify false ((indent ++ gap) ++ gap)) (map entry_json (history t))).
  { rewrite map_map. apply map_ext. intros h. symmetry. apply compact_entry_json. }
  rewrite Eh. unfold term_json.
  destruct (tags t) as [tg|], (source t) as [sr|];
    cbn [stringify map app fst snd];
    rewrite ?stringify_strings, ?(compact_array_brackets (indent ++ gap)); reflexivity.
Qed.

Lemma JSON_stringify_terms (ts : list Term) :
  JSON_stringify ts = stringify true [] (JArray (map term_json ts)).
Proof.
  unfold JSON_stringify. rewrite json_array_brackets. cbn [stringify].
  rewrite map_map. f_equal. apply map_ext. intros t. symmetry.
  apply (stringify_term_json ([] ++ gap)).
Qed.

Lemma JSON_stringify_compact_terms (ts : list Term) :
  JSON_stringify_compact ts = stringify false [] (JArray (map term_json ts)).
Proof.
  unfold JSON_stringify_compact. rewrite (compact_array_brackets []). cbn [stringify].
  rewrite map_map. f_equal. apply map_ext. intros t. symmetry. apply compact_term_json.
Qed.

Lemma wf_string_check (s : jsstring) : wf_stringb s = true -> wf_string s.
Proof.
  unfold wf_stringb, wf_string, code_unit. intros H. apply Forall_forall. intros c Hc.
  apply (proj1 (forallb_forall _ _) H) in Hc. apply andb_true_iff in Hc as [H1 H2].
  apply Z.leb_le in H1. apply Z.ltb_lt in H2. lia.
Qed.

Lemma plain_term_json (t : Term) : wf_term t -> plain_json (term_json t).
Proof.
  intros (Hi & Ht & Hd & Htg & Hsr & _ & Hdu & Hh).
  assert (Htags : forall tg, Forall wf_string tg -> plain_json (JArray (map JString tg))).
  { intros tg H. apply plain_array. apply Forall_forall. intros v Hv.
    apply in_map_iff in Hv as (s & <- & Hs). exact (proj1 (Forall_forall _ _) H s Hs). }
  assert (Hhist : plain_json (JArray (map entry_json (history t)))).
  { apply plain_array. apply Forall_forall. intros v Hv.
    apply in_map_iff in Hv as (h & <- & Hs).
    pose proof (proj1 (Forall_forall _ _) Hh h Hs) as Hw. unfold wf_entry in Hw.
    apply plain_object. unfold entry_json.
    apply Forall_cons; [split; [apply wf_string_check; reflexivity | exact Hw]|].
    apply Forall_cons; [split; [apply wf_string_check; reflexivity|]|apply Forall_nil].
    cbn [snd plain_json]. destruct (rating h); apply wf_string_check; reflexivity. }
  apply plain_object. unfold term_json.
  destruct (tags t) as [tg|] eqn:Et, (source t) as [sr|] eqn:Es; cbn [app];
    repeat (apply Forall_cons; [split; [apply wf_string_check; reflexivity | cbn [snd]]|]);
    try apply Forall_nil;
    first [ exact Hi | exact Ht | exact Hd | exact Hdu | exact Hhist | reflexivity
          | apply Htags, Htg; reflexivity | apply Hsr; reflexivity ].
Qed.

Lemma all_some_map {A B} (f : A -> option B) (g : B -> A) (l : list B) :
  (forall x, f (g x) = Some x) -> all_some (map f (map g l)) = Some l.
Proof.
  intros H. induction l as [|x l IH]; [reflexivity|].
  cbn [map all_some]. rewrite H, IH. reflexivity.
Qed.

Lemma as_entry_json (h : HistoryEntry) : as_entry (entry_json h) = Some h.
Proof. destruct h as [dd r]. destruct r; reflexivity. Qed.

Lemma as_term_json (t : Term) : as_term (term_json t) = Some t.
Proof.
  destruct t as [i tm df tg sr b du hs]. unfold term_json.
  cbn [id term definition tags source bucket due history].
  assert (Eh : all_some (map as_entry (map entry_json hs)) = Some hs)
    by (apply all_some_map, as_entry_json).
  assert (Eb : b * 1 = b) by lia.
  assert (Et : forall l, all_some (map (fun x => match x with JString s => Some s | _ => None end)
                                       (map JString l)) = Some l)
    by (intros l; apply all_some_map; reflexivity).
  destruct tg as [tg|], sr as [sr|]; cbn [app]; cbn; rewrite Eh, Eb, ?Et; reflexivity.
Qed.

Lemma as_terms_json (ts : list Term) : as_terms (JArray (map term_json ts)) = Some ts.
Proof. apply all_some_map, as_term_json. Qed.

Lemma plain_terms_json (ts : list Term) :
  Forall wf_term ts -> Forall plain_json (map term_json ts).
Proof.
  intros H. apply Forall_forall. intros v Hv. apply in_map_iff in Hv as (t & <- & Ht).
  apply plain_term_json. exact (proj1 (Forall_forall _ _) H t Ht).
Qed.

Lemma wf_samples : Forall wf_term (odd_card :: sample_set).
Proof.
  unfold sample_set.
  repeat (apply Forall_cons;
          [unfold wf_term, card, odd_card;
           cbn [id term definition tags source bucket due history];
           repeat apply conj; try (intros ? [= <-]); try lia;
           first [ apply wf_string_check; reflexivity
                 | repeat (apply Forall_cons; [apply wf_string_check; reflexivity|]);
                   apply Forall_nil ]
          |]).
  apply Forall_nil.
Qed.

(** ** Saving, loading and exporting *)

(** X15: what the application saves it loads again: for cards whose
    strings are sequences of code units, the text [save] writes under the
    storage key parses, and the parsed value denotes these cards, field
    by field, absent tags and source included; [load] then returns this
    value when there is a card, and the seed set when the saved set is
    empty; the other keys of the storage are left as they are. *)
Theorem save_load_round_trip (uid : IdSupply) (started : Z) (ts : list Term)
    (st : Storage) :
  Forall wf_term ts ->
  exists v,
    JSON_parse (JSON_stringify_compact ts) = Some v
    /\ as_terms v = Some ts
    /\ load_from uid started (save ts st)
       = match ts with [] => Seed (SEED uid started) | _ => Parsed v end
    /\ forall k, str_eqb k STORAGE_KEY = false -> getItem (save ts st) k = getItem st k.
Proof.
  intros H. exists (JArray (map term_json ts)).
  assert (E : JSON_parse (JSON_stringify_compact ts) = Some (JArray (map term_json ts))).
  { rewrite JSON_stringify_compact_terms. apply JSON_parse_stringify, plain_terms_json, H. }
  split; [exact E|]. split; [apply as_terms_json|]. split.
  - unfold load_from, save, getItem, setItem. rewrite str_eqb_refl. unfold load.
    rewrite E.
    replace (nonempty (JSON_stringify_compact ts)) with true
      by (unfold JSON_stringify_compact, compact_array; reflexivity).
    destruct ts; reflexivity.
  - intros k Hk. unfold save, getItem, setItem. rewrite Hk. reflexivity.
Qed.

Lemma save_load_round_trip_witness :
  exists v,
    JSON_parse (JSON_stringify_compact (odd_card :: sample_set)) = Some v
    /\ as_terms v = Some (odd_card :: sample_set)
    /\ load_from sample_uid sample_now (save (odd_card :: sample_set) (fun _ => None))
       = Parsed v.
Proof.
  destruct (save_load_round_trip sample_uid sample_now (odd_card :: sample_set)
              (fun _ => None) wf_samples) as (v & E1 & E2 & E3 & _).
  exists v. split; [exact E1|]. split; [exact E2 | exact E3].
Defined.

(** X16: the exported file is JSON for the card set: for cards whose
    strings are sequences of code units, the text of [exportJSON] parses,
    and the parsed value denotes the cards of the state, field by field;
    put under the storage key, it is what [load] returns when there is a
    card. *)
Theorem exportJSON_parses (uid : IdSupply) (started : Z) (st : AppState) :
  Forall wf_term (all st) ->
  exists v,
    JSON_parse (exportJSON st) = Some v
    /\ as_terms v = Some (all st)
    /\ (all st <> [] -> load uid started (Some (exportJSON st)) = Parsed v).
Proof.
  intros H. exists (JArray (map term_json (all st))).
  assert (E : JSON_parse (exportJSON st) = Some (JArray (map term_json (all st)))).
  { unfold exportJSON. rewrite JSON_stringify_terms.
    apply JSON_parse_stringify, plain_terms_json, H. }
  split; [exact E|]. split; [apply as_terms_json|].
  intros Hne. unfold load. rewrite E.
  destruct (JSON_stringify_head (all st)) as (s & Es). unfold exportJSON. rewrite Es.
  cbn [nonempty negb]. destruct (all st); [contradiction Hne; reflexivity | reflexivity].
Qed.

Lemma exportJSON_parses_witness :
  exists v,
    JSON_parse (exportJSON (initial (odd_card :: sample_set))) = Some v
    /\ as_terms v = Some (odd_card :: sample_set).
Proof.
  destruct (exportJSON_parses sample_uid sample_now (initial (odd_card :: sample_set))
              wf_samples) as (v & E1 & E2 & _).
  exists v. split; [exact E1 | exact E2].
Defined.

(** ** The browse view *)

Lemma starts_with_prefix (q s : jsstring) :
  starts_with q s = true <-> exists b, s = q ++ b.
Proof.
  revert s. induction q as [|x q IH]; intros s.
  - split; [intros _; exists s; reflexivity | reflexivity].
  - destruct s as [|y s]; cbn [starts_with].
    + split; [discriminate | intros (b & E); discriminate E].
    + rewrite andb_true_iff, Z.eqb_eq, IH. split.
      * intros (-> & b & ->). exists b. reflexivity.
      * intros (b & E). injection E as -> ->. split; [reflexivity | exists b; reflexivity].
Qed.

Lemma includes_substring (s q : jsstring) : includes s q = true <-> substring q s.
Proof.
  unfold substring. induction s as [|y s IH].
  - cbn [includes]. rewrite orb_false_r, starts_with_prefix. split.
    + intros (b & E). exists [], b. exact E.
    + intros (a & b & E). destruct a as [|x a]; [exists b; exact E | discriminate E].
  - cbn [includes]. rewrite orb_true_iff, starts_with_prefix, IH. split.
    + intros [(b & E) | (a & b & E)].
      * exists [], b. exact E.
      * exists (y :: a), b. rewrite E. reflexivity.
    + intros (a & b & E). destruct a as [|x a].
      * left. exists b. exact E.
      * right. injection E as -> ->. exists a, b. reflexivity.
Qed.

(** X17: the browse view shows every card, in the order of the set, when
    the query in lower case is blank, and else exactly the cards of the
    set whose term, definition or one of whose tags, in lower case, holds
    the query, in lower case and trimmed, as a substring; a card without
    tags is matched on term and definition only. *)
Theorem filtered_cards (toLowerCase : jsstring -> jsstring) (query : jsstring)
    (all : list Term) :
  (trim (toLowerCase query) = [] -> filtered toLowerCase query all = all)
  /\ (trim (toLowerCase query) <> [] ->
      forall t,
        In t (filtered toLowerCase query all)
        <-> In t all
            /\ (substring (trim (toLowerCase query)) (toLowerCase (term t))
                \/ substring (trim (toLowerCase query)) (toLowerCase (definition t))
                \/ exists x tg, tags t = Some tg /\ In x tg
                     /\ substring (trim (toLowerCase query)) (toLowerCase x)))
  /\ (forall t, In t (filtered toLowerCase query all) -> In t all)
  /\ filtered toLowerCase query (filtered toLowerCase query all)
     = filtered toLowerCase query all.
Proof.
  unfold filtered. cbv zeta. set (q := trim (toLowerCase query)).
  split; [|split; [|split]].
  - intros ->. reflexivity.
  - intros Hq t. destruct q as [|c q'] eqn:E; [congruence|]. cbn [nonempty negb].
    rewrite filter_In, !orb_true_iff, !includes_substring, existsb_exists.
    split; intros [Ht H]; (split; [exact Ht|]).
    + destruct H as [[H | H] | (x & Hx & H)]; [left; exact H | right; left; exact H |].
      right. right. apply includes_substring in H.
      destruct (tags t) as [tg|]; [|contradiction]. exists x, tg. auto.
    + destruct H as [H | [H | (x & tg & Et & Hx & H)]]; [auto | auto |].
      right. exists x. rewrite Et. split; [exact Hx | apply includes_substring; exact H].
  - intros t. destruct (negb (nonempty q)); [auto|]. intros H.
    apply filter_In in H. exact (proj1 H).
  - destruct (negb (nonempty q)); [reflexivity|].
    set (keep := fun t : Term => _).
    induction all as [|x l IH]; [reflexivity|]. cbn [filter].
    destruct (keep x) eqn:Ex; [cbn [filter]; rewrite Ex; f_equal; exact IH | exact IH].
Qed.
